(** * Layer-wise vectorisation controller ([pair/Layerwise/evenodd.py])

    A shallow embedding of the progressive controller of the repository:
    [get_bezier_circle], [init_new_paths] and the stage loop of [main].

    Conventions of the embedding.
    - Floating-point tensors are idealised as exact reals ([R]); rounding,
      NaN and infinities are outside the model.
    - A dense 2-D array is a shape together with an indexing function
      ([tensor2]); parameter tensors owned by shapes live in a store and are
      referred to by location, because the optimisers mutate them in place.
    - The rasteriser, autograd and Adam are oracles (section variables).
    - The Python and NumPy random generators are explicit states.
    - File output (svg, png, video, plots) has no effect on the state that
      the controller threads and is left out.

    After the controller come the helpers of [VAE/utils.py] ([format_time],
    [progress_bar], [AverageMeter]), the training loop of
    [pair/fashionmnist/main.py], and the image loaders and the scene set-up
    of [evenodd.py] and [pair/optimization/myopt.py]. *)

From Stdlib Require Import Reals Lra Lia ZArith List Permutation Sorted.
From Stdlib Require String Ascii DecimalString.
From stdpp Require Import base list.

Import ListNotations.

(** ** Dense arrays and the torch operations used by the controller *)

Module Torch.

Local Open Scope R_scope.

(** A [rows] x [cols] array; only indices inside the shape are meaningful. *)
Record tensor2 (A : Type) : Type := Tensor2
  { rows : nat; cols : nat; at_ : nat -> nat -> A }.
Arguments Tensor2 {A} _ _ _.
Arguments rows {A} _.
Arguments cols {A} _.
Arguments at_ {A} _ _ _.

(** A value taking part in autograd: [requires_grad] is true for a leaf
    parameter that is optimised, and for anything computed from one. *)
Record var (A : Type) : Type := Var { data : A; requires_grad : bool }.
Arguments Var {A} _ _.
Arguments data {A} _.
Arguments requires_grad {A} _.

Definition Rsum (l : list R) : R := fold_right Rplus 0 l.

(** [t.reshape(-1)]: row-major flattening. *)
Definition flatten (t : tensor2 R) : list R :=
  concat (map (fun i => map (fun j => at_ t i j) (seq 0 (cols t))) (seq 0 (rows t))).

(** [x.reshape_as(t)] for a flat [x]. *)
Definition reshape_as (x : list R) (t : tensor2 R) : tensor2 R :=
  Tensor2 (rows t) (cols t) (fun i j => nth (i * cols t + j)%nat x 0).

(** [t.sum()] *)
Definition sum_all (t : tensor2 R) : R := Rsum (flatten t).

(** Window bounds of adaptive pooling: [floor(i*inp/out)] and
    [ceil((i+1)*inp/out)]. *)
Definition start_index (i out inp : nat) : nat := ((i * inp) / out)%nat.
Definition end_index (i out inp : nat) : nat := (((i + 1) * inp + out - 1) / out)%nat.

Definition window (i out inp : nat) : list nat :=
  seq (start_index i out inp) (end_index i out inp - start_index i out inp).

(** [adaptive_avg_pool2d(t, [oh, ow])] on the two spatial dimensions. *)
Definition adaptive_avg_pool2d (t : tensor2 R) (oh ow : nat) : tensor2 R :=
  Tensor2 oh ow (fun i j =>
    let wr := window i oh (rows t) in
    let wc := window j ow (cols t) in
    Rsum (flat_map (fun r => map (fun c => at_ t r c) wc) wr)
      / INR (length wr * length wc)).

(** [torch.nn.functional.interpolate(t, size=[h, w], mode='area')] is
    adaptive average pooling to the requested size. *)
Definition interpolate_area (t : tensor2 R) (h w : nat) : tensor2 R :=
  adaptive_avg_pool2d t h w.

(** [torch.softmax(x, dim=-1)] on a flat vector. *)
Definition softmax (x : list R) : list R :=
  let e := map exp x in map (fun v => v / Rsum e) e.

(** [t / s] for a scalar [s]. *)
Definition div_scalar (t : tensor2 R) (s : R) : tensor2 R :=
  Tensor2 (rows t) (cols t) (fun i j => at_ t i j / s).

(** [x.clamp_(lo, hi)] on one entry. *)
Definition clamp (lo hi x : R) : R :=
  if Rlt_dec x lo then lo else if Rlt_dec hi x then hi else x.

End Torch.

(** ** Python built-ins *)

Module Py.

(** [range(n)]: empty when [n] is not positive. *)
Definition range (n : Z) : list nat := seq 0 (Z.to_nat n).

(** [l[:k]]: a negative [k] counts from the end. *)
Definition slice_to {A : Type} (k : Z) (l : list A) : list A :=
  if (0 <=? k)%Z then firstn (Z.to_nat k) l
  else firstn (length l - Z.to_nat (- k)) l.

Inductive exn : Set :=
  | IndexError | NameError | ValueError | ZeroDivisionError | RuntimeError.

Inductive result (A : Type) : Type :=
  | Ok (a : A)
  | Raise (e : exn).
Arguments Ok {A} _.
Arguments Raise {A} _.

End Py.

Export Torch Py.

(** ** The scene: shapes, groups and the parameter store *)

(** Locations in a store are positions. *)
Abbreviation loc := nat (only parsing).

(** [pydiffvg.Path]; [points] is a reference to an N x 2 tensor. *)
Record Path : Type := mkPath
  { num_control_points : list Z;
    points : loc;
    stroke_width : R;
    is_closed : bool }.

(** [pydiffvg.ShapeGroup]; [fill_color] is a reference to an RGBA tensor. *)
Record ShapeGroup : Type := mkShapeGroup
  { shape_ids : list nat;
    use_even_odd_rule : bool;
    fill_color : loc }.

(** What [serialize_scene] hands to the rasteriser: the current values. *)
Record PathArgs : Type := mkPathArgs
  { pa_num_control_points : list Z;
    pa_points : list (R * R);
    pa_stroke_width : R;
    pa_is_closed : bool }.

Record GroupArgs : Type := mkGroupArgs
  { ga_shape_ids : list nat;
    ga_use_even_odd_rule : bool;
    ga_fill_color : list R }.

Definition scene_args : Type := list PathArgs * list GroupArgs.

Definition rgb : Type := R * R * R.
Definition rgba : Type := R * R * R * R.

(** [loss_weight]: the scalar [1/(W*H)] of the first stage, or the map
    computed from the previous stage's residual. *)
Inductive weight : Type :=
  | Uniform (c : R)
  | WeightMap (m : var (tensor2 R)).

Inductive initial_mode : Set := random | circle.

(** The command-line arguments the controller reads. *)
Record Args : Type := mkArgs
  { num_segments : Z;
    num_iter : Z;
    free : bool;
    pool_size : Z;
    initial : initial_mode;
    circle_init_radius : option R }.

(** ** External collaborators *)

(** Python's [random], NumPy's global generator, [torch.sort], the
    differentiable rasteriser and the Adam optimisers with their cosine
    schedules. *)
Class Backend : Type := mkBackend
  { py_rng : Type;
    random_seed : Z -> py_rng;
    random_random : py_rng -> R * py_rng;
    np_rng : Type;
    np_random_uniform : R -> R -> np_rng -> R * np_rng;
    (* indices returned by [torch.sort(x, dim=0, descending=True)] *)
    torch_sort_descending : list R -> list nat;
    (* [render(w, h, 2, 2, seed, None, *scene_args)], pixel (y, x) *)
    render : nat -> nat -> Z -> scene_args -> nat -> nat -> rgba;
    grads : Type;
    (* [loss.backward()] for the loss of one iteration *)
    backward : nat -> nat -> Z -> scene_args -> tensor2 rgb -> weight -> grads;
    optim_state : Type;
    (* [Adam(params, lr)] with [CosineAnnealingLR(optim, T_max, eta_min)] *)
    Adam : list loc -> R -> Z -> R -> optim_state;
    (* new value of one parameter after [optim.step()] *)
    adam_points : optim_state -> grads -> loc -> list (R * R) -> list (R * R);
    adam_color : optim_state -> grads -> loc -> list R -> list R;
    (* optimiser and scheduler state after [step()] *)
    optim_advance : optim_state -> grads -> optim_state }.

(** The documented contract of [torch.sort] without [stable=True]: the
    indices are a permutation and the values they select are
    non-increasing.  The order of equal values is not specified. *)
Class BackendLaws (B : Backend) : Prop := mkBackendLaws
  { torch_sort_perm : forall x : list R,
      Permutation (torch_sort_descending x) (seq 0 (length x));
    torch_sort_sorted : forall x : list R,
      StronglySorted Rge (map (fun i => nth i x 0%R) (torch_sort_descending x)) }.

(** ** The interpreter state and its monad *)

Section Controller.

Context {B : Backend}.

Local Open Scope R_scope.

(** The two generator states and the two typed stores of parameter
    tensors (point tensors and colour tensors). *)
Record world : Type := World
  { py_state : py_rng;
    np_state : np_rng;
    point_tensors : list (var (list (R * R)));
    color_tensors : list (var (list R)) }.

Definition M (A : Type) : Type := world -> result (A * world).

Definition ret {A : Type} (a : A) : M A := fun w => Ok (a, w).

Definition bind {A C : Type} (m : M A) (k : A -> M C) : M C :=
  fun w => match m w with
           | Ok (a, w') => k a w'
           | Raise e => Raise e
           end.

Definition raise {A : Type} (e : exn) : M A := fun _ => Raise e.

Notation "'do' x <- c ; k" := (bind c (fun x => k))
  (at level 10, x name, c at level 100, k at level 200).
Notation "'do' ' p <- c ; k" := (bind c (fun x => match x with p => k end))
  (at level 10, p pattern, c at level 100, k at level 200).

(** [for x in l: s = body(x, s)] *)
Fixpoint for_ {A S : Type} (l : list A) (body : A -> S -> M S) (s : S) : M S :=
  match l with
  | [] => ret s
  | x :: l' => do s' <- body x s; for_ l' body s'
  end.

(** [random.random()] *)
Definition py_random : M R := fun w =>
  let '(r, s) := random_random (py_state w) in
  Ok (r, World s (np_state w) (point_tensors w) (color_tensors w)).

(** [random.seed(n)] *)
Definition py_seed (n : Z) : M unit := fun w =>
  Ok (tt, World (random_seed n) (np_state w) (point_tensors w) (color_tensors w)).

(** [np.random.uniform(low, high)] *)
Definition np_uniform (low high : R) : M R := fun w =>
  let '(r, s) := np_random_uniform low high (np_state w) in
  Ok (r, World (py_state w) s (point_tensors w) (color_tensors w)).

(** A fresh point tensor, as made by [torch.tensor]; not yet trainable. *)
Definition alloc_points (v : list (R * R)) : M loc := fun w =>
  Ok (length (point_tensors w),
      World (py_state w) (np_state w)
            (point_tensors w ++ [Var v false]) (color_tensors w)).

Definition alloc_color (v : list R) : M loc := fun w =>
  Ok (length (color_tensors w),
      World (py_state w) (np_state w)
            (point_tensors w) (color_tensors w ++ [Var v false])).

(** [t.requires_grad = b] on a stored tensor. *)
Definition set_requires_grad {A : Type} (b : bool) (l : loc)
    (st : list (var A)) : list (var A) :=
  match st !! l with
  | Some v => <[l := Var (data v) b]> st
  | None => st
  end.

Definition set_points_grad (b : bool) (l : loc) : M unit := fun w =>
  Ok (tt, World (py_state w) (np_state w)
                (set_requires_grad b l (point_tensors w)) (color_tensors w)).

Definition set_color_grad (b : bool) (l : loc) : M unit := fun w =>
  Ok (tt, World (py_state w) (np_state w)
                (point_tensors w) (set_requires_grad b l (color_tensors w))).

(** ** [get_bezier_circle] *)

Definition degrees (x : R) : R := x * 180 / PI.
Definition deg2rad (x : R) : R := x * PI / 180.

(** The three control points appended for segment [i]. *)
Definition circle_segment (m1_point_angle m1_point_radius m3_point_angle : R)
    (i : nat) : list (R * R) :=
  let m1_point :=
    (m1_point_radius * cos (deg2rad (INR i * m3_point_angle + m1_point_angle)),
     m1_point_radius * sin (deg2rad (INR i * m3_point_angle + m1_point_angle))) in
  let m2_point_angle := m3_point_angle - m1_point_angle in
  let m2_point :=
    (m1_point_radius * cos (deg2rad (INR i * m3_point_angle + m2_point_angle)),
     m1_point_radius * sin (deg2rad (INR i * m3_point_angle + m2_point_angle))) in
  let m3_point :=
    (cos (deg2rad (INR i * m3_point_angle + m3_point_angle)),
     sin (deg2rad (INR i * m3_point_angle + m3_point_angle))) in
  [m1_point; m2_point; m3_point].

Definition get_bezier_circle (radius : R) (segments : Z) (bias : option (R * R))
    : M (list (R * R)) :=
  do bias <- match bias with
             | Some b => ret b
             | None => do x <- py_random; do y <- py_random; ret (x, y)
             end;
  let m_point := (1, 0) in
  let points := [m_point] in
  if (segments =? 0)%Z then raise ZeroDivisionError else
  let m1_point_angle := degrees (4 / 3 * tan (PI / IZR (2 * segments))) in
  let m1_point_radius := sqrt (1 + (4 / 3 * tan (PI / IZR (2 * segments))) ^ 2) in
  let m3_point_angle := 360 / IZR segments in
  let points :=
    fold_left (fun points i =>
                 points ++ circle_segment m1_point_angle m1_point_radius m3_point_angle i)
              (range segments) points in
  let points := rev points in
  let points := removelast points in
  let points := map (fun p => (fst p * radius + fst bias, snd p * radius + snd bias)) points in
  ret points.

(** ** [init_new_paths] *)

(** Lines 125-133: the normalised (w, h) centres of the selected cells. *)
Definition norm_postion (args : Args) (num_paths : Z) (pixel_loss : tensor2 R)
    : list (R * R) :=
  let p := Z.to_nat (pool_size args) in
  let region_loss := adaptive_avg_pool2d pixel_loss p p in
  let indices := torch_sort_descending (flatten region_loss) in
  let indices := slice_to num_paths indices in
  map (fun idx =>
         let indices_h := Z.quot (Z.of_nat idx) (pool_size args) in
         let indices_w := Z.modulo (Z.of_nat idx) (pool_size args) in
         ((IZR indices_w + 0.5) / IZR (pool_size args),
          (IZR indices_h + 0.5) / IZR (pool_size args)))
      indices.

(** One step of the random walk of the random initialisation. *)
Definition jitter (radius : R) (p : R * R) : M (R * R) :=
  do dx <- py_random;
  do dy <- py_random;
  ret (fst p + radius * (dx - 0.5), snd p + radius * (dy - 0.5)).

(** Lines 143-156: the random polyline. *)
Definition random_points (num_segments : Z) : M (list (R * R)) :=
  do x <- py_random;
  do y <- py_random;
  let p0 := (x, y) in
  do r <- for_ (range num_segments)
            (fun j (st : (R * R) * list (R * R)) =>
               let '(p0, points) := st in
               let radius := 0.05 in
               do p1 <- jitter radius p0;
               do p2 <- jitter radius p1;
               do p3 <- jitter radius p2;
               let points := points ++ [p1] in
               let points := points ++ [p2] in
               if (Z.of_nat j <? num_segments - 1)%Z
               then ret (p3, points ++ [p3])
               else ret (p0, points))
            (p0, [p0]);
  ret (snd r).

(** [points.mean(dim=0)] *)
Definition mean_point (pts : list (R * R)) : R * R :=
  (Rsum (map fst pts) / INR (length pts), Rsum (map snd pts) / INR (length pts)).

(** Line 169: [points - points.mean(dim=0, keepdim=True) + c] *)
Definition recenter (pts : list (R * R)) (c : R * R) : list (R * R) :=
  let m := mean_point pts in
  map (fun p => (fst p - fst m + fst c, snd p - snd m + snd c)) pts.

(** Lines 171-172: scaling to canvas pixels. *)
Definition scale_to_canvas (canvas_width canvas_height : nat) (pts : list (R * R))
    : list (R * R) :=
  map (fun p => (fst p * INR canvas_width, snd p * INR canvas_height)) pts.

(** The points of one new shape before they are stored (lines 138-169). *)
Definition new_points (args : Args) (norm : option (list (R * R))) (i : nat)
    : M (list (R * R)) :=
  do pts <- match initial args with
            | random => random_points (num_segments args)
            | circle =>
                do radius <- match circle_init_radius args with
                             | Some r => ret r
                             | None => np_uniform 0.01 0.2
                             end;
                do bx <- py_random;
                do by_ <- py_random;
                get_bezier_circle radius (num_segments args) (Some (bx, by_))
            end;
  match norm with
  | None => ret pts
  | Some np =>
      match np !! i with
      | Some c => ret (recenter pts c)
      | None => raise IndexError
      end
  end.

(** The body of the loop over [range(num_paths)] (lines 138-185). *)
Definition new_path (canvas_width canvas_height : nat) (args : Args)
    (num_old_shapes : nat) (norm : option (list (R * R))) (i : nat)
    (acc : list Path * list ShapeGroup) : M (list Path * list ShapeGroup) :=
  let '(shapes, shape_groups) := acc in
  if (num_segments args <? 0)%Z then raise RuntimeError else
  let num_control_points := repeat 2%Z (Z.to_nat (num_segments args)) in
  do pts <- new_points args norm i;
  let pts := scale_to_canvas canvas_width canvas_height pts in
  do pl <- alloc_points pts;
  let path := mkPath num_control_points pl 1 true in
  let shapes := shapes ++ [path] in
  do c0 <- py_random;
  do c1 <- py_random;
  do c2 <- py_random;
  do c3 <- py_random;
  do cl <- alloc_color [c0; c1; c2; c3];
  let path_group := mkShapeGroup [(num_old_shapes + i)%nat] false cl in
  ret (shapes, shape_groups ++ [path_group]).

Definition init_new_paths (num_paths : Z) (canvas_width canvas_height : nat)
    (args : Args) (num_old_shapes : nat) (pixel_loss : option (tensor2 R))
    : M (list Path * list ShapeGroup * list loc * list loc) :=
  let norm := option_map (norm_postion args num_paths) pixel_loss in
  do '(shapes, shape_groups) <-
     for_ (range num_paths)
          (new_path canvas_width canvas_height args num_old_shapes norm) ([], []);
  do _ <- for_ shapes (fun path _ => set_points_grad true (points path)) tt;
  let points_vars := map points shapes in
  do _ <- for_ shape_groups (fun group _ => set_color_grad true (fill_color group)) tt;
  let color_vars := map fill_color shape_groups in
  ret (shapes, shape_groups, points_vars, color_vars).

(** ** The stage loop of [main] *)

(** A [torch.optim.Adam] together with its [CosineAnnealingLR]: the
    parameters it was built over, and the oracle's state. *)
Record optimizer : Type := mkOptimizer
  { params : list loc; ostate : optim_state }.

(** [torch.optim.Adam(params, lr)] refuses an empty parameter list. *)
Definition new_optimizer (ps : list loc) (lr : R) (T_max : Z) (eta_min : R)
    : M optimizer :=
  match ps with
  | [] => raise ValueError
  | _ => ret (mkOptimizer ps (Adam ps lr T_max eta_min))
  end.

(** [optim.step()]: every tensor of the parameter list is overwritten in
    place; no other tensor is touched. *)
Definition step_store {A : Type} (upd : loc -> A -> A) (ps : list loc)
    (st : list (var A)) : list (var A) :=
  fold_left (fun st l => match st !! l with
                         | Some v => <[l := Var (upd l (data v)) (requires_grad v)]> st
                         | None => st
                         end) ps st.

Definition points_step (o : optimizer) (g : grads) : M unit := fun w =>
  Ok (tt, World (py_state w) (np_state w)
                (step_store (adam_points (ostate o) g) (params o) (point_tensors w))
                (color_tensors w)).

Definition color_step (o : optimizer) (g : grads) : M unit := fun w =>
  Ok (tt, World (py_state w) (np_state w)
                (point_tensors w)
                (step_store (adam_color (ostate o) g) (params o) (color_tensors w))).

(** [scheduler.step()] after [optim.step()] *)
Definition scheduler_step (o : optimizer) (g : grads) : optimizer :=
  mkOptimizer (params o) (optim_advance (ostate o) g).

(** [group.fill_color.data.clamp_(0.0, 1.0)] *)
Definition clamp_color (l : loc) : M unit := fun w =>
  Ok (tt, World (py_state w) (np_state w) (point_tensors w)
                (match color_tensors w !! l with
                 | Some v => <[l := Var (map (clamp 0 1) (data v)) (requires_grad v)]>
                               (color_tensors w)
                 | None => color_tensors w
                 end)).

(** The current values of the scene's tensors, as the rasteriser sees them. *)
Definition scene_of (w : world) (shapes : list Path) (shape_groups : list ShapeGroup)
    : scene_args :=
  (map (fun p => mkPathArgs (num_control_points p)
                   (default [] (data <$> point_tensors w !! points p))
                   (stroke_width p) (is_closed p)) shapes,
   map (fun g => mkGroupArgs (shape_ids g) (use_even_odd_rule g)
                   (default [] (data <$> color_tensors w !! fill_color g)))
       shape_groups).

(** [pydiffvg.RenderFunction.serialize_scene] *)
Definition serialize_scene (shapes : list Path) (shape_groups : list ShapeGroup)
    : M scene_args := fun w => Ok (scene_of w shapes shape_groups, w).

(** Whether the rendered image is attached to the autograd graph: some
    parameter of the scene requires a gradient. *)
Definition scene_requires_grad (shapes : list Path) (shape_groups : list ShapeGroup)
    : M bool := fun w =>
  Ok (existsb (fun p => default false (requires_grad <$> point_tensors w !! points p)) shapes
      || existsb (fun g => default false (requires_grad <$> color_tensors w !! fill_color g))
           shape_groups, w).

(** Line 280: composition over a white background. *)
Definition composite (px : rgba) : rgb :=
  let '(r, g, b, a) := px in
  (a * r + 1 * (1 - a), a * g + 1 * (1 - a), a * b + 1 * (1 - a)).

(** [((img-target)**2).sum(dim=1)] at one pixel. *)
Definition sq_err (a b : rgb) : R :=
  let '(a0, a1, a2) := a in
  let '(b0, b1, b2) := b in
  (a0 - b0) ^ 2 + (a1 - b1) ^ 2 + (a2 - b2) ^ 2.

Definition sq_err_map (img target : tensor2 rgb) : tensor2 R :=
  Tensor2 (rows img) (cols img) (fun y x => sq_err (at_ img y x) (at_ target y x)).

(** Line 292: [(loss*loss_weight).sum()] *)
Definition weighted_sum (err : tensor2 R) (lw : weight) : R :=
  match lw with
  | Uniform c =>
      sum_all (Tensor2 (rows err) (cols err) (fun y x => at_ err y x * c))
  | WeightMap m =>
      sum_all (Tensor2 (rows err) (cols err)
                       (fun y x => at_ err y x * at_ (data m) y x))
  end.

(** Lines 278-289: the rendered image over white, as an H x W array of
    colour triples. *)
Definition rendered (canvas_width canvas_height : nat) (t : nat) (scene : scene_args)
    : tensor2 rgb :=
  Tensor2 canvas_height canvas_width
          (fun y x => composite
             (render canvas_width canvas_height (Z.of_nat t) scene y x)).

(** Lines 291-292: the scalar loss of an image. *)
Definition loss_of (img target : tensor2 rgb) (loss_weight : weight) : R :=
  weighted_sum (sq_err_map img target) loss_weight.

(** The variables that the optimisation loop rebinds. *)
Record loop_vars : Type := mkLoopVars
  { lv_img : option (var (tensor2 rgb));
    lv_loss : option R;
    lv_loss_list : list R;
    lv_points_optim : optimizer;
    lv_color_optim : optimizer }.

(** Lines 274-310: one Adam iteration. *)
Definition iteration (canvas_width canvas_height : nat) (target : tensor2 rgb)
    (loss_weight : weight) (shapes : list Path) (shape_groups : list ShapeGroup)
    (t : nat) (v : loop_vars) : M loop_vars :=
  do scene <- serialize_scene shapes shape_groups;
  do attached <- scene_requires_grad shapes shape_groups;
  let img := rendered canvas_width canvas_height t scene in
  let loss := loss_of img target loss_weight in
  let loss_list := lv_loss_list v ++ [loss] in
  let g := backward canvas_width canvas_height (Z.of_nat t) scene target loss_weight in
  do _ <- points_step (lv_points_optim v) g;
  do _ <- color_step (lv_color_optim v) g;
  let points_optim := scheduler_step (lv_points_optim v) g in
  let color_optim := scheduler_step (lv_color_optim v) g in
  do _ <- for_ shape_groups (fun group _ => clamp_color (fill_color group)) tt;
  ret (mkLoopVars (Some (Var img attached)) (Some loss) loss_list
                  points_optim color_optim).

(** Lines 317-324: the residual, its pooled grid and the next weight map. *)
Definition pixel_loss_of (img : var (tensor2 rgb)) (target : tensor2 rgb)
    : var (tensor2 R) :=
  Var (Tensor2 (rows (data img)) (cols (data img))
         (fun y x => sqrt (at_ (sq_err_map (data img) target) y x)))
      (requires_grad img).

Definition region_loss_of (args : Args) (pixel_loss : var (tensor2 R))
    : var (tensor2 R) :=
  Var (adaptive_avg_pool2d (data pixel_loss)
         (Z.to_nat (pool_size args)) (Z.to_nat (pool_size args)))
      (requires_grad pixel_loss).

(** [t.clone().detach()] *)
Definition detach {A : Type} (t : var A) : var A := Var (data t) false.

Definition loss_weight_of (canvas_width canvas_height : nat)
    (region_loss : var (tensor2 R)) : var (tensor2 R) :=
  let loss_weight :=
    Var (reshape_as (softmax (flatten (data region_loss))) (data region_loss))
        (requires_grad region_loss) in
  let loss_weight :=
    Var (interpolate_area (data loss_weight) canvas_height canvas_width)
        (requires_grad loss_weight) in
  let loss_weight :=
    Var (div_scalar (data loss_weight) (sum_all (data loss_weight)))
        (requires_grad loss_weight) in
  detach loss_weight.

(** The variables of [main] that live across stages. *)
Record locals : Type := mkLocals
  { old_shapes : list Path;
    old_shape_groups : list ShapeGroup;
    region_loss : option (var (tensor2 R));
    loss_weight : weight;
    loss_matrix : list (list R);
    img : option (var (tensor2 rgb));
    loss : option R }.

(** Lines 244-256: which earlier parameters join the optimisers. *)
Definition old_vars (args : Args) (s : locals) : M (list loc * list loc) :=
  if (0 <? length (old_shapes s))%nat then
    do old_points_vars <-
       for_ (old_shapes s)
            (fun old_path acc =>
               if free args
               then do _ <- set_points_grad true (points old_path);
                    ret (acc ++ [points old_path])
               else do _ <- set_points_grad false (points old_path);
                    ret acc) [];
    do old_color_vars <-
       for_ (old_shape_groups s)
            (fun old_group acc =>
               if free args
               then do _ <- set_color_grad true (fill_color old_group);
                    ret (acc ++ [fill_color old_group])
               else do _ <- set_color_grad false (fill_color old_group);
                    ret acc) [];
    ret (old_points_vars, old_color_vars)
  else ret ([], []).

(** The optimisation loop of one stage (lines 265-310), given the scene
    and the parameter lists. *)
Definition optimize (args : Args) (target : tensor2 rgb)
    (canvas_width canvas_height : nat) (loss_weight : weight)
    (shapes : list Path) (shape_groups : list ShapeGroup)
    (points_vars color_vars : list loc) (s : locals) : M loop_vars :=
  do points_optim <- new_optimizer points_vars 1 (num_iter args) 0.1;
  do color_optim <- new_optimizer color_vars 0.01 (num_iter args) 0.001;
  for_ (range (num_iter args))
       (iteration canvas_width canvas_height target loss_weight shapes shape_groups)
       (mkLoopVars (img s) (loss s) [] points_optim color_optim).

(** Lines 240-266: the new shapes, the trainability of the old ones, and
    the concatenated scene and parameter lists. *)
Definition setup_stage (args : Args) (canvas_width canvas_height : nat)
    (num_paths : Z) (s : locals)
    : M (list Path * list ShapeGroup * list loc * list loc) :=
  do '(shapes, shape_groups, points_vars, color_vars) <-
     init_new_paths num_paths canvas_width canvas_height args
                    (length (old_shapes s)) (option_map data (region_loss s));
  do '(old_points_vars, old_color_vars) <- old_vars args s;
  let shapes := old_shapes s ++ shapes in
  let shape_groups := old_shape_groups s ++ shape_groups in
  let points_vars := old_points_vars ++ points_vars in
  let color_vars := old_color_vars ++ color_vars in
  ret (shapes, shape_groups, points_vars, color_vars).

(** Lines 312-324: what a stage leaves for the next one. *)
Definition finish_stage (args : Args) (target : tensor2 rgb)
    (canvas_width canvas_height : nat) (s : locals)
    (shapes : list Path) (shape_groups : list ShapeGroup) (v : loop_vars)
    : M locals :=
  let loss_matrix := loss_matrix s ++ [lv_loss_list v] in
  do img <- match lv_img v with
            | Some i => ret i
            | None => raise NameError
            end;
  let pixel_loss := pixel_loss_of img target in
  let region_loss := region_loss_of args pixel_loss in
  let loss_weight := loss_weight_of canvas_width canvas_height region_loss in
  ret (mkLocals shapes shape_groups (Some region_loss) (WeightMap loss_weight)
                loss_matrix (Some img) (lv_loss v)).

(** The body of [for num_paths in num_paths_list] (lines 236-324). *)
Definition stage (args : Args) (target : tensor2 rgb)
    (canvas_width canvas_height : nat) (num_paths : Z) (s : locals) : M locals :=
  do '(shapes, shape_groups, points_vars, color_vars) <-
     setup_stage args canvas_width canvas_height num_paths s;
  do v <- optimize args target canvas_width canvas_height (loss_weight s)
            shapes shape_groups points_vars color_vars s;
  finish_stage args target canvas_width canvas_height s shapes shape_groups v.

(** The state of [main] before the first stage (lines 229-234). *)
Definition init_locals (canvas_width canvas_height : nat) : M locals :=
  if (canvas_width * canvas_height =? 0)%nat then raise ZeroDivisionError
  else ret (mkLocals [] [] None
                     (Uniform (1 / INR (canvas_width * canvas_height)))
                     [] None None).

(** [main], from the parsed arguments ([num_paths_list] is
    [args.num_paths] split on commas) and the loaded target.  Line 225
    seeds Python's [random]; line 226 seeds torch's generator, which the
    code embedded here never draws from; NumPy's generator is not seeded. *)
Definition main (args : Args) (num_paths_list : list Z) (target : tensor2 rgb)
    : M locals :=
  let canvas_width := cols target in
  let canvas_height := rows target in
  do _ <- py_seed 1234;
  do s0 <- init_locals canvas_width canvas_height;
  do s <- for_ num_paths_list (stage args target canvas_width canvas_height) s0;
  match loss s with
  | Some _ => ret s
  | None => raise NameError
  end.

End Controller.

(** ** Hoare-style reading of monadic code *)

(** Partial correctness: if [m] returns from [w], the result satisfies [Q]. *)
Definition wp `{B : Backend} {A : Type} (m : M A) (Q : A -> world -> Prop)
    (w : world) : Prop :=
  match m w with
  | Ok (a, w') => Q a w'
  | Raise _ => True
  end.

(** Total correctness: [m] returns from [w], and the result satisfies [Q]. *)
Definition total `{B : Backend} {A : Type} (m : M A) (Q : A -> world -> Prop)
    (w : world) : Prop :=
  exists a w', m w = Ok (a, w') /\ Q a w'.

(** ** Vocabulary of the statements *)

(** A computation that only draws random numbers leaves both stores alone. *)
Definition rng_only `{B : Backend} {A : Type} (m : M A) : Prop :=
  forall w, wp m (fun _ w' => point_tensors w' = point_tensors w
                              /\ color_tensors w' = color_tensors w) w.

(** The values held by the two stores, without the autograd flags. *)
Definition pdata `{B : Backend} (w : world) : list (list (R * R)) :=
  map data (point_tensors w).
Definition cdata `{B : Backend} (w : world) : list (list R) :=
  map data (color_tensors w).

(** How the points [pts] of the [i]-th new shape come from the points
    [raw] of its initialisation mode: re-centred on the [i]-th selected
    cell when there is an error map. *)
Definition placed (norm : option (list (R * R))) (i : nat)
    (raw pts : list (R * R)) : Prop :=
  match norm with
  | None => pts = raw
  | Some np => exists c, np !! i = Some c /\ pts = recenter raw c
  end.

(** The [i]-th path and group made by one call, given the sizes of the
    stores at the call. *)
Definition path_at (n : Z) (base i : nat) : Path :=
  mkPath (repeat 2%Z (Z.to_nat n)) (base + i) 1%R true.
Definition group_at (num_old_shapes base i : nat) : ShapeGroup :=
  mkShapeGroup [(num_old_shapes + i)%nat] false (base + i).

Definition init_post `{B : Backend} (num_paths : Z) (canvas_width canvas_height : nat)
    (args : Args) (num_old_shapes : nat) (norm : option (list (R * R))) (w : world)
    (r : list Path * list ShapeGroup * list loc * list loc) (w' : world) : Prop :=
  let '(shapes, shape_groups, points_vars, color_vars) := r in
  exists (PTS : list (list (R * R))) (CS : list (list R)),
    pdata w' = pdata w ++ PTS /\
    cdata w' = cdata w ++ CS /\
    shapes = imap (fun i _ => path_at (num_segments args) (length (pdata w)) i) PTS /\
    shape_groups = imap (fun i _ => group_at num_old_shapes (length (cdata w)) i) CS /\
    points_vars = map points shapes /\
    color_vars = map fill_color shape_groups /\
    length PTS = Z.to_nat num_paths /\
    length CS = Z.to_nat num_paths /\
    Forall (fun c => length c = 4%nat) CS /\
    forall i pts, PTS !! i = Some pts ->
      exists raw pre,
        ((1 <= num_segments args)%Z -> length raw = (3 * Z.to_nat (num_segments args))%nat) /\
        placed norm i raw pre /\
        pts = scale_to_canvas canvas_width canvas_height pre.

(** ** Reference sorts and a concrete backend

    Two insertion sorts by descending value that differ only on equal
    values: with [strict = false] equal values keep ascending index order
    (a stable sort); with [strict = true] they come out in descending index
    order.  Both meet the contract of [torch.sort]. *)

Definition goes_before (strict : bool) (vi vj : R) : bool :=
  if strict then (if Rlt_dec vj vi then true else false)
  else (if Rle_dec vj vi then true else false).

Fixpoint sort_insert (strict : bool) (x : list R) (i : nat) (acc : list nat)
    : list nat :=
  match acc with
  | [] => [i]
  | j :: acc' =>
      if goes_before strict (nth i x 0%R) (nth j x 0%R)
      then i :: j :: acc'
      else j :: sort_insert strict x i acc'
  end.

Definition sort_indices (strict : bool) (x : list R) : list nat :=
  fold_right (sort_insert strict x) [] (seq 0 (length x)).

(** The selection as the specification words it: the [k] cells with the
    highest values, equal values taken in ascending flattened index. *)
Definition spec_topk (k : nat) (x : list R) : list nat :=
  firstn k (sort_indices false x).

(** A rasteriser whose every pixel is the x coordinate of the first
    control point of the first shape, fully opaque. *)
Definition demo_render (cw ch : nat) (t : Z) (scene : scene_args) (y x : nat) : rgba :=
  let v := match fst scene with
           | p :: _ => match pa_points p with
                       | q :: _ => fst q
                       | [] => 0%R
                       end
           | [] => 0%R
           end in
  (v, v, v, 1%R).

(** Counters as generator states, and an optimiser that moves every
    point by its learning rate and pushes every colour channel up by one. *)
Definition demo_backend (strict : bool) : Backend :=
  {| py_rng := nat;
     random_seed := Z.to_nat;
     random_random := fun s => ((INR (s mod 8) / 8)%R, S s);
     np_rng := nat;
     np_random_uniform := fun lo hi s => ((lo + (hi - lo) * (INR (s mod 4) / 4))%R, S s);
     torch_sort_descending := sort_indices strict;
     render := demo_render;
     grads := unit;
     backward := fun _ _ _ _ _ _ => tt;
     optim_state := R;
     Adam := fun _ lr _ _ => lr;
     adam_points := fun lr _ _ v => map (fun q => ((fst q - lr)%R, (snd q - lr)%R)) v;
     adam_color := fun _ _ _ c => map (fun x => (x + 1)%R) c;
     optim_advance := fun st _ => st |}.

Definition demo_world (np : nat) : @world (demo_backend false) :=
  @World (demo_backend false) 0%nat np [] [].

(** Arguments used in the examples: two segments per shape, one
    iteration per stage, a 2 x 2 pooled grid. *)
Definition demo_args (mode : initial_mode) (fr : bool) (radius : option R) : Args :=
  mkArgs 2 1 fr 2 mode radius.

(** The only exceptions a computation may raise from [w]. *)
Definition raises_only `{B : Backend} {A : Type} (E : exn -> Prop) (m : M A)
    (w : world) : Prop :=
  match m w with
  | Ok _ => True
  | Raise e => E e
  end.

(** A zero 2 x 2 residual grid, a black 4 x 4 target, and the variables of
    [main] as a first stage could leave them. *)
Definition demo_grid : tensor2 R := Tensor2 2 2 (fun _ _ => 0%R).
Definition demo_target : tensor2 rgb := Tensor2 4 4 (fun _ _ => (0%R, 0%R, 0%R)).
Definition demo_locals : locals :=
  mkLocals [] [] (Some (Var demo_grid false)) (Uniform 1%R) [] None None.

(** A colour channel inside the unit interval. *)
Definition in_unit (x : R) : Prop := (0 <= x <= 1)%R.

(** The states of [main] at the head of its stage loop: after the
    initialisation, and after each stage that returned. *)
Inductive reachable `{B : Backend} (args : Args) (target : tensor2 rgb)
    : locals -> world -> Prop :=
  | reach_init w0 s w :
      bind (py_seed 1234) (fun _ => init_locals (cols target) (rows target)) w0
      = Ok (s, w) ->
      point_tensors w0 = [] -> color_tensors w0 = [] ->
      reachable args target s w
  | reach_stage s w k s' w' :
      reachable args target s w ->
      stage args target (cols target) (rows target) k s w = Ok (s', w') ->
      reachable args target s' w'.

(** What holds of the scene at the head of the stage loop. *)
Definition scene_inv `{B : Backend} (args : Args) (s : locals) (w : world) : Prop :=
  length (old_shape_groups s) = length (old_shapes s) /\
  (forall i p, old_shapes s !! i = Some p -> (points p < length (pdata w))%nat) /\
  (forall i g, old_shape_groups s !! i = Some g ->
     shape_ids g = [i] /\
     exists c, cdata w !! fill_color g = Some c /\ Forall in_unit c) /\
  ((num_iter args <= 0)%Z -> img s = None) /\
  (forall im, img s = Some im -> region_loss s <> None).

(** What one Adam iteration does, from the loop variables [v] and the
    world [w] it starts in. *)
Definition iteration_post `{B : Backend} (cw ch : nat) (target : tensor2 rgb)
    (lw : weight) (shapes : list Path) (groups : list ShapeGroup) (t : nat)
    (v : loop_vars) (w : world) (v' : loop_vars) (w' : world) : Prop :=
  let im := rendered cw ch t (scene_of w shapes groups) in
  length (pdata w') = length (pdata w) /\
  length (cdata w') = length (cdata w) /\
  (forall l, ~ In l (params (lv_points_optim v)) -> pdata w' !! l = pdata w !! l) /\
  (forall l c, ~ In l (params (lv_color_optim v)) ->
               cdata w !! l = Some c -> Forall in_unit c -> cdata w' !! l = Some c) /\
  (forall g, In g groups -> (fill_color g < length (cdata w))%nat ->
             exists c, cdata w' !! fill_color g = Some c /\ Forall in_unit c) /\
  lv_loss_list v' = lv_loss_list v ++ [loss_of im target lw] /\
  (exists b, lv_img v' = Some (Var im b)) /\
  lv_loss v' = Some (loss_of im target lw) /\
  params (lv_points_optim v') = params (lv_points_optim v) /\
  params (lv_color_optim v') = params (lv_color_optim v).

(** The scene and the parameter lists that [setup_stage] hands to the
    optimisers: the old scene followed by the new shapes, and the old
    parameters only in free mode. *)
Definition setup_post `{B : Backend} (args : Args) (cw ch : nat) (k : Z)
    (s : locals) (w : world)
    (r : list Path * list ShapeGroup * list loc * list loc) (w1 : world) : Prop :=
  let '(shapes, groups, pv, cv) := r in
  exists new_shapes new_groups npv ncv,
    init_post k cw ch args (length (old_shapes s))
              (option_map (norm_postion args k) (option_map data (region_loss s)))
              w (new_shapes, new_groups, npv, ncv) w1 /\
    shapes = old_shapes s ++ new_shapes /\
    groups = old_shape_groups s ++ new_groups /\
    pv = (if free args then map points (old_shapes s) else []) ++ npv /\
    cv = (if (0 <? length (old_shapes s))%nat && free args
          then map fill_color (old_shape_groups s) else []) ++ ncv.

(** What [n] iterations of the optimisation loop do, from [v0] and [w1]. *)
Definition loop_post `{B : Backend} (cw ch : nat) (groups : list ShapeGroup) (n : nat)
    (v0 : loop_vars) (w1 : world) (v : loop_vars) (w2 : world) : Prop :=
  length (pdata w2) = length (pdata w1) /\
  length (cdata w2) = length (cdata w1) /\
  (forall l, ~ In l (params (lv_points_optim v0)) -> pdata w2 !! l = pdata w1 !! l) /\
  (forall l c, ~ In l (params (lv_color_optim v0)) ->
               cdata w1 !! l = Some c -> Forall in_unit c -> cdata w2 !! l = Some c) /\
  ((0 < n)%nat -> forall g, In g groups -> (fill_color g < length (cdata w1))%nat ->
                  exists c, cdata w2 !! fill_color g = Some c /\ Forall in_unit c) /\
  (exists suffix, lv_loss_list v = lv_loss_list v0 ++ suffix /\ length suffix = n) /\
  ((0 < n)%nat -> exists im, lv_img v = Some im /\ rows (data im) = ch
                             /\ cols (data im) = cw) /\
  ((0 < n)%nat -> lv_loss v <> None) /\
  (n = 0%nat -> v = v0) /\
  params (lv_points_optim v) = params (lv_points_optim v0) /\
  params (lv_color_optim v) = params (lv_color_optim v0).

(** The loop variables when the optimisation loop of a stage starts. *)
Definition initial_loop_vars `{B : Backend} (args : Args) (s : locals)
    (pv cv : list loc) : loop_vars :=
  mkLoopVars (img s) (loss s) []
             (mkOptimizer pv (Adam pv 1 (num_iter args) 0.1))
             (mkOptimizer cv (Adam cv 0.01 (num_iter args) 0.001)).

(** [main] on the black target, just before its first stage. *)
Definition demo_locals0 : locals :=
  mkLocals [] [] None (Uniform (1 / INR (4 * 4))%R) [] None None.
Definition demo_world0 (np : nat) : @world (demo_backend false) :=
  @World (demo_backend false) (Z.to_nat 1234) np [] [].

(** The backend of the examples. *)
Definition demo : Backend := demo_backend false.

(** A backend like [demo] whose rasteriser paints every pixel opaque with
    red one half. *)
Definition half_backend : Backend :=
  {| py_rng := nat;
     random_seed := Z.to_nat;
     random_random := fun s => ((INR (s mod 8) / 8)%R, S s);
     np_rng := nat;
     np_random_uniform := fun lo hi s => ((lo + (hi - lo) * (INR (s mod 4) / 4))%R, S s);
     torch_sort_descending := sort_indices false;
     render := fun _ _ _ _ _ _ => ((1 / 2)%R, 0%R, 0%R, 1%R);
     grads := unit;
     backward := fun _ _ _ _ _ _ => tt;
     optim_state := R;
     Adam := fun _ lr _ _ => lr;
     adam_points := fun lr _ _ v => map (fun q => ((fst q - lr)%R, (snd q - lr)%R)) v;
     adam_color := fun _ _ _ c => map (fun x => (x + 1)%R) c;
     optim_advance := fun st _ => st |}.

(** A black target of one pixel, and [main] just before its first stage
    on it. *)
Definition unit_target : tensor2 rgb := Tensor2 1 1 (fun _ _ => (0%R, 0%R, 0%R)).
Definition unit_args (mode : initial_mode) : Args := mkArgs 2 1 false 1 mode None.
Definition unit_locals0 : locals :=
  mkLocals [] [] None (Uniform (1 / INR (1 * 1))%R) [] None None.

(** The loss trajectories of a run of [main], if it returns. *)
Definition loss_trajectories `{B : Backend} (args : Args) (num_paths_list : list Z)
    (target : tensor2 rgb) (w0 : world) : option (list (list R)) :=
  match main args num_paths_list target w0 with
  | Ok (s, _) => Some (loss_matrix s)
  | Raise _ => None
  end.

(** The same world with another NumPy generator state. *)
Definition set_np `{B : Backend} (np : np_rng) (w : world) : world :=
  World (py_state w) np (point_tensors w) (color_tensors w).

(** A computation that neither reads nor writes the NumPy generator. *)
Definition np_blind `{B : Backend} {A : Type} (m : M A) : Prop :=
  forall w np,
    m (set_np np w) = match m w with
                      | Ok (a, w') => Ok (a, set_np np w')
                      | Raise e => Raise e
                      end.

(** [random.random()] returns a number in the half-open unit interval. *)
Class RandomLaws (B : Backend) : Prop := mkRandomLaws
  { random_random_range : forall s : py_rng,
      (0 <= fst (random_random s) < 1)%R }.

(** Consecutive points of a list are at most [d] apart in each coordinate. *)
Definition chain (d : R) (pts : list (R * R)) : Prop :=
  forall i p q, pts !! i = Some p -> pts !! S i = Some q ->
    (Rabs (fst q - fst p) <= d)%R /\ (Rabs (snd q - snd p) <= d)%R.

(** A loss weight that is positive on the canvas of [target]. *)
Definition weight_positive (target : tensor2 rgb) (lw : weight) : Prop :=
  match lw with
  | Uniform c => (0 < c)%R
  | WeightMap m =>
      forall y x, (y < rows target)%nat -> (x < cols target)%nat ->
                  (0 < at_ (data m) y x)%R
  end.

(** [sum(num_paths_list)] *)
Definition Zsum (l : list Z) : Z := fold_right Z.add 0%Z l.

(** Every shape and every group of the scene owns the tensor at its own
    position in the store, and the stores hold nothing else. *)
Definition store_dense `{B : Backend} (shapes : list Path) (groups : list ShapeGroup)
    (w : world) : Prop :=
  length (pdata w) = length shapes /\
  length (cdata w) = length groups /\
  (forall i p, shapes !! i = Some p -> points p = i) /\
  (forall i g, groups !! i = Some g -> fill_color g = i).

(** * The helpers of [VAE/utils.py]

    Times and meter values are floats in the source and exact reals here;
    counts are integers. *)

Module Utils.

Import String.StringSyntax.
Local Open Scope string_scope.
Local Open Scope Z_scope.
Local Infix "+++" := String.append (at level 60, right associativity).

(** [int(x)] of a float: truncation towards zero. *)
Definition py_int (x : R) : Z :=
  if Rle_dec 0 x then Int_part x else - Int_part (- x).

(** [str(n)] of an int. *)
Definition str (n : Z) : String.string :=
  DecimalString.NilZero.string_of_int (Z.to_int n).

(** [format_time], lines 112-120: the five fields. *)
Record time_fields : Type := mkTimeFields
  { days : Z; hours : Z; minutes : Z; secondsf : Z; millis : Z }.

Definition split_seconds (seconds : R) : time_fields :=
  let days := py_int (seconds / 3600 / 24) in
  let seconds := (seconds - IZR days * 3600 * 24)%R in
  let hours := py_int (seconds / 3600) in
  let seconds := (seconds - IZR hours * 3600)%R in
  let minutes := py_int (seconds / 60) in
  let seconds := (seconds - IZR minutes * 60)%R in
  let secondsf := py_int seconds in
  let seconds := (seconds - IZR secondsf)%R in
  let millis := py_int (seconds * 1000) in
  mkTimeFields days hours minutes secondsf millis.

(** [format_time], lines 122-141: the text. *)
Definition join_fields (p : time_fields) : String.string :=
  let f := "" in
  let i := 1 in
  let '(f, i) := if 0 <? days p then (f +++ (str (days p) +++ "D"), i + 1)
                 else (f, i) in
  let '(f, i) := if (0 <? hours p) && (i <=? 2)
                 then (f +++ (str (hours p) +++ "h"), i + 1) else (f, i) in
  let '(f, i) := if (0 <? minutes p) && (i <=? 2)
                 then (f +++ (str (minutes p) +++ "m"), i + 1) else (f, i) in
  let '(f, i) := if (0 <? secondsf p) && (i <=? 2)
                 then (f +++ (str (secondsf p) +++ "s"), i + 1) else (f, i) in
  let '(f, i) := if (0 <? millis p) && (i <=? 2)
                 then (f +++ (str (millis p) +++ "ms"), i + 1) else (f, i) in
  if String.eqb f "" then "0ms" else f.

Definition format_time (seconds : R) : String.string :=
  join_fields (split_seconds seconds).

(** The module globals [last_time] and [begin_time], the clock read by
    [time.time()] as a sequence of readings, and what was written to
    [sys.stdout]. *)
Record console : Type := mkConsole
  { last_time : R; begin_time : R; clock : nat -> R; reads : nat;
    stdout : String.string }.

Definition time_time (c : console) : R * console :=
  (clock c (reads c),
   mkConsole (last_time c) (begin_time c) (clock c) (S (reads c)) (stdout c)).

Definition write (x : String.string) (c : console) : console :=
  mkConsole (last_time c) (begin_time c) (clock c) (reads c) (stdout c +++ x).

(** [for i in range(n): sys.stdout.write(x)] *)
Definition write_times (n : Z) (x : String.string) (c : console) : console :=
  fold_left (fun c _ => write x c) (range n) c.

(** ['x' * n] *)
Fixpoint repeat_string (n : nat) (x : String.string) : String.string :=
  match n with
  | O => ""
  | S n' => x +++ repeat_string n' x
  end.

Definition TOTAL_BAR_LENGTH : R := 65.

Definition carriage_return : String.string :=
  String.String (Ascii.ascii_of_nat 13) String.EmptyString.
Definition newline : String.string :=
  String.String (Ascii.ascii_of_nat 10) String.EmptyString.

(** [progress_bar(current, total, msg)], lines 67-108. *)
Definition progress_bar (current total : Z) (msg : option String.string)
    (c : console) : result console :=
  let c := if current =? 0
           then let '(t, c) := time_time c in
                mkConsole (last_time c) t (clock c) (reads c) (stdout c)
           else c in
  if total =? 0 then Raise ZeroDivisionError
  else
    let cur_len := py_int (TOTAL_BAR_LENGTH * IZR current / IZR total) in
    let rest_len := py_int (TOTAL_BAR_LENGTH - IZR cur_len) - 1 in
    let c := write " [" c in
    let c := write_times cur_len "=" c in
    let c := write ">" c in
    let c := write_times rest_len "." c in
    let c := write "]" c in
    let '(cur_time, c) := time_time c in
    let step_time := (cur_time - last_time c)%R in
    let c := mkConsole cur_time (begin_time c) (clock c) (reads c) (stdout c) in
    let tot_time := (cur_time - begin_time c)%R in
    let L := "  Step: " +++ format_time step_time in
    let L := L +++ (" | Tot: " +++ format_time tot_time) in
    let L := match msg with
             | Some m => if String.eqb m "" then L else L +++ (" | " +++ m)
             | None => L
             end in
    let c := write L c in
    let c := write (" " +++ str (current + 1) +++ "/" +++ str total +++ " ") c in
    let c := if current <? total - 1 then write carriage_return c
             else write newline c in
    Ok c.

(** [AverageMeter]: the fields that [reset] and [update] touch. *)
Record AverageMeter : Type := mkMeter
  { val : R; avg : R; sum : R; count : Z }.

Definition reset : AverageMeter := mkMeter 0 0 0 0.

Definition update (m : AverageMeter) (v : R) (n : Z) : result AverageMeter :=
  let sum := (sum m + v * IZR n)%R in
  let count := count m + n in
  if count =? 0 then Raise ZeroDivisionError
  else Ok (mkMeter v (sum / IZR count) sum count).

(** A sequence of calls [update(v, n)] on one meter. *)
Fixpoint updates (m : AverageMeter) (l : list (R * Z)) : result AverageMeter :=
  match l with
  | [] => Ok m
  | (v, n) :: l' =>
      match update m v n with
      | Ok m' => updates m' l'
      | Raise e => Raise e
      end
  end.

End Utils.

(** * The training loop of [pair/fashionmnist/main.py]

    The network, the optimiser step and the loss of a batch are oracles;
    the loop is the code's. *)

Module FashionMnist.

(** A float that may be [float("inf")]. *)
Inductive bound : Type :=
  | Inf
  | Fin (r : R).

(** [x < b] *)
Definition below (x : R) (b : bound) : bool :=
  match b with
  | Inf => true
  | Fin r => if Rlt_dec x r then true else false
  end.

(** What [save_model] is given for one epoch. *)
Record checkpoint : Type := mkCheckpoint
  { ck_epoch : Z; ck_is_best : bool; ck_best_test_loss : bound; ck_test_loss : R }.

Section Training.

Context {net batch : Type}.
(** Lines 159-164: one optimiser step on a batch, and [loss.item()]. *)
Variable train_step : net -> batch -> net * R.
(** Lines 181-183: [criterion(net(data), data).item()] without a step. *)
Variable eval_loss : net -> batch -> R.
(** [float("%.3f" % x)] *)
Variable round3 : R -> R.

(** [enumerate(loader)] *)
Definition enumerate {A : Type} (l : list A) : list (nat * A) :=
  combine (seq 0 (length l)) l.

(** [train], lines 153-172; the periodic print is left out. *)
Definition train (n : net) (trainloader : list batch) : result (net * R) :=
  let '(n, train_loss, batch_idx) :=
    fold_left (fun '(n, train_loss, _) '(batch_idx, b) =>
                 let '(n, loss) := train_step n b in
                 (n, (train_loss + loss)%R, Some batch_idx))
              (enumerate trainloader) (n, 0%R, None) in
  match batch_idx with
  | None => Raise NameError
  | Some batch_idx => Ok (n, round3 (train_loss / INR (batch_idx + 1)))
  end.

(** [validate], lines 175-186. *)
Definition validate (n : net) (testloader : list batch) : result R :=
  let '(test_loss, batch_idx) :=
    fold_left (fun '(test_loss, _) '(batch_idx, b) =>
                 ((test_loss + eval_loss n b)%R, Some batch_idx))
              (enumerate testloader) (0%R, None) in
  match batch_idx with
  | None => Raise NameError
  | Some batch_idx => Ok (round3 (test_loss / INR (batch_idx + 1)))
  end.

(** The variables that the epoch loop of [main] rebinds, and the
    checkpoints it has saved. *)
Record epoch_vars : Type := mkEpochVars
  { ev_net : net; best_test_loss : bound; saved : list checkpoint }.

(** One epoch, lines 130-148. *)
Definition epoch_body (train_loader test_loader : list batch) (epoch : Z)
    (v : epoch_vars) : result epoch_vars :=
  match train (ev_net v) train_loader with
  | Raise e => Raise e
  | Ok (n, train_out) =>
      match validate n test_loader with
      | Raise e => Raise e
      | Ok test_out =>
          let '(best_test_loss, is_best) :=
            if below test_out (best_test_loss v) then (Fin test_out, true)
            else (best_test_loss v, false) in
          Ok (mkEpochVars n best_test_loss
                (saved v ++ [mkCheckpoint epoch is_best best_test_loss test_out]))
      end
  end.

(** [range(start, stop)] *)
Definition range_from (start stop : Z) : list Z :=
  map (fun i => (start + Z.of_nat i)%Z) (range (stop - start)).

Fixpoint epochs (train_loader test_loader : list batch) (l : list Z)
    (v : epoch_vars) : result epoch_vars :=
  match l with
  | [] => Ok v
  | epoch :: l' =>
      match epoch_body train_loader test_loader epoch v with
      | Ok v' => epochs train_loader test_loader l' v'
      | Raise e => Raise e
      end
  end.

(** The epoch loop of [main], lines 129-148, from the network and the
    best loss that line 97 or the resumed checkpoint gives. *)
Definition epoch_loop (train_loader test_loader : list batch)
    (start_epoch epoch : Z) (n : net) (best : bound) : result epoch_vars :=
  epochs train_loader test_loader (range_from start_epoch epoch)
         (mkEpochVars n best []).

(** The optimiser steps of one pass over the loader: the network after
    them and the batch losses on the way. *)
Fixpoint steps (n : net) (loader : list batch) : net * list R :=
  match loader with
  | [] => (n, [])
  | b :: loader' =>
      let '(n', loss) := train_step n b in
      let '(n'', losses) := steps n' loader' in
      (n'', loss :: losses)
  end.

End Training.

(** [b <= x] for a loss [x]. *)
Definition at_most (b : bound) (x : R) : Prop :=
  match b with
  | Inf => False
  | Fin r => (r <= x)%R
  end.

(** [b <= b'] *)
Definition bound_le (b b' : bound) : Prop :=
  match b' with
  | Inf => True
  | Fin r => at_most b r
  end.

(** The best loss before epoch number [i] of a run that started from
    [best0] and saved [cks]. *)
Definition best_before (best0 : bound) (cks : list checkpoint) (i : nat) : bound :=
  match i with
  | O => best0
  | S j => match cks !! j with
           | Some c => ck_best_test_loss c
           | None => best0
           end
  end.

(** What the epoch loop keeps true of the checkpoints saved so far. *)
Definition checkpoints_ok (best0 : bound) (cks : list checkpoint) : Prop :=
  forall i ck, cks !! i = Some ck ->
    let prev := best_before best0 cks i in
    ck_is_best ck = below (ck_test_loss ck) prev /\
    ck_best_test_loss ck
    = (if ck_is_best ck then Fin (ck_test_loss ck) else prev) /\
    bound_le (ck_best_test_loss ck) best0 /\
    forall j cj, (j <= i)%nat -> cks !! j = Some cj ->
                 at_most (ck_best_test_loss ck) (ck_test_loss cj).

End FashionMnist.

(** * Image loading, and [pair/optimization/myopt.py] *)

Module Images.

(** What [skimage.io.imread] returns: the bytes of a grey image
    (height x width) or of a colour image (height x width x channels). *)
Inductive ndarray : Type :=
  | Grey (h w : nat) (px : nat -> nat -> Z)
  | Colour (h w c : nat) (px : nat -> nat -> nat -> Z).

(** A float tensor in NCHW layout with N = 1. *)
Record nchw : Type := mkNchw
  { channels : nat; height : nat; width : nat; value : nat -> nat -> nat -> R }.

Definition gamma : R := 1.

(** [x.pow(g)] on a non-negative entry. *)
Definition pow_float (x g : R) : R :=
  if Req_dec_T x 0 then (if Req_dec_T g 0 then 1%R else 0%R) else Rpower x g.

(** [a[:, :, :3]] *)
Definition drop_alpha {A : Type} (c : nat) (px : nat -> nat -> nat -> A)
    : nat * (nat -> nat -> nat -> A) :=
  (Nat.min 3 c, px).

(** [t.pow(gamma)], [unsqueeze(0)] and [permute(0, 3, 1, 2)]: HWC to NCHW. *)
Definition to_nchw (h w c : nat) (px : nat -> nat -> nat -> R) : nchw :=
  mkNchw c h w (fun ch y x => pow_float (px y x ch) gamma).

(** [load_image] of [evenodd.py], lines 107-116: the division comes
    first, the shape test reads the float tensor. *)
Definition load_image (img : ndarray) : result nchw :=
  match img with
  | Grey h w px => Raise IndexError
  | Colour h w c px =>
      let target := fun y x ch => (IZR (px y x ch) / 255)%R in
      let '(c, target) := if (c =? 4)%nat then drop_alpha c target else (c, target) in
      Ok (to_nchw h w c target)
  end.

End Images.

Module MyOpt.

Import Images.

(** [load_img], lines 21-35: the shape test and the slice are on the
    bytes, the division comes after. *)
Definition load_img (img_data : ndarray) : result nchw :=
  match img_data with
  | Grey h w px => Raise IndexError
  | Colour h w c px =>
      let '(c, px) := if (c =? 4)%nat then drop_alpha c px else (c, px) in
      let target := fun y x ch => (IZR (px y x ch) / 255)%R in
      Ok (to_nchw h w c target)
  end.

(** The body of the loop of [get_shapes_groups], lines 50-62.
    [points_vars[i]] and [color_vars[i]] are views of row [i] of the two
    parameters, of [n_points] and [n_colors] rows; [even_odd] is the
    default of [pydiffvg.ShapeGroup]. *)
Definition add_shape (num_segments : Z) (even_odd : bool) (n_points n_colors : nat)
    (i : nat) (acc : list Path * list ShapeGroup)
    : result (list Path * list ShapeGroup) :=
  let '(shapes, shape_groups) := acc in
  if (num_segments <? 0)%Z then Raise RuntimeError else
  let num_control_points := repeat 2%Z (Z.to_nat num_segments) in
  if (n_points <=? i)%nat then Raise IndexError else
  let path := mkPath num_control_points i 1 true in
  let shapes := shapes ++ [path] in
  if (n_colors <=? i)%nat then Raise IndexError else
  let path_group := mkShapeGroup [(length shapes - 1)%nat] even_odd i in
  Ok (shapes, shape_groups ++ [path_group]).

Fixpoint for_each {A S : Type} (l : list A) (body : A -> S -> result S) (s : S)
    : result S :=
  match l with
  | [] => Ok s
  | x :: l' => match body x s with
               | Ok s' => for_each l' body s'
               | Raise e => Raise e
               end
  end.

(** [get_shapes_groups], lines 46-63; [args.num_segments] is a global. *)
Definition get_shapes_groups (num_segments : Z) (even_odd : bool)
    (num_paths : Z) (n_points n_colors : nat)
    : result (list Path * list ShapeGroup) :=
  for_each (range num_paths) (add_shape num_segments even_odd n_points n_colors)
           ([], []).

(** Channel [c] of a colour triple. *)
Definition channel (c : nat) (p : rgb) : R :=
  let '(r, g, b) := p in
  match c with
  | O => r
  | S O => g
  | _ => b
  end.

(** [F.mse_loss(img, target)], line 106, on two 1 x 3 x H x W tensors of
    one shape: the mean of the squared differences of all entries. *)
Definition mse_loss (img target : tensor2 rgb) : R :=
  (Rsum (flat_map (fun c =>
           flatten (Tensor2 (rows img) (cols img)
                      (fun y x => (channel c (at_ img y x)
                                   - channel c (at_ target y x)) ^ 2)%R))
           (seq 0 3))
   / INR (3 * rows img * cols img))%R.

End MyOpt.

(** * Properties *)

Section MonadRules.

Context {B : Backend}.

Lemma wp_elim {A : Type} (m : M A) Q w a w' :
  wp m Q w -> m w = Ok (a, w') -> Q a w'.
Proof. unfold wp. intros H E. rewrite E in H. exact H. Qed.

Lemma wp_ret {A : Type} (a : A) (Q : A -> world -> Prop) w : Q a w -> wp (ret a) Q w.
Proof. intros H. exact H. Qed.

Lemma wp_raise {A : Type} e (Q : A -> world -> Prop) w : wp (raise e) Q w.
Proof. exact I. Qed.

Lemma wp_bind {A C : Type} (m : M A) (k : A -> M C) Q w :
  wp m (fun a w' => wp (k a) Q w') w -> wp (bind m k) Q w.
Proof.
  unfold wp, bind. destruct (m w) as [[a w']|e]; [|trivial].
  intros H. exact H.
Qed.

Lemma wp_mono {A : Type} (m : M A) (P Q : A -> world -> Prop) w :
  wp m P w -> (forall a w', P a w' -> Q a w') -> wp m Q w.
Proof.
  unfold wp. destruct (m w) as [[a w']|e]; [|trivial]. intros H HPQ. auto.
Qed.

Lemma wp_for_gen {A S : Type} (Inv : list A -> S -> world -> Prop)
    (body : A -> S -> M S) (post pre : list A) (s : S) (w : world) :
  Inv pre s w ->
  (forall p x s w, (exists q, pre ++ post = p ++ x :: q) ->
                   Inv p s w -> wp (body x s) (Inv (p ++ [x])) w) ->
  wp (for_ post body s) (Inv (pre ++ post)) w.
Proof.
  revert pre s w. induction post as [|x post IH]; intros pre s w H0 Hstep.
  - rewrite app_nil_r. exact H0.
  - cbn [for_]. apply wp_bind.
    eapply wp_mono.
    + apply (Hstep pre x s w); [exists post; reflexivity | exact H0].
    + intros s' w' H'. cbn beta.
      replace (pre ++ x :: post) with ((pre ++ [x]) ++ post)
        by (rewrite <- app_assoc; reflexivity).
      apply IH; [exact H'|].
      intros p y s1 w1 [q Hq] Hp. apply Hstep; [|exact Hp].
      exists q. rewrite <- Hq, <- app_assoc. reflexivity.
Qed.

Lemma wp_for {A S : Type} (Inv : list A -> S -> world -> Prop)
    (body : A -> S -> M S) (l : list A) (s : S) (w : world) :
  Inv [] s w ->
  (forall p x s w, (exists q, l = p ++ x :: q) ->
                   Inv p s w -> wp (body x s) (Inv (p ++ [x])) w) ->
  wp (for_ l body s) (Inv l) w.
Proof. intros H0 Hstep. apply (wp_for_gen Inv body l [] s w H0 Hstep). Qed.

Lemma total_ret {A : Type} (a : A) (Q : A -> world -> Prop) w :
  Q a w -> total (ret a) Q w.
Proof. intros H. exists a, w. split; [reflexivity|exact H]. Qed.

Lemma total_bind {A C : Type} (m : M A) (k : A -> M C) Q w :
  total m (fun a w' => total (k a) Q w') w -> total (bind m k) Q w.
Proof.
  intros (a & w' & E & c & w'' & E' & HQ).
  exists c, w''. split; [|exact HQ]. unfold bind. rewrite E. exact E'.
Qed.

Lemma total_mono {A : Type} (m : M A) (P Q : A -> world -> Prop) w :
  total m P w -> (forall a w', P a w' -> Q a w') -> total m Q w.
Proof. intros (a & w' & E & H) HPQ. exists a, w'. auto. Qed.

Lemma total_wp {A : Type} (m : M A) (P Q : A -> world -> Prop) w :
  total m P w -> wp m Q w -> total m (fun a w' => P a w' /\ Q a w') w.
Proof.
  intros (a & w' & E & H) Hwp. exists a, w'. split; [exact E|].
  split; [exact H | exact (wp_elim m Q w a w' Hwp E)].
Qed.

Lemma total_for_gen {A S : Type} (Inv : list A -> S -> world -> Prop)
    (body : A -> S -> M S) (post pre : list A) (s : S) (w : world) :
  Inv pre s w ->
  (forall p x s w, (exists q, pre ++ post = p ++ x :: q) ->
                   Inv p s w -> total (body x s) (Inv (p ++ [x])) w) ->
  total (for_ post body s) (Inv (pre ++ post)) w.
Proof.
  revert pre s w. induction post as [|x post IH]; intros pre s w H0 Hstep.
  - rewrite app_nil_r. apply total_ret. exact H0.
  - cbn [for_]. apply total_bind.
    eapply total_mono.
    + apply (Hstep pre x s w); [exists post; reflexivity | exact H0].
    + intros s' w' H'. cbn beta.
      replace (pre ++ x :: post) with ((pre ++ [x]) ++ post)
        by (rewrite <- app_assoc; reflexivity).
      apply IH; [exact H'|].
      intros p y s1 w1 [q Hq] Hp. apply Hstep; [|exact Hp].
      exists q. rewrite <- Hq, <- app_assoc. reflexivity.
Qed.

Lemma total_for {A S : Type} (Inv : list A -> S -> world -> Prop)
    (body : A -> S -> M S) (l : list A) (s : S) (w : world) :
  Inv [] s w ->
  (forall p x s w, (exists q, l = p ++ x :: q) ->
                   Inv p s w -> total (body x s) (Inv (p ++ [x])) w) ->
  total (for_ l body s) (Inv l) w.
Proof. intros H0 Hstep. apply (total_for_gen Inv body l [] s w H0 Hstep). Qed.

(** A loop over a concatenation runs the first part, then the second. *)
Lemma for_app {A S : Type} (body : A -> S -> M S) (l1 l2 : list A) (s : S) (w : world) :
  for_ (l1 ++ l2) body s w =
  bind (for_ l1 body s) (fun s' => for_ l2 body s') w.
Proof.
  revert s w. induction l1 as [|x l1 IH]; intros s w.
  - reflexivity.
  - cbn [for_ app]. unfold bind. destruct (body x s w) as [[s' w']|e].
    + rewrite IH. reflexivity.
    + reflexivity.
Qed.

End MonadRules.

(** ** Primitive operations *)

Section Primitives.

Context {B : Backend}.

Lemma wp_py_random (Q : R -> world -> Prop) w :
  (forall r s, Q r (World s (np_state w) (point_tensors w) (color_tensors w))) ->
  wp py_random Q w.
Proof.
  intros H. unfold wp, py_random.
  destruct (random_random (py_state w)) as [r s]. apply H.
Qed.

Lemma total_py_random (Q : R -> world -> Prop) w :
  (forall r s, Q r (World s (np_state w) (point_tensors w) (color_tensors w))) ->
  total py_random Q w.
Proof.
  intros H. unfold total, py_random.
  destruct (random_random (py_state w)) as [r s]. eexists _, _. split; [reflexivity|apply H].
Qed.

Lemma wp_np_uniform lo hi (Q : R -> world -> Prop) w :
  (forall r s, Q r (World (py_state w) s (point_tensors w) (color_tensors w))) ->
  wp (np_uniform lo hi) Q w.
Proof.
  intros H. unfold wp, np_uniform.
  destruct (np_random_uniform lo hi (np_state w)) as [r s]. apply H.
Qed.

Lemma total_np_uniform lo hi (Q : R -> world -> Prop) w :
  (forall r s, Q r (World (py_state w) s (point_tensors w) (color_tensors w))) ->
  total (np_uniform lo hi) Q w.
Proof.
  intros H. unfold total, np_uniform.
  destruct (np_random_uniform lo hi (np_state w)) as [r s].
  eexists _, _. split; [reflexivity|apply H].
Qed.

Lemma rng_only_ret {A : Type} (a : A) : rng_only (ret a).
Proof. intros w. apply wp_ret. auto. Qed.

Lemma rng_only_raise {A : Type} e : rng_only (@raise B A e).
Proof. intros w. apply wp_raise. Qed.

Lemma rng_only_bind {A C : Type} (m : M A) (k : A -> M C) :
  rng_only m -> (forall a, rng_only (k a)) -> rng_only (bind m k).
Proof.
  intros Hm Hk w. apply wp_bind. eapply wp_mono; [apply Hm|].
  intros a w' [E1 E2]. eapply wp_mono; [apply Hk|].
  cbn beta. intros c w'' [E3 E4]. split; congruence.
Qed.

Lemma rng_only_py_random : rng_only py_random.
Proof. intros w. apply wp_py_random. intros; cbn; auto. Qed.

Lemma rng_only_np_uniform lo hi : rng_only (np_uniform lo hi).
Proof. intros w. apply wp_np_uniform. intros; cbn; auto. Qed.

Lemma rng_only_for {A S : Type} (l : list A) (body : A -> S -> M S) s :
  (forall x s, rng_only (body x s)) -> rng_only (for_ l body s).
Proof.
  intros Hb. revert s. induction l as [|x l IH]; intros s.
  - apply rng_only_ret.
  - cbn [for_]. apply rng_only_bind; [apply Hb | intros; apply IH].
Qed.

Lemma rng_only_jitter r p : rng_only (jitter r p).
Proof.
  unfold jitter. repeat (apply rng_only_bind; [apply rng_only_py_random | intros]).
  apply rng_only_ret.
Qed.

Lemma rng_only_random_points n : rng_only (random_points n).
Proof.
  unfold random_points.
  repeat (apply rng_only_bind; [apply rng_only_py_random | intros]).
  apply rng_only_bind; [|intros; apply rng_only_ret].
  apply rng_only_for. intros j [p0 pts].
  repeat (apply rng_only_bind; [apply rng_only_jitter | intros]).
  destruct (_ <? _)%Z; apply rng_only_ret.
Qed.

Lemma rng_only_get_bezier_circle r n b : rng_only (get_bezier_circle r n b).
Proof.
  unfold get_bezier_circle. apply rng_only_bind.
  - destruct b; [apply rng_only_ret|].
    repeat (apply rng_only_bind; [apply rng_only_py_random | intros]).
    apply rng_only_ret.
  - intros bias. destruct (n =? 0)%Z; [apply rng_only_raise | apply rng_only_ret].
Qed.

Lemma rng_only_new_points args norm i : rng_only (new_points args norm i).
Proof.
  unfold new_points. apply rng_only_bind.
  - destruct (initial args); [apply rng_only_random_points|].
    apply rng_only_bind.
    + destruct (circle_init_radius args);
        [apply rng_only_ret | apply rng_only_np_uniform].
    + intros. repeat (apply rng_only_bind; [apply rng_only_py_random | intros]).
      apply rng_only_get_bezier_circle.
  - intros pts. destruct norm as [np|]; [|apply rng_only_ret].
    destruct (np !! i); [apply rng_only_ret | apply rng_only_raise].
Qed.

End Primitives.

(** ** The point lists of new shapes *)

Section NewPoints.

Context {B : Backend}.

Lemma seq_split_index (K : nat) (p q : list nat) (x : nat) :
  seq 0 K = p ++ x :: q -> x = length p /\ (length p < K)%nat.
Proof.
  intros E.
  assert (HK : K = (length p + S (length q))%nat).
  { apply (f_equal (@length nat)) in E.
    rewrite length_seq, length_app in E. cbn in E. exact E. }
  split; [|lia].
  assert (Hn : nth (length p) (seq 0 K) 0%nat = x).
  { rewrite E, app_nth2 by lia. rewrite Nat.sub_diag. reflexivity. }
  rewrite seq_nth in Hn by lia. cbn in Hn. congruence.
Qed.

Lemma range_split_index (n : Z) (p q : list nat) (x : nat) :
  range n = p ++ x :: q -> x = length p /\ (length p < Z.to_nat n)%nat.
Proof. apply seq_split_index. Qed.

Lemma wp_jitter r p (Q : R * R -> world -> Prop) w :
  (forall q w', Q q w') -> wp (jitter r p) Q w.
Proof.
  intros H. unfold wp. destruct (jitter r p w) as [[q w']|e]; [apply H|exact I].
Qed.

Lemma random_points_length n w :
  wp (random_points n)
     (fun pts _ => (1 <= length pts)%nat
                   /\ ((1 <= n)%Z -> length pts = (3 * Z.to_nat n)%nat)) w.
Proof.
  unfold random_points.
  apply wp_bind, wp_py_random; intros x s1.
  apply wp_bind, wp_py_random; intros y s2.
  apply wp_bind.
  eapply wp_mono.
  - apply (wp_for (fun pre (st : (R * R) * list (R * R)) _ =>
                     (1 <= length (snd st))%nat /\
                     (length pre < Z.to_nat n \/ Z.to_nat n = 0 ->
                      length (snd st) = 1 + 3 * length pre)%nat /\
                     (length pre = Z.to_nat n -> (1 <= Z.to_nat n)%nat ->
                      length (snd st) = 3 * length pre)%nat)).
    + cbn. repeat split; lia.
    + intros p j [p0 pts] w' [q Hq] (Hge & Hlt & Heq).
      apply range_split_index in Hq as [-> Hp]. cbn [snd] in *.
      apply wp_bind, wp_jitter; intros p1 w1.
      apply wp_bind, wp_jitter; intros p2 w2.
      apply wp_bind, wp_jitter; intros p3 w3.
      destruct (Z.ltb_spec (Z.of_nat (length p)) (n - 1)) as [Hj|Hj];
        apply wp_ret; cbn [snd]; rewrite !length_app; cbn [length];
        repeat split; intros; lia.
  - intros [p0 pts] w' (Hge & Hlt & Heq). cbn [snd] in *.
    apply wp_ret. unfold range in Heq. rewrite length_seq in Heq.
    split; [exact Hge|]. intros Hn. apply Heq; lia.
Qed.

Lemma total_jitter r p (Q : R * R -> world -> Prop) w :
  (forall q w', Q q w') -> total (jitter r p) Q w.
Proof.
  intros H. unfold jitter.
  apply total_bind, total_py_random; intros dx s1.
  apply total_bind, total_py_random; intros dy s2.
  apply total_ret, H.
Qed.

Lemma random_points_total n w : total (random_points n) (fun _ _ => True) w.
Proof.
  unfold random_points.
  apply total_bind, total_py_random; intros x s1.
  apply total_bind, total_py_random; intros y s2.
  apply total_bind.
  eapply total_mono.
  - apply (total_for (fun _ _ _ => True)); [exact I|].
    intros p j [p0 pts] w' _ _.
    apply total_bind, total_jitter; intros p1 w1.
    apply total_bind, total_jitter; intros p2 w2.
    apply total_bind, total_jitter; intros p3 w3.
    destruct (_ <? _)%Z; apply total_ret; exact I.
  - intros st w' _. apply total_ret. exact I.
Qed.

Lemma circle_fold_length (f : nat -> list (R * R)) (l : list nat) (init : list (R * R)) :
  (forall i, length (f i) = 3%nat) ->
  length (fold_left (fun points i => points ++ f i) l init)
  = (length init + 3 * length l)%nat.
Proof.
  intros Hf. revert init. induction l as [|i l IH]; intros init; cbn.
  - lia.
  - rewrite IH, length_app, Hf. lia.
Qed.

Lemma length_removelast {A : Type} (l : list A) :
  length (removelast l) = (length l - 1)%nat.
Proof.
  induction l as [|a [|b l] IH]; cbn in *; try reflexivity.
  rewrite IH. lia.
Qed.

Lemma get_bezier_circle_length r n b w :
  wp (get_bezier_circle r n b)
     (fun pts _ => length pts = (3 * Z.to_nat n)%nat) w.
Proof.
  unfold get_bezier_circle. apply wp_bind.
  assert (Hk : forall bias w',
             wp (if (n =? 0)%Z then raise ZeroDivisionError
                 else ret (map (fun p : R * R =>
                                  ((fst p * r + fst bias)%R, (snd p * r + snd bias)%R))
                            (removelast (rev
                               (fold_left (fun points i =>
                                  points ++ circle_segment
                                    (degrees (4 / 3 * tan (PI / IZR (2 * n))))
                                    (sqrt (1 + (4 / 3 * tan (PI / IZR (2 * n))) ^ 2))
                                    (360 / IZR n) i) (range n) [(1%R, 0%R)])))))
                (fun pts _ => length pts = (3 * Z.to_nat n)%nat) w').
  { intros bias w'. destruct (n =? 0)%Z; [apply wp_raise|].
    apply wp_ret. rewrite length_map, length_removelast, length_rev.
    rewrite circle_fold_length by reflexivity.
    unfold range. rewrite length_seq. cbn [length]. lia. }
  destruct b as [b|].
  - apply wp_ret, Hk.
  - apply wp_bind, wp_py_random; intros x s1.
    apply wp_bind, wp_py_random; intros y s2.
    apply wp_ret, Hk.
Qed.

Lemma get_bezier_circle_total r n b w :
  n <> 0%Z -> total (get_bezier_circle r n b) (fun _ _ => True) w.
Proof.
  intros Hn. unfold get_bezier_circle. apply total_bind.
  assert (E : (n =? 0)%Z = false) by (apply Z.eqb_neq; exact Hn).
  destruct b as [b|].
  - apply total_ret. rewrite E. apply total_ret. exact I.
  - apply total_bind, total_py_random; intros x s1.
    apply total_bind, total_py_random; intros y s2.
    apply total_ret. rewrite E. apply total_ret. exact I.
Qed.

End NewPoints.

(** ** What [init_new_paths] builds *)

Section InitNewPaths.

Context {B : Backend}.

Lemma wp_and {A : Type} (m : M A) (P Q : A -> world -> Prop) w :
  wp m P w -> wp m Q w -> wp m (fun a w' => P a w' /\ Q a w') w.
Proof. unfold wp. destruct (m w) as [[a w']|e]; auto. Qed.

Lemma wp_rng_only {A : Type} (m : M A) (P Q : A -> world -> Prop) w :
  rng_only m -> wp m P w ->
  (forall a w', point_tensors w' = point_tensors w ->
                color_tensors w' = color_tensors w -> P a w' -> Q a w') ->
  wp m Q w.
Proof.
  intros Hr HP H. eapply wp_mono; [apply (wp_and _ _ _ _ (Hr w) HP)|].
  cbn beta. intros a w' [[E1 E2] HPa]. auto.
Qed.

Lemma new_points_raw args w :
  wp (match initial args with
      | random => random_points (num_segments args)
      | circle =>
          bind (match circle_init_radius args with
                | Some r => ret r
                | None => np_uniform 0.01 0.2
                end)
               (fun radius =>
                  bind py_random (fun bx =>
                  bind py_random (fun by_ =>
                  get_bezier_circle radius (num_segments args) (Some (bx, by_)))))
      end)
     (fun raw _ => (1 <= num_segments args)%Z ->
                   length raw = (3 * Z.to_nat (num_segments args))%nat) w.
Proof.
  destruct (initial args).
  - eapply wp_mono; [apply random_points_length|]. cbn beta. intros a w' [_ H]. exact H.
  - apply wp_bind.
    assert (Hk : forall radius w',
               wp (bind py_random (fun bx => bind py_random (fun by_ =>
                     get_bezier_circle radius (num_segments args) (Some (bx, by_)))))
                  (fun raw _ => (1 <= num_segments args)%Z ->
                     length raw = (3 * Z.to_nat (num_segments args))%nat) w').
    { intros radius w'.
      apply wp_bind, wp_py_random; intros x s1.
      apply wp_bind, wp_py_random; intros y s2.
      eapply wp_mono; [apply get_bezier_circle_length|]. cbn beta. auto. }
    destruct (circle_init_radius args).
    + apply wp_ret, Hk.
    + apply wp_np_uniform. intros r s. apply Hk.
Qed.

Lemma new_points_spec args norm i w :
  wp (new_points args norm i)
     (fun pts w' =>
        point_tensors w' = point_tensors w /\
        color_tensors w' = color_tensors w /\
        exists raw,
          ((1 <= num_segments args)%Z ->
           length raw = (3 * Z.to_nat (num_segments args))%nat) /\
          placed norm i raw pts) w.
Proof.
  eapply wp_rng_only; [apply rng_only_new_points| |].
  - unfold new_points. apply wp_bind.
    eapply wp_mono; [apply new_points_raw|]. cbn beta.
    intros raw w' Hraw.
    instantiate (1 := fun pts _ => exists raw,
      ((1 <= num_segments args)%Z ->
       length raw = (3 * Z.to_nat (num_segments args))%nat) /\
      placed norm i raw pts).
    destruct norm as [np|].
    + destruct (np !! i) as [c|] eqn:E; [|apply wp_raise].
      apply wp_ret. exists raw. split; [exact Hraw|]. cbn. exists c. auto.
    + apply wp_ret. exists raw. split; [exact Hraw|]. reflexivity.
  - cbn beta. intros pts w' E1 E2 H. auto.
Qed.

Lemma new_points_total args norm i w :
  (initial args = circle -> num_segments args <> 0%Z) ->
  match norm with Some np => (i < length np)%nat | None => True end ->
  total (new_points args norm i) (fun _ _ => True) w.
Proof.
  intros Hc Hn. unfold new_points. apply total_bind.
  assert (Hk : forall pts w',
             total (match norm with
                    | Some np => match np !! i with
                                 | Some c => ret (recenter pts c)
                                 | None => raise IndexError
                                 end
                    | None => ret pts
                    end) (fun _ _ => True) w').
  { intros pts w'. destruct norm as [np|]; [|apply total_ret; exact I].
    destruct (lookup_lt_is_Some_2 np i Hn) as [c ->]. apply total_ret. exact I. }
  destruct (initial args).
  - eapply total_mono; [apply random_points_total|]. intros; apply Hk.
  - apply total_bind.
    assert (Hr : forall radius w',
              total (bind py_random (fun bx => bind py_random (fun by_ =>
                       get_bezier_circle radius (num_segments args) (Some (bx, by_)))))
                    (fun pts w'' => total (match norm with
                       | Some np => match np !! i with
                                    | Some c => ret (recenter pts c)
                                    | None => raise IndexError
                                    end
                       | None => ret pts
                       end) (fun _ _ => True) w'') w').
    { intros radius w'.
      apply total_bind, total_py_random; intros x s1.
      apply total_bind, total_py_random; intros y s2.
      eapply total_mono; [apply get_bezier_circle_total; auto|]. intros; apply Hk. }
    destruct (circle_init_radius args).
    + apply total_ret, Hr.
    + apply total_np_uniform. intros r s. apply Hr.
Qed.

Lemma wp_alloc_points v (Q : loc -> world -> Prop) w :
  Q (length (point_tensors w))
    (World (py_state w) (np_state w) (point_tensors w ++ [Var v false]) (color_tensors w)) ->
  wp (alloc_points v) Q w.
Proof. intros H. exact H. Qed.

Lemma wp_alloc_color v (Q : loc -> world -> Prop) w :
  Q (length (color_tensors w))
    (World (py_state w) (np_state w) (point_tensors w) (color_tensors w ++ [Var v false])) ->
  wp (alloc_color v) Q w.
Proof. intros H. exact H. Qed.

(** One iteration of the shape loop. *)
Lemma new_path_spec cw ch args n_old norm i shapes groups w :
  wp (new_path cw ch args n_old norm i (shapes, groups))
     (fun r w' =>
        exists raw pre col,
          (0 <= num_segments args)%Z /\
          r = (shapes ++ [path_at (num_segments args) (length (pdata w)) 0],
               groups ++ [mkShapeGroup [(n_old + i)%nat] false (length (cdata w))]) /\
          pdata w' = pdata w ++ [scale_to_canvas cw ch pre] /\
          cdata w' = cdata w ++ [col] /\
          length col = 4%nat /\
          ((1 <= num_segments args)%Z ->
           length raw = (3 * Z.to_nat (num_segments args))%nat) /\
          placed norm i raw pre) w.
Proof.
  unfold new_path. destruct (Z.ltb_spec (num_segments args) 0) as [Hlt|Hge].
  { apply wp_raise. }
  apply wp_bind. eapply wp_mono; [apply new_points_spec|]. cbn beta.
  intros pre w1 (E1 & E2 & raw & Hraw & Hpl).
  apply wp_bind, wp_alloc_points. cbn [py_state np_state point_tensors color_tensors].
  apply wp_bind, wp_py_random; intros c0 s0. cbn [py_state np_state point_tensors color_tensors].
  apply wp_bind, wp_py_random; intros c1 s1. cbn [py_state np_state point_tensors color_tensors].
  apply wp_bind, wp_py_random; intros c2 s2. cbn [py_state np_state point_tensors color_tensors].
  apply wp_bind, wp_py_random; intros c3 s3. cbn [py_state np_state point_tensors color_tensors].
  apply wp_bind, wp_alloc_color. cbn [py_state np_state point_tensors color_tensors].
  apply wp_ret. exists raw, pre, [c0; c1; c2; c3].
  unfold pdata, cdata, path_at. cbn [point_tensors color_tensors].
  rewrite E1, E2, !map_app, !length_map, Nat.add_0_r. cbn [map data].
  repeat split; auto.
Qed.

Lemma new_path_total cw ch args n_old norm i acc w :
  (0 <= num_segments args)%Z ->
  (initial args = circle -> num_segments args <> 0%Z) ->
  match norm with Some np => (i < length np)%nat | None => True end ->
  total (new_path cw ch args n_old norm i acc) (fun _ _ => True) w.
Proof.
  intros Hn Hc Hi. unfold new_path. destruct acc as [shapes groups].
  destruct (Z.ltb_spec (num_segments args) 0) as [Hlt|Hge]; [lia|].
  apply total_bind. eapply total_mono; [apply new_points_total; auto|].
  intros pts w1 _.
  apply total_bind. eexists _, _; split; [reflexivity|].
  do 4 (apply total_bind, total_py_random; intros ? ?).
  apply total_bind. eexists _, _; split; [reflexivity|].
  apply total_ret. exact I.
Qed.

Lemma map_data_set_requires_grad {A : Type} b l (st : list (var A)) :
  map data (set_requires_grad b l st) = map data st.
Proof.
  unfold set_requires_grad.
  destruct (st !! l) as [v|] eqn:E; [|reflexivity].
  change (map data (<[l:=Var (data v) b]> st)) with (data <$> <[l:=Var (data v) b]> st).
  rewrite list_fmap_insert. cbn [data]. apply list_insert_id.
  rewrite list_lookup_fmap, E. reflexivity.
Qed.

Lemma set_points_grad_loop {X S : Type} (l : list X) (f : X -> loc) b
    (k : X -> S -> S) (s : S) w :
  total (for_ l (fun x acc => bind (set_points_grad b (f x)) (fun _ => ret (k x acc))) s)
        (fun r w' => r = fold_left (fun acc x => k x acc) l s
                     /\ pdata w' = pdata w /\ cdata w' = cdata w) w.
Proof.
  revert s w. induction l as [|x l IH]; intros s w.
  - apply total_ret. auto.
  - cbn [for_ fold_left]. apply total_bind, total_bind.
    eexists _, _; split; [reflexivity|]. apply total_ret.
    eapply total_mono; [apply IH|]. cbn beta.
    intros r w' (-> & E1 & E2). split; [reflexivity|].
    unfold pdata, cdata in *. cbn [point_tensors color_tensors] in *.
    rewrite E1, E2, map_data_set_requires_grad. auto.
Qed.

Lemma set_color_grad_loop {X S : Type} (l : list X) (f : X -> loc) b
    (k : X -> S -> S) (s : S) w :
  total (for_ l (fun x acc => bind (set_color_grad b (f x)) (fun _ => ret (k x acc))) s)
        (fun r w' => r = fold_left (fun acc x => k x acc) l s
                     /\ pdata w' = pdata w /\ cdata w' = cdata w) w.
Proof.
  revert s w. induction l as [|x l IH]; intros s w.
  - apply total_ret. auto.
  - cbn [for_ fold_left]. apply total_bind, total_bind.
    eexists _, _; split; [reflexivity|]. apply total_ret.
    eapply total_mono; [apply IH|]. cbn beta.
    intros r w' (-> & E1 & E2). split; [reflexivity|].
    unfold pdata, cdata in *. cbn [point_tensors color_tensors] in *.
    rewrite E1, E2, map_data_set_requires_grad. auto.
Qed.

Lemma total_elim {A : Type} (m : M A) (Q : A -> world -> Prop) w a w' :
  total m Q w -> m w = Ok (a, w') -> Q a w'.
Proof. intros (a0 & w0 & E & H) E'. rewrite E in E'. inversion E'; subst. exact H. Qed.

Lemma total_is_wp {A : Type} (m : M A) (Q : A -> world -> Prop) w :
  total m Q w -> wp m Q w.
Proof. intros (a & w' & E & H). unfold wp. rewrite E. exact H. Qed.

Lemma mark_points_trainable (shapes : list Path) w :
  total (for_ shapes (fun path _ => set_points_grad true (points path)) tt)
        (fun _ w' => pdata w' = pdata w /\ cdata w' = cdata w) w.
Proof.
  revert w. induction shapes as [|x l IH]; intros w.
  - apply total_ret. auto.
  - cbn [for_]. apply total_bind. eexists _, _; split; [reflexivity|].
    eapply total_mono; [apply IH|]. cbn beta. intros _ w' (E1 & E2).
    unfold pdata, cdata in *. cbn [point_tensors color_tensors] in *.
    rewrite E1, E2, map_data_set_requires_grad. auto.
Qed.

Lemma mark_colors_trainable (groups : list ShapeGroup) w :
  total (for_ groups (fun group _ => set_color_grad true (fill_color group)) tt)
        (fun _ w' => pdata w' = pdata w /\ cdata w' = cdata w) w.
Proof.
  revert w. induction groups as [|x l IH]; intros w.
  - apply total_ret. auto.
  - cbn [for_]. apply total_bind. eexists _, _; split; [reflexivity|].
    eapply total_mono; [apply IH|]. cbn beta. intros _ w' (E1 & E2).
    unfold pdata, cdata in *. cbn [point_tensors color_tensors] in *.
    rewrite E1, E2, map_data_set_requires_grad. auto.
Qed.

(** The shape loop of [init_new_paths], after any prefix. *)
Lemma shape_loop_spec k cw ch args n_old norm w :
  wp (for_ (range k) (new_path cw ch args n_old norm) ([], []))
     (fun r w' => init_post k cw ch args n_old norm w
                    (fst r, snd r, map points (fst r), map fill_color (snd r)) w') w.
Proof.
  eapply wp_mono.
  - apply (wp_for (fun pre (r : list Path * list ShapeGroup) w' =>
      exists (PTS : list (list (R * R))) (CS : list (list R)),
        pdata w' = pdata w ++ PTS /\
        cdata w' = cdata w ++ CS /\
        fst r = imap (fun i _ => path_at (num_segments args) (length (pdata w)) i) PTS /\
        snd r = imap (fun i _ => group_at n_old (length (cdata w)) i) CS /\
        length PTS = length pre /\
        length CS = length pre /\
        Forall (fun c => length c = 4%nat) CS /\
        forall i pts, PTS !! i = Some pts ->
          exists raw pre',
            ((1 <= num_segments args)%Z ->
             length raw = (3 * Z.to_nat (num_segments args))%nat) /\
            placed norm i raw pre' /\
            pts = scale_to_canvas cw ch pre')).
    + exists [], []. rewrite !app_nil_r. cbn. repeat split; auto.
      intros i pts H. discriminate.
    + intros p i [shapes groups] w1 [q Hq]
             (PTS & CS & E1 & E2 & E3 & E4 & L1 & L2 & HF & HP).
      apply range_split_index in Hq as [-> Hp]. cbn [fst snd] in *.
      eapply wp_mono; [apply new_path_spec|]. cbn beta.
      intros r w2 (raw & pre' & col & Hn & -> & E1' & E2' & Lc & Hraw & Hpl).
      exists (PTS ++ [scale_to_canvas cw ch pre']), (CS ++ [col]). cbn [fst snd].
      rewrite E1', E2', E1, E2, <- !app_assoc, !length_app, !imap_app. cbn [imap length].
      rewrite E3, E4, L1, L2. unfold path_at, group_at.
      rewrite !Nat.add_0_r.
      repeat split; auto.
      * apply Forall_app; split; [exact HF | constructor; [exact Lc | constructor]].
      * intros j pts Hj. apply lookup_app_Some in Hj as [Hj | [Hge Hj]].
        -- apply HP; exact Hj.
        -- rewrite L1 in Hj, Hge.
           destruct (j - length p)%nat eqn:Ej; [|discriminate].
           cbn in Hj. inversion Hj; subst pts.
           assert (j = length p) by lia. subst j.
           exists raw, pre'. auto.
  - cbn beta. intros [shapes groups] w1
                     (PTS & CS & E1 & E2 & E3 & E4 & L1 & L2 & HF & HP).
    cbn [fst snd] in *. exists PTS, CS.
    unfold range in L1, L2. rewrite length_seq in L1, L2.
    repeat split; auto.
Qed.

Lemma init_new_paths_spec k cw ch args n_old pixel_loss w :
  wp (init_new_paths k cw ch args n_old pixel_loss)
     (init_post k cw ch args n_old (option_map (norm_postion args k) pixel_loss) w) w.
Proof.
  unfold init_new_paths. apply wp_bind.
  eapply wp_mono; [apply shape_loop_spec|]. cbn beta.
  intros [shapes groups] w1 H. cbn [fst snd] in H.
  apply wp_bind. apply total_is_wp.
  eapply total_mono; [apply mark_points_trainable|]. cbn beta.
  intros _ w2 [P2 C2].
  apply wp_bind. apply total_is_wp.
  eapply total_mono; [apply mark_colors_trainable|]. cbn beta.
  intros _ w3 [P3 C3].
  apply wp_ret. unfold init_post in *.
  destruct H as (PTS & CS & H). exists PTS, CS.
  rewrite P3, C3, P2, C2. exact H.
Qed.

Lemma init_new_paths_total k cw ch args n_old pixel_loss w :
  (0 <= num_segments args)%Z ->
  (initial args = circle -> num_segments args <> 0%Z) ->
  match pixel_loss with
  | Some pl => (Z.to_nat k <= length (norm_postion args k pl))%nat
  | None => True
  end ->
  total (init_new_paths k cw ch args n_old pixel_loss) (fun _ _ => True) w.
Proof.
  intros Hn Hc Hk. unfold init_new_paths. apply total_bind.
  eapply total_mono.
  - apply (total_for (fun _ _ _ => True)); [exact I|].
    intros p i acc w1 [q Hq] _.
    apply range_split_index in Hq as [-> Hp].
    apply new_path_total; auto.
    destruct pixel_loss as [pl|]; cbn; [lia | exact I].
  - cbn beta. intros [shapes groups] w1 _.
    apply total_bind. eapply total_mono; [apply mark_points_trainable|].
    cbn beta. intros _ w2 _.
    apply total_bind. eapply total_mono; [apply mark_colors_trainable|].
    cbn beta. intros _ w3 _. apply total_ret. exact I.
Qed.

End InitNewPaths.

(** ** The reference sorts meet the contract of [torch.sort] *)

Section ReferenceSort.

Variable strict : bool.
Variable x : list R.

Let val (i : nat) : R := nth i x 0%R.

Lemma goes_before_true vi vj : goes_before strict vi vj = true -> (vi >= vj)%R.
Proof.
  unfold goes_before. destruct strict.
  - destruct (Rlt_dec vj vi); [lra | discriminate].
  - destruct (Rle_dec vj vi); [lra | discriminate].
Qed.

Lemma goes_before_false vi vj : goes_before strict vi vj = false -> (vj >= vi)%R.
Proof.
  unfold goes_before. destruct strict.
  - destruct (Rlt_dec vj vi); [discriminate | lra].
  - destruct (Rle_dec vj vi); [discriminate | lra].
Qed.

Lemma sort_insert_perm i acc : Permutation (sort_insert strict x i acc) (i :: acc).
Proof.
  induction acc as [|j acc IH]; cbn.
  - reflexivity.
  - destruct (goes_before strict _ _); [reflexivity|].
    rewrite IH. apply perm_swap.
Qed.

Lemma sort_fold_perm l : Permutation (fold_right (sort_insert strict x) [] l) l.
Proof.
  induction l as [|i l IH]; cbn.
  - reflexivity.
  - rewrite sort_insert_perm. constructor. exact IH.
Qed.

Lemma sort_insert_sorted i acc :
  StronglySorted Rge (map val acc) ->
  StronglySorted Rge (map val (sort_insert strict x i acc)).
Proof.
  induction acc as [|j acc IH]; cbn; intros Hs.
  - constructor; constructor.
  - inversion Hs as [|a l Hs' Hall]; subst.
    destruct (goes_before strict (nth i x 0%R) (nth j x 0%R)) eqn:E.
    + apply goes_before_true in E. cbn. constructor; [exact Hs|].
      constructor; [exact E|].
      eapply Forall_impl; [exact Hall|]. cbn. intros v Hv.
      unfold val in *. lra.
    + apply goes_before_false in E. cbn. constructor; [apply IH; exact Hs'|].
      assert (Hp : Permutation (map val (sort_insert strict x i acc)) (map val (i :: acc)))
        by (apply Permutation_map, sort_insert_perm).
      eapply Permutation_Forall; [symmetry; exact Hp|].
      cbn. constructor; [exact E | exact Hall].
Qed.

Lemma sort_fold_sorted l :
  StronglySorted Rge (map val (fold_right (sort_insert strict x) [] l)).
Proof.
  induction l as [|i l IH]; cbn.
  - constructor.
  - apply sort_insert_sorted, IH.
Qed.

End ReferenceSort.

Lemma demo_laws (strict : bool) : BackendLaws (demo_backend strict).
Proof.
  constructor; intros x; cbn.
  - apply sort_fold_perm.
  - apply sort_fold_sorted.
Qed.

(** ** Consequences of the initialiser's postcondition *)

Section InitFacts.

Context {B : Backend}.

Lemma length_recenter pts c : length (recenter pts c) = length pts.
Proof. unfold recenter. apply length_map. Qed.

Lemma length_scale_to_canvas cw ch pts : length (scale_to_canvas cw ch pts) = length pts.
Proof. unfold scale_to_canvas. apply length_map. Qed.

Lemma placed_length norm i raw pts : placed norm i raw pts -> length pts = length raw.
Proof.
  unfold placed. destruct norm as [np|].
  - intros (c & _ & ->). apply length_recenter.
  - intros ->. reflexivity.
Qed.

Lemma init_post_lengths k cw ch args n_old norm w shapes groups pv cv w' :
  init_post k cw ch args n_old norm w (shapes, groups, pv, cv) w' ->
  length shapes = Z.to_nat k /\ length groups = Z.to_nat k /\
  pv = map points shapes /\ cv = map fill_color groups /\
  length (pdata w') = (length (pdata w) + Z.to_nat k)%nat /\
  length (cdata w') = (length (cdata w) + Z.to_nat k)%nat /\
  (forall l, (l < length (pdata w))%nat -> pdata w' !! l = pdata w !! l) /\
  (forall l, (l < length (cdata w))%nat -> cdata w' !! l = cdata w !! l).
Proof.
  intros (PTS & CS & E1 & E2 & E3 & E4 & E5 & E6 & L1 & L2 & _).
  subst shapes groups. rewrite !length_imap, E1, E2, !length_app.
  repeat split; auto; intros l Hl.
  - apply lookup_app_l; exact Hl.
  - apply lookup_app_l; exact Hl.
Qed.

Lemma init_post_shape k cw ch args n_old norm w shapes groups pv cv w' i p :
  init_post k cw ch args n_old norm w (shapes, groups, pv, cv) w' ->
  shapes !! i = Some p ->
  p = path_at (num_segments args) (length (pdata w)) i /\
  exists raw pre,
    ((1 <= num_segments args)%Z ->
     length raw = (3 * Z.to_nat (num_segments args))%nat) /\
    placed norm i raw pre /\
    pdata w' !! points p = Some (scale_to_canvas cw ch pre).
Proof.
  intros (PTS & CS & E1 & E2 & E3 & E4 & E5 & E6 & L1 & L2 & HF & HP) Hi.
  subst shapes. rewrite list_lookup_imap in Hi.
  destruct (PTS !! i) as [pts|] eqn:Ei; [|discriminate].
  cbn in Hi. inversion Hi; subst p. split; [reflexivity|].
  destruct (HP i pts Ei) as (raw & pre & Hraw & Hpl & ->).
  exists raw, pre. repeat split; auto.
  cbn [path_at points]. rewrite E1, lookup_app_r by lia.
  replace (length (pdata w) + i - length (pdata w))%nat with i by lia. exact Ei.
Qed.

Lemma init_post_group k cw ch args n_old norm w shapes groups pv cv w' i g :
  init_post k cw ch args n_old norm w (shapes, groups, pv, cv) w' ->
  groups !! i = Some g ->
  g = group_at n_old (length (cdata w)) i /\
  exists c, cdata w' !! fill_color g = Some c /\ length c = 4%nat.
Proof.
  intros (PTS & CS & E1 & E2 & E3 & E4 & E5 & E6 & L1 & L2 & HF & HP) Hi.
  subst groups. rewrite list_lookup_imap in Hi.
  destruct (CS !! i) as [c|] eqn:Ei; [|discriminate].
  cbn in Hi. inversion Hi; subst g. split; [reflexivity|].
  exists c. split.
  - cbn [group_at fill_color]. rewrite E2, lookup_app_r by lia.
    replace (length (cdata w) + i - length (cdata w))%nat with i by lia. exact Ei.
  - rewrite Forall_forall in HF. apply HF. eapply list_elem_of_lookup_2, Ei.
Qed.

(** C10: every shape made by the initialiser, in random and in circle
    mode alike, has [3 * num_segments] points, two control points for each
    of its [num_segments] segments, and is closed; a call that returns made
    [num_paths] such shapes. *)
Theorem C10_new_shape_arity k cw ch args n_old pixel_loss w shapes groups pv cv w' :
  (1 <= num_segments args)%Z ->
  init_new_paths k cw ch args n_old pixel_loss w = Ok (shapes, groups, pv, cv, w') ->
  length shapes = Z.to_nat k /\
  forall p, In p shapes ->
    is_closed p = true /\
    length (num_control_points p) = Z.to_nat (num_segments args) /\
    Forall (fun c => c = 2%Z) (num_control_points p) /\
    exists pts, pdata w' !! points p = Some pts
                /\ length pts = (3 * Z.to_nat (num_segments args))%nat.
Proof.
  intros Hn E.
  pose proof (wp_elim _ _ _ _ _ (init_new_paths_spec k cw ch args n_old pixel_loss w) E) as HP.
  split; [apply (init_post_lengths _ _ _ _ _ _ _ _ _ _ _ _ HP)|].
  intros p Hin. apply list_elem_of_In, list_elem_of_lookup in Hin as [i Hi].
  destruct (init_post_shape _ _ _ _ _ _ _ _ _ _ _ _ _ _ HP Hi)
    as (-> & raw & pre & Hraw & Hpl & Hlk).
  cbn [path_at is_closed num_control_points points] in *.
  repeat split.
  - apply repeat_length.
  - apply Forall_forall. intros c Hc.
    apply list_elem_of_In, repeat_spec in Hc. exact Hc.
  - eexists. split; [exact Hlk|].
    rewrite length_scale_to_canvas, (placed_length _ _ _ _ Hpl). auto.
Qed.

End InitFacts.

Lemma C10_witness :
  exists shapes groups pv cv w',
    @init_new_paths (demo_backend false) 2 4 4 (demo_args circle false None) 0 None
                    (demo_world 0) = Ok (shapes, groups, pv, cv, w') /\
    length shapes = Z.to_nat 2 /\
    forall p, In p shapes ->
      is_closed p = true /\
      length (num_control_points p) = Z.to_nat 2 /\
      Forall (fun c => c = 2%Z) (num_control_points p) /\
      exists pts, pdata w' !! points p = Some pts /\ length pts = (3 * Z.to_nat 2)%nat.
Proof.
  destruct (@init_new_paths_total (demo_backend false) 2 4 4
              (demo_args circle false None) 0 None (demo_world 0))
    as ([[[shapes groups] pv] cv] & w' & E & _).
  - cbn. lia.
  - cbn. lia.
  - exact I.
  - exists shapes, groups, pv, cv, w'. split; [exact E|].
    apply (@C10_new_shape_arity (demo_backend false) 2 4 4
             (demo_args circle false None) 0 None (demo_world 0) shapes groups pv cv w');
      [cbn; lia | exact E].
Defined.

(** ** Exceptions *)

Section Exceptions.

Context {B : Backend}.

Lemma raises_only_ret {A : Type} E (a : A) w : raises_only E (ret a) w.
Proof. exact I. Qed.

Lemma raises_only_raise {A : Type} (E : exn -> Prop) e w :
  E e -> raises_only E (@raise B A e) w.
Proof. intros H. exact H. Qed.

Lemma raises_only_total {A : Type} E (m : M A) Q w : total m Q w -> raises_only E m w.
Proof. intros (a & w' & Eq & _). unfold raises_only. rewrite Eq. exact I. Qed.

Lemma raises_only_bind {A C : Type} E (m : M A) (k : A -> M C) w :
  raises_only E m w ->
  (forall a w', m w = Ok (a, w') -> raises_only E (k a) w') ->
  raises_only E (bind m k) w.
Proof.
  unfold raises_only, bind. destruct (m w) as [[a w']|e]; [|auto].
  intros _ H. apply (H a w' eq_refl).
Qed.

Lemma raises_only_for {A S : Type} E (l : list A) (body : A -> S -> M S) s w :
  (forall x s w, In x l -> raises_only E (body x s) w) ->
  raises_only E (for_ l body s) w.
Proof.
  revert s w. induction l as [|x l IH]; intros s w H.
  - exact I.
  - cbn [for_]. apply raises_only_bind; [apply H; left; reflexivity|].
    intros s' w' _. apply IH. intros y s1 w1 Hy. apply H. right. exact Hy.
Qed.

Lemma py_random_returns w : total py_random (fun _ _ => True) w.
Proof. apply total_py_random. intros; exact I. Qed.

Lemma np_uniform_returns lo hi w : total (np_uniform lo hi) (fun _ _ => True) w.
Proof. apply total_np_uniform. intros; exact I. Qed.

Lemma new_points_raises args norm i w :
  (initial args = circle -> num_segments args <> 0%Z) ->
  raises_only (fun e => e = IndexError) (new_points args norm i) w.
Proof.
  intros Hc. unfold new_points. apply raises_only_bind.
  - destruct (initial args) eqn:Ei.
    + eapply raises_only_total, random_points_total.
    + apply raises_only_bind.
      * destruct (circle_init_radius args); [exact I|].
        eapply raises_only_total, np_uniform_returns.
      * intros radius w1 _.
        apply raises_only_bind; [eapply raises_only_total, py_random_returns|].
        intros bx w2 _.
        apply raises_only_bind; [eapply raises_only_total, py_random_returns|].
        intros by_ w3 _. eapply raises_only_total, get_bezier_circle_total. auto.
  - intros pts w1 _. destruct norm as [np|]; [|exact I].
    destruct (np !! i); [exact I | reflexivity].
Qed.

Lemma init_new_paths_raises k cw ch args n_old pixel_loss w :
  (0 <= num_segments args)%Z ->
  (initial args = circle -> num_segments args <> 0%Z) ->
  raises_only (fun e => e = IndexError)
              (init_new_paths k cw ch args n_old pixel_loss) w.
Proof.
  intros Hn Hc. unfold init_new_paths. apply raises_only_bind.
  - apply raises_only_for. intros i [shapes groups] w1 _.
    unfold new_path. destruct (Z.ltb_spec (num_segments args) 0); [lia|].
    apply raises_only_bind; [apply new_points_raises; exact Hc|].
    intros pts w2 _.
    apply raises_only_bind; [exact I|]. intros pl w3 _.
    do 4 (apply raises_only_bind;
          [eapply raises_only_total, py_random_returns|]; intros ? ? _).
    apply raises_only_bind; [exact I|]. intros cl w8 _. exact I.
  - intros [shapes groups] w1 _.
    apply raises_only_bind; [eapply raises_only_total, mark_points_trainable|].
    intros _ w2 _.
    apply raises_only_bind; [eapply raises_only_total, mark_colors_trainable|].
    intros _ w3 _. exact I.
Qed.

End Exceptions.

(** ** Error-guided placement *)

Section Placement.

Context {B : Backend} {L : BackendLaws B}.

Lemma length_concat_rows {A : Type} (g : nat -> nat -> A) (c : nat) (l : list nat) :
  length (concat (map (fun i => map (g i) (seq 0 c)) l)) = (length l * c)%nat.
Proof.
  induction l as [|i l IH]; cbn [map concat length].
  - reflexivity.
  - rewrite length_app, IH, length_map, length_seq. lia.
Qed.

Lemma length_flatten (t : tensor2 R) : length (flatten t) = (rows t * cols t)%nat.
Proof. unfold flatten. rewrite length_concat_rows, length_seq. reflexivity. Qed.

Lemma length_sorted_grid (pl : tensor2 R) (p : nat) :
  length (torch_sort_descending (flatten (adaptive_avg_pool2d pl p p))) = (p * p)%nat.
Proof.
  rewrite (Permutation_length (torch_sort_perm _)), length_seq, length_flatten.
  reflexivity.
Qed.

Lemma length_norm_postion args k pl :
  (0 <= k)%Z ->
  length (norm_postion args k pl)
  = Nat.min (Z.to_nat k) (Z.to_nat (pool_size args) * Z.to_nat (pool_size args)).
Proof.
  intros Hk. unfold norm_postion, slice_to.
  destruct (Z.leb_spec 0 k); [|lia].
  rewrite length_map, length_firstn, length_sorted_grid. reflexivity.
Qed.

Lemma pool_cells_lt args k :
  (pool_size args * pool_size args < k)%Z ->
  (Z.to_nat (pool_size args) * Z.to_nat (pool_size args) < Z.to_nat k)%nat.
Proof.
  intros H. destruct (Z.le_gt_cases 0 (pool_size args)) as [Hp|Hp].
  - rewrite <- Z2Nat.inj_mul by lia. lia.
  - replace (Z.to_nat (pool_size args)) with 0%nat by lia. nia.
Qed.

(** C3: with an error map, asking for more new shapes than there are
    pooled cells makes the initialiser raise, so the stage raises the same
    exception before its optimisers are built; when the segment count is
    usable the exception is the IndexError of [norm_postion[i]]. *)
Theorem C3_too_many_paths args target cw ch k s w rl :
  region_loss s = Some rl ->
  (pool_size args * pool_size args < k)%Z ->
  exists e,
    init_new_paths k cw ch args (length (old_shapes s)) (Some (data rl)) w = Raise e /\
    stage args target cw ch k s w = Raise e /\
    ((0 <= num_segments args)%Z ->
     (initial args = circle -> num_segments args <> 0%Z) ->
     e = IndexError).
Proof.
  intros Hrl Hk. apply pool_cells_lt in Hk.
  pose proof (init_new_paths_spec k cw ch args (length (old_shapes s))
                (Some (data rl)) w) as Hwp.
  destruct (init_new_paths k cw ch args (length (old_shapes s)) (Some (data rl)) w)
    as [[[[[shapes groups] pv] cv] w']|e] eqn:E.
  - exfalso. unfold wp in Hwp. rewrite E in Hwp.
    destruct Hwp as (PTS & CS & _ & _ & _ & _ & _ & _ & L1 & _ & _ & HP).
    set (c := (Z.to_nat (pool_size args) * Z.to_nat (pool_size args))%nat) in *.
    destruct (lookup_lt_is_Some_2 PTS c) as [pts Hpts]; [lia|].
    destruct (HP c pts Hpts) as (raw & pre & _ & Hpl & _).
    cbn in Hpl. destruct Hpl as (q & Hq & _).
    apply lookup_lt_Some in Hq. rewrite length_norm_postion in Hq by lia. lia.
  - exists e. split; [reflexivity|]. split.
    + unfold stage, setup_stage, bind. rewrite Hrl. cbn [option_map]. rewrite E.
      reflexivity.
    + intros Hn Hc.
      pose proof (init_new_paths_raises k cw ch args (length (old_shapes s))
                    (Some (data rl)) w Hn Hc) as Hr.
      unfold raises_only in Hr. rewrite E in Hr. exact Hr.
Qed.

Lemma strongly_sorted_app {A : Type} (Rel : A -> A -> Prop) (l1 l2 : list A) :
  StronglySorted Rel (l1 ++ l2) ->
  forall a b, In a l1 -> In b l2 -> Rel a b.
Proof.
  induction l1 as [|x l1 IH]; cbn; intros Hs a b Ha Hb; [contradiction|].
  inversion Hs as [|? ? Hs' Hall]; subst.
  destruct Ha as [->|Ha]; [|apply IH; auto].
  rewrite Forall_forall in Hall. apply Hall, list_elem_of_In, in_or_app. right. exact Hb.
Qed.

Lemma lookup_map {X Y : Type} (f : X -> Y) (l : list X) (i : nat) :
  map f l !! i = option_map f (l !! i).
Proof. apply (list_lookup_fmap f l i). Qed.

(** The cells kept by [indices[:k]]: [k] distinct cells of the grid, none
    of them smaller than a cell left out. *)
Lemma selection_top (grid : list R) (K : nat) :
  (K <= length grid)%nat ->
  let sel := firstn K (torch_sort_descending grid) in
  length sel = K /\ NoDup sel /\
  (forall i, In i sel -> (i < length grid)%nat) /\
  (forall i j, In i sel -> (j < length grid)%nat -> ~ In j sel ->
               (nth j grid 0 <= nth i grid 0)%R).
Proof.
  intros HK sel.
  pose proof (torch_sort_perm grid) as Hperm.
  pose proof (torch_sort_sorted grid) as Hsort.
  assert (Hlen : length (torch_sort_descending grid) = length grid)
    by (rewrite (Permutation_length Hperm), length_seq; reflexivity).
  assert (Hnd : NoDup (torch_sort_descending grid))
    by (rewrite Hperm; apply NoDup_seq).
  rewrite <- (firstn_skipn K (torch_sort_descending grid)) in Hperm, Hsort, Hnd.
  fold sel in Hperm, Hsort, Hnd.
  repeat split.
  - unfold sel. rewrite length_firstn. lia.
  - apply NoDup_app in Hnd. tauto.
  - intros i Hi. apply in_seq with (start := 0%nat). cbn.
    eapply Permutation_in; [exact Hperm|]. apply in_or_app. left. exact Hi.
  - intros i j Hi Hj Hnot.
    assert (Hin : In j (sel ++ skipn K (torch_sort_descending grid))).
    { eapply Permutation_in; [symmetry; exact Hperm|]. apply in_seq. lia. }
    apply in_app_or in Hin as [Hin|Hin]; [contradiction|].
    rewrite map_app in Hsort.
    apply Rge_le.
    apply (strongly_sorted_app Rge _ _ Hsort).
    + apply in_map_iff. exists i. auto.
    + apply in_map_iff. exists j. auto.
Qed.

Lemma Rsum_map_shift {A : Type} (g : A -> R) (a : R) (l : list A) :
  Rsum (map (fun x => (g x + a)%R) l) = (Rsum (map g l) + INR (length l) * a)%R.
Proof.
  induction l as [|x l IH]; cbn [map Rsum fold_right length].
  - cbn. lra.
  - change (fold_right Rplus 0%R (map (fun x => (g x + a)%R) l))
      with (Rsum (map (fun x => (g x + a)%R) l)).
    change (fold_right Rplus 0%R (map g l)) with (Rsum (map g l)).
    rewrite IH, S_INR. lra.
Qed.

(** Line 169 puts the centroid of the points on the given position. *)
Lemma mean_point_recenter (raw : list (R * R)) (c : R * R) :
  raw <> [] -> mean_point (recenter raw c) = c.
Proof.
  intros Hne. unfold recenter.
  assert (HN : INR (length raw) <> 0%R).
  { apply not_0_INR. destruct raw; [contradiction | discriminate]. }
  destruct c as [cx cy]. unfold mean_point.
  rewrite length_map, !map_map. cbn [fst snd].
  set (mx := (Rsum (map fst raw) / INR (length raw))%R).
  set (my := (Rsum (map snd raw) / INR (length raw))%R).
  rewrite (map_ext (fun p : R * R => (fst p - mx + cx)%R)
                   (fun p => (fst p + (- mx + cx))%R)) by (intros; lra).
  rewrite (map_ext (fun p : R * R => (snd p - my + cy)%R)
                   (fun p => (snd p + (- my + cy))%R)) by (intros; lra).
  rewrite !Rsum_map_shift. unfold mx, my. f_equal; field; exact HN.
Qed.


End Placement.


Lemma C3_witness :
  exists e,
    @init_new_paths (demo_backend false) 5 4 4 (demo_args random false None)
       (length (old_shapes demo_locals)) (Some (data (Var demo_grid false)))
       (demo_world 0) = Raise e /\
    @stage (demo_backend false) (demo_args random false None) demo_target 4 4 5
       demo_locals (demo_world 0) = Raise e /\
    ((0 <= num_segments (demo_args random false None))%Z ->
     (initial (demo_args random false None) = circle ->
      num_segments (demo_args random false None) <> 0%Z) ->
     e = IndexError).
Proof.
  apply (@C3_too_many_paths (demo_backend false) (demo_laws false)
           (demo_args random false None) demo_target 4 4 5 demo_locals
           (demo_world 0) (Var demo_grid false));
    [reflexivity | cbn; lia].
Defined.

Lemma demo_grid_flat :
  flatten (adaptive_avg_pool2d demo_grid 2 2) = [0; 0; 0; 0]%R.
Proof.
  unfold flatten, adaptive_avg_pool2d, demo_grid. cbn.
  replace ((0 + 0) / 1)%R with 0%R by lra. reflexivity.
Qed.

Lemma goes_before_refl (strict : bool) (v : R) : goes_before strict v v = negb strict.
Proof.
  unfold goes_before. destruct strict.
  - destruct (Rlt_dec v v); [lra | reflexivity].
  - destruct (Rle_dec v v); [reflexivity | lra].
Qed.

Lemma sort_indices_strict_ties : sort_indices true [0; 0; 0; 0]%R = [3; 2; 1; 0]%nat.
Proof.
  unfold sort_indices. cbn [length seq fold_right].
  repeat (cbn [sort_insert nth]; rewrite ?goes_before_refl; cbn [negb]).
  reflexivity.
Qed.

Lemma sort_indices_stable_ties : sort_indices false [0; 0; 0; 0]%R = [0; 1; 2; 3]%nat.
Proof.
  unfold sort_indices. cbn [length seq fold_right].
  repeat (cbn [sort_insert nth]; rewrite ?goes_before_refl; cbn [negb]).
  reflexivity.
Qed.


(** ** In-place updates of the stores *)

Section Stores.

Context {B : Backend}.

Lemma map_data_update {A : Type} (f : A -> A) (l : loc) (st : list (var A)) :
  map data (match st !! l with
            | Some v => <[l := Var (f (data v)) (requires_grad v)]> st
            | None => st
            end) = alter f l (map data st).
Proof.
  apply list_eq. intros j.
  change (map data st) with (data <$> st).
  destruct (st !! l) as [v|] eqn:E.
  - change (map data (<[l:=Var (f (data v)) (requires_grad v)]> st))
      with (data <$> <[l:=Var (f (data v)) (requires_grad v)]> st).
    rewrite list_fmap_insert. cbn [data].
    destruct (decide (l = j)) as [->|Hne].
    + rewrite list_lookup_alter_eq, list_lookup_fmap, E.
      apply list_lookup_insert_eq. rewrite length_fmap.
      eapply lookup_lt_Some, E.
    + rewrite list_lookup_alter_ne, list_lookup_insert_ne by exact Hne. reflexivity.
  - change (map data st) with (data <$> st).
    destruct (decide (l = j)) as [->|Hne].
    + rewrite list_lookup_alter_eq, list_lookup_fmap, E. reflexivity.
    + rewrite list_lookup_alter_ne by exact Hne. reflexivity.
Qed.

Lemma map_data_step_store {A : Type} (upd : loc -> A -> A) (ps : list loc)
    (st : list (var A)) :
  map data (step_store upd ps st)
  = fold_left (fun d l => alter (upd l) l d) ps (map data st).
Proof.
  unfold step_store. revert st. induction ps as [|l ps IH]; intros st; cbn [fold_left].
  - reflexivity.
  - rewrite IH, map_data_update. reflexivity.
Qed.

Lemma fold_alter_length {A X : Type} (f : X -> A -> A) (key : X -> nat)
    (xs : list X) (d : list A) :
  length (fold_left (fun d x => alter (f x) (key x) d) xs d) = length d.
Proof.
  revert d. induction xs as [|x xs IH]; intros d; cbn [fold_left].
  - reflexivity.
  - rewrite IH. apply length_alter.
Qed.

Lemma fold_alter_frame {A X : Type} (f : X -> A -> A) (key : X -> nat)
    (xs : list X) (d : list A) (l : nat) :
  ~ In l (map key xs) ->
  fold_left (fun d x => alter (f x) (key x) d) xs d !! l = d !! l.
Proof.
  revert d. induction xs as [|x xs IH]; intros d Hn; cbn [fold_left].
  - reflexivity.
  - cbn in Hn. rewrite IH by tauto. apply list_lookup_alter_ne. tauto.
Qed.

(** Clamping a colour twice is clamping it once. *)
Lemma clamp_in_unit x : in_unit (clamp 0 1 x).
Proof.
  unfold clamp, in_unit.
  destruct (Rlt_dec x 0); [lra|]. destruct (Rlt_dec 1 x); lra.
Qed.

Lemma clamp_id x : in_unit x -> clamp 0 1 x = x.
Proof.
  unfold clamp, in_unit. intros H.
  destruct (Rlt_dec x 0); [lra|]. destruct (Rlt_dec 1 x); [lra | reflexivity].
Qed.

Lemma map_clamp_in_unit c : Forall in_unit (map (clamp 0 1) c).
Proof. apply Forall_forall. intros x Hx. apply list_elem_of_In, in_map_iff in Hx as (y & <- & _). apply clamp_in_unit. Qed.

Lemma map_clamp_id c : Forall in_unit c -> map (clamp 0 1) c = c.
Proof.
  induction 1 as [|x c Hx Hc IH]; cbn; [reflexivity|].
  rewrite IH, clamp_id by exact Hx. reflexivity.
Qed.

Lemma clamp_twice (o : option (list R)) :
  map (clamp 0 1) <$> (map (clamp 0 1) <$> o) = map (clamp 0 1) <$> o.
Proof.
  destruct o as [c|]; cbn; [|reflexivity].
  rewrite (map_clamp_id (map (clamp 0 1) c)) by apply map_clamp_in_unit.
  reflexivity.
Qed.

Lemma clamp_fold_lookup (groups : list ShapeGroup) (d : list (list R)) (l : nat) :
  fold_left (fun d g => alter (map (clamp 0 1)) (fill_color g) d) groups d !! l
  = d !! l
  \/ fold_left (fun d g => alter (map (clamp 0 1)) (fill_color g) d) groups d !! l
     = map (clamp 0 1) <$> d !! l.
Proof.
  revert d. induction groups as [|g groups IH]; intros d; cbn [fold_left].
  - left. reflexivity.
  - destruct (decide (fill_color g = l)) as [Heq|Hne].
    + right. destruct (IH (alter (map (clamp 0 1)) (fill_color g) d)) as [E|E];
        rewrite E; subst l; rewrite list_lookup_alter_eq;
        [reflexivity | apply clamp_twice].
    + destruct (IH (alter (map (clamp 0 1)) (fill_color g) d)) as [E|E];
        rewrite E, list_lookup_alter_ne by exact Hne; auto.
Qed.

Lemma clamp_fold_in (groups : list ShapeGroup) (d : list (list R)) (g : ShapeGroup) :
  In g groups ->
  fold_left (fun d g => alter (map (clamp 0 1)) (fill_color g) d) groups d
    !! fill_color g
  = map (clamp 0 1) <$> d !! fill_color g.
Proof.
  revert d. induction groups as [|g0 groups IH]; intros d Hin; [contradiction|].
  cbn [fold_left]. destruct Hin as [->|Hin].
  - destruct (clamp_fold_lookup groups (alter (map (clamp 0 1)) (fill_color g) d)
                (fill_color g)) as [E|E]; rewrite E, list_lookup_alter_eq;
      [reflexivity | apply clamp_twice].
  - rewrite IH by exact Hin.
    destruct (decide (fill_color g0 = fill_color g)) as [E|Hne].
    + rewrite E, list_lookup_alter_eq. apply clamp_twice.
    + rewrite list_lookup_alter_ne by exact Hne. reflexivity.
Qed.

(** Lines 306-307 on the colour store. *)
Lemma clamp_loop (groups : list ShapeGroup) w :
  total (for_ groups (fun group _ => clamp_color (fill_color group)) tt)
        (fun _ w' =>
           pdata w' = pdata w /\
           cdata w' = fold_left (fun d g => alter (map (clamp 0 1)) (fill_color g) d)
                                groups (cdata w)) w.
Proof.
  revert w. induction groups as [|g groups IH]; intros w.
  - apply total_ret. auto.
  - cbn [for_ fold_left]. apply total_bind. eexists _, _; split; [reflexivity|].
    eapply total_mono; [apply IH|]. cbn beta. intros _ w' [E1 E2].
    split; [exact E1|]. rewrite E2. f_equal.
    unfold cdata. cbn [color_tensors].
    apply (map_data_update (map (clamp 0 1))).
Qed.

End Stores.

(** ** One iteration and the optimisation loop *)

Section Optimisation.

Context {B : Backend}.

Lemma iteration_spec cw ch target lw shapes groups t v w :
  total (iteration cw ch target lw shapes groups t v)
        (iteration_post cw ch target lw shapes groups t v w) w.
Proof.
  unfold iteration.
  apply total_bind. eexists _, _; split; [reflexivity|].
  apply total_bind. eexists _, _; split; [reflexivity|].
  apply total_bind. eexists _, _; split; [reflexivity|].
  apply total_bind. eexists _, _; split; [reflexivity|].
  apply total_bind. eapply total_mono; [apply clamp_loop|]. cbn beta.
  intros _ w' [EP EC]. apply total_ret.
  unfold pdata, cdata in EP, EC. cbn [point_tensors color_tensors] in EP, EC.
  rewrite map_data_step_store in EP. rewrite map_data_step_store in EC.
  fold (pdata w) in EP. fold (cdata w) in EC. fold (pdata w') in EP. fold (cdata w') in EC.
  unfold iteration_post. cbn [lv_loss_list lv_img lv_loss lv_points_optim
                               lv_color_optim scheduler_step params].
  repeat split.
  - rewrite EP. apply fold_alter_length.
  - rewrite EC, !fold_alter_length. reflexivity.
  - intros l Hl. rewrite EP.
    apply (fold_alter_frame _ (fun l => l)). rewrite map_id. exact Hl.
  - intros l c Hl Hc Hu.
    assert (E2 : fold_left (fun d l0 => alter (adam_color (ostate (lv_color_optim v))
                   (backward cw ch (Z.of_nat t) (scene_of w shapes groups) target lw) l0)
                   l0 d) (params (lv_color_optim v)) (cdata w) !! l = Some c).
    { rewrite <- Hc. apply (fold_alter_frame _ (fun l => l)). rewrite map_id. exact Hl. }
    rewrite EC.
    destruct (clamp_fold_lookup groups
                (fold_left (fun d l0 => alter (adam_color (ostate (lv_color_optim v))
                   (backward cw ch (Z.of_nat t) (scene_of w shapes groups) target lw) l0)
                   l0 d) (params (lv_color_optim v)) (cdata w)) l) as [E|E];
      rewrite E, E2; [reflexivity|].
    cbn. rewrite map_clamp_id by exact Hu. reflexivity.
  - intros g Hg Hlt. rewrite EC, clamp_fold_in by exact Hg.
    destruct (lookup_lt_is_Some_2
                (fold_left (fun d l0 => alter (adam_color (ostate (lv_color_optim v))
                   (backward cw ch (Z.of_nat t) (scene_of w shapes groups) target lw) l0)
                   l0 d) (params (lv_color_optim v)) (cdata w)) (fill_color g))
      as [c0 Hc0].
    { rewrite fold_alter_length. exact Hlt. }
    rewrite Hc0. cbn. eexists. split; [reflexivity | apply map_clamp_in_unit].
  - eexists. reflexivity.
Qed.

Lemma loop_spec cw ch target lw shapes groups (ts : list nat) v0 w1 :
  total (for_ ts (iteration cw ch target lw shapes groups) v0)
        (loop_post cw ch groups (length ts) v0 w1) w1.
Proof.
  apply (total_for (fun pre v w => loop_post cw ch groups (length pre) v0 w1 v w)).
  - unfold loop_post. cbn [length]. repeat split; auto; try lia.
    exists []. rewrite app_nil_r. auto.
  - intros pre t v w _ HI.
    eapply total_mono; [apply iteration_spec|]. cbn beta.
    intros v' w' HS. unfold loop_post, iteration_post in *.
    destruct HI as (L1 & L2 & F1 & F2 & C & (suf & EL & Ls) & _ & _ & _ & P1 & P2).
    destruct HS as (L1' & L2' & F1' & F2' & C' & EL' & (b & Ei) & Elo & P1' & P2').
    rewrite length_app. cbn [length].
    repeat split.
    + congruence.
    + congruence.
    + intros l Hl. rewrite F1' by (rewrite P1; exact Hl). apply F1, Hl.
    + intros l c Hl Hc Hu. apply F2'; [rewrite P2; exact Hl | apply F2; auto | exact Hu].
    + intros _ g Hg Hlt. apply C'; [exact Hg | rewrite L2; exact Hlt].
    + exists (suf ++ [loss_of (rendered cw ch t (scene_of w shapes groups)) target lw]).
      rewrite EL', EL, app_assoc, length_app. cbn [length]. split; [reflexivity | lia].
    + intros _. eexists. split; [exact Ei|]. split; reflexivity.
    + intros _. rewrite Elo. discriminate.
    + intros H. lia.
    + congruence.
    + congruence.
Qed.

End Optimisation.

(** ** The stage, step by step *)

Section Stage.

Context {B : Backend}.

Lemma bind_ok {A C : Type} (m : M A) (k : A -> M C) w r :
  bind m k w = Ok r -> exists a w', m w = Ok (a, w') /\ k a w' = Ok r.
Proof.
  unfold bind. destruct (m w) as [[a w']|e]; [|discriminate].
  intros H. exists a, w'. auto.
Qed.

Lemma fold_snoc_map {X Y : Type} (f : X -> Y) (l : list X) (acc : list Y) :
  fold_left (fun acc x => acc ++ [f x]) l acc = acc ++ map f l.
Proof.
  revert acc. induction l as [|x l IH]; intros acc; cbn.
  - rewrite app_nil_r. reflexivity.
  - rewrite IH, <- app_assoc. reflexivity.
Qed.

Lemma fold_keep {X Y : Type} (l : list X) (acc : Y) :
  fold_left (fun acc _ => acc) l acc = acc.
Proof. induction l; cbn; auto. Qed.

Lemma old_vars_spec args s w :
  total (old_vars args s)
        (fun r w' =>
           r = (if free args then map points (old_shapes s) else [],
                if (0 <? length (old_shapes s))%nat && free args
                then map fill_color (old_shape_groups s) else []) /\
           pdata w' = pdata w /\ cdata w' = cdata w) w.
Proof.
  unfold old_vars. destruct (0 <? length (old_shapes s))%nat eqn:E0.
  - cbn [andb]. destruct (free args); cbn iota.
    + apply total_bind.
      eapply total_mono;
        [apply (set_points_grad_loop (old_shapes s) points true
                  (fun x acc => acc ++ [points x]) [])|].
      cbn beta. intros r1 w1 (-> & P1 & C1).
      apply total_bind.
      eapply total_mono;
        [apply (set_color_grad_loop (old_shape_groups s) fill_color true
                  (fun x acc => acc ++ [fill_color x]) [])|].
      cbn beta. intros r2 w2 (-> & P2 & C2).
      apply total_ret. rewrite !fold_snoc_map. cbn [app].
      repeat split; congruence.
    + apply total_bind.
      eapply total_mono;
        [apply (set_points_grad_loop (old_shapes s) points false
                  (fun x acc => acc) [])|].
      cbn beta. intros r1 w1 (-> & P1 & C1).
      apply total_bind.
      eapply total_mono;
        [apply (set_color_grad_loop (old_shape_groups s) fill_color false
                  (fun x acc => acc) [])|].
      cbn beta. intros r2 w2 (-> & P2 & C2).
      apply total_ret. rewrite !fold_keep.
      repeat split; congruence.
  - apply total_ret. cbn [andb].
    apply Nat.ltb_ge in E0. destruct (old_shapes s); [|cbn in E0; lia].
    cbn. destruct (free args); auto.
Qed.

Lemma setup_stage_spec args cw ch k s w :
  wp (setup_stage args cw ch k s) (setup_post args cw ch k s w) w.
Proof.
  unfold setup_stage. apply wp_bind.
  eapply wp_mono; [apply init_new_paths_spec|]. cbn beta.
  intros [[[new_shapes new_groups] npv] ncv] w0 HP.
  apply wp_bind, total_is_wp. eapply total_mono; [apply old_vars_spec|]. cbn beta.
  intros [opv ocv] w1 (E & P1 & C1). inversion E; subst opv ocv. clear E.
  apply wp_ret. unfold setup_post.
  exists new_shapes, new_groups, npv, ncv. repeat split; auto.
  unfold init_post in *. destruct HP as (PTS & CS & HP). exists PTS, CS.
  rewrite P1, C1. exact HP.
Qed.

Lemma new_optimizer_ok ps lr T eta o w w' :
  new_optimizer ps lr T eta w = Ok (o, w') ->
  ps <> [] /\ o = mkOptimizer ps (Adam ps lr T eta) /\ w' = w.
Proof.
  unfold new_optimizer. destruct ps as [|p ps]; [discriminate|].
  intros H. inversion H. repeat split. discriminate.
Qed.

(** A stage that returns went through its three phases. *)
Lemma stage_inv args target cw ch k s w s' w' :
  stage args target cw ch k s w = Ok (s', w') ->
  exists shapes groups pv cv w1 v im,
    setup_stage args cw ch k s w = Ok (shapes, groups, pv, cv, w1) /\
    pv <> [] /\ cv <> [] /\
    for_ (range (num_iter args))
         (iteration cw ch target (loss_weight s) shapes groups)
         (initial_loop_vars args s pv cv) w1 = Ok (v, w') /\
    lv_img v = Some im /\
    s' = mkLocals shapes groups
           (Some (region_loss_of args (pixel_loss_of im target)))
           (WeightMap (loss_weight_of cw ch
                         (region_loss_of args (pixel_loss_of im target))))
           (loss_matrix s ++ [lv_loss_list v]) (Some im) (lv_loss v).
Proof.
  unfold stage. intros H.
  apply bind_ok in H as ([[[shapes groups] pv] cv] & w1 & Es & H).
  apply bind_ok in H as (v & w2 & Eo & H).
  unfold optimize in Eo.
  apply bind_ok in Eo as (po & wa & Ep & Eo).
  apply bind_ok in Eo as (co & wb & Ec & Eo).
  apply new_optimizer_ok in Ep as (Hpv & -> & ->).
  apply new_optimizer_ok in Ec as (Hcv & -> & ->).
  unfold finish_stage in H.
  apply bind_ok in H as (im & w3 & Ei & H).
  destruct (lv_img v) as [im'|] eqn:Eim; [|discriminate].
  inversion Ei; subst im' w3. inversion H; subst s' w'.
  exists shapes, groups, pv, cv, w1, v, im. repeat split; auto.
Qed.

Lemma loop_returns cw ch target lw shapes groups ts v0 w1 :
  exists v w2,
    for_ ts (iteration cw ch target lw shapes groups) v0 w1 = Ok (v, w2) /\
    loop_post cw ch groups (length ts) v0 w1 v w2.
Proof. apply loop_spec. Qed.

Lemma loop_facts cw ch target lw shapes groups ts v0 w1 v w2 :
  for_ ts (iteration cw ch target lw shapes groups) v0 w1 = Ok (v, w2) ->
  loop_post cw ch groups (length ts) v0 w1 v w2.
Proof. intros E. eapply total_elim; [apply loop_spec | exact E]. Qed.

(** A stage that returns ran at least one iteration: otherwise the
    [img] read on line 317 is unbound. *)
Lemma stage_ran args target cw ch k s w s' w' :
  scene_inv args s w ->
  stage args target cw ch k s w = Ok (s', w') ->
  (1 <= num_iter args)%Z.
Proof.
  intros (_ & _ & _ & Himg & _) H.
  apply stage_inv in H as (shapes & groups & pv & cv & w1 & v & im
                           & _ & _ & _ & El & Eim & _).
  apply loop_facts in El. unfold loop_post in El.
  destruct El as (_ & _ & _ & _ & _ & _ & _ & _ & H0 & _).
  destruct (Z.le_gt_cases 1 (num_iter args)) as [|Hlt]; [assumption|].
  exfalso. unfold range in H0. rewrite length_seq in H0.
  rewrite H0 in Eim by lia. cbn in Eim. rewrite Himg in Eim by lia. discriminate.
Qed.

Lemma stage_preserves_inv args target cw ch k s w s' w' :
  scene_inv args s w ->
  stage args target cw ch k s w = Ok (s', w') ->
  scene_inv args s' w'.
Proof.
  intros HI H. pose proof (stage_ran _ _ _ _ _ _ _ _ _ HI H) as HT.
  destruct HI as (IL & IP & IG & Himg & Hreg).
  apply stage_inv in H as (shapes & groups & pv & cv & w1 & v & im
                           & Es & _ & _ & El & Eim & ->).
  pose proof (wp_elim _ _ _ _ _ (setup_stage_spec args cw ch k s w) Es) as HS.
  destruct HS as (nsh & ngr & npv & ncv & HP & -> & -> & _ & _).
  destruct (init_post_lengths _ _ _ _ _ _ _ _ _ _ _ _ HP)
    as (Ls & Lg & _ & _ & LP & LC & _ & FC).
  apply loop_facts in El. unfold range in El. rewrite length_seq in El.
  destruct El as (L1 & L2 & _ & _ & HC & _).
  unfold scene_inv. cbn [old_shapes old_shape_groups img region_loss].
  repeat split.
  - rewrite !length_app. lia.
  - intros i p Hi. rewrite L1, LP.
    apply lookup_app_Some in Hi as [Hi | [Hge Hi]].
    + apply IP in Hi. lia.
    + destruct (init_post_shape _ _ _ _ _ _ _ _ _ _ _ _ _ _ HP Hi) as (-> & _).
      cbn [path_at points]. apply lookup_lt_Some in Hi. lia.
  - apply lookup_app_Some in H as [Hi | [Hge Hi]].
    + apply IG in Hi. tauto.
    + destruct (init_post_group _ _ _ _ _ _ _ _ _ _ _ _ _ _ HP Hi) as (-> & _).
      cbn [group_at shape_ids]. f_equal. lia.
  - apply HC; [lia | apply list_elem_of_In; eapply list_elem_of_lookup_2; exact H |].
    rewrite LC.
    apply lookup_app_Some in H as [Hi | [Hge Hi]].
    + apply IG in Hi as (_ & c & Hc & _). apply lookup_lt_Some in Hc. lia.
    + destruct (init_post_group _ _ _ _ _ _ _ _ _ _ _ _ _ _ HP Hi) as (-> & _).
      cbn [group_at fill_color]. apply lookup_lt_Some in Hi. lia.
  - intros HT'. lia.
  - intros im' _. discriminate.
Qed.

Lemma init_locals_inv args cw ch w0 s w :
  bind (py_seed 1234) (fun _ => init_locals cw ch) w0 = Ok (s, w) ->
  point_tensors w0 = [] -> color_tensors w0 = [] ->
  scene_inv args s w /\ old_shapes s = [] /\ pdata w = [] /\ cdata w = [].
Proof.
  unfold bind, py_seed, init_locals. intros H Hp Hc.
  destruct (cw * ch =? 0)%nat; [discriminate|].
  inversion H; subst s w. unfold scene_inv, pdata, cdata. cbn. rewrite Hp, Hc.
  repeat split; auto; try discriminate; intros i x Hx; discriminate.
Qed.

Lemma reachable_inv args target s w : reachable args target s w -> scene_inv args s w.
Proof.
  induction 1 as [w0 s w E Hp Hc | s w k s' w' _ IH E].
  - eapply init_locals_inv; eauto.
  - eapply stage_preserves_inv; eauto.
Qed.

End Stage.

(** ** The loss-weight map *)

Section Weights.

Local Open Scope R_scope.

Lemma Rsum_app (l1 l2 : list R) : Rsum (l1 ++ l2) = Rsum l1 + Rsum l2.
Proof.
  induction l1 as [|a l1 IH]; cbn.
  - unfold Rsum. cbn. lra.
  - unfold Rsum in *. cbn. rewrite IH. lra.
Qed.

Lemma Rsum_cons (a : R) (l : list R) : Rsum (a :: l) = a + Rsum l.
Proof. reflexivity. Qed.

Lemma Rsum_pos (l : list R) : Forall (fun v => 0 < v) l -> l <> [] -> 0 < Rsum l.
Proof.
  induction 1 as [|a l Ha Hl IH]; intros Hne; [contradiction|].
  rewrite Rsum_cons. destruct l as [|b l].
  - unfold Rsum. cbn. lra.
  - assert (0 < Rsum (b :: l)) by (apply IH; discriminate). lra.
Qed.

Lemma Rsum_map_div (l : list R) (s : R) : Rsum (map (fun v => v / s) l) = Rsum l / s.
Proof.
  induction l as [|a l IH]; cbn [map]; rewrite ?Rsum_cons.
  - unfold Rsum. cbn. lra.
  - rewrite IH. lra.
Qed.

Lemma softmax_length (x : list R) : length (softmax x) = length x.
Proof. unfold softmax. rewrite !length_map. reflexivity. Qed.

Lemma softmax_pos (x : list R) : Forall (fun v => 0 < v) (softmax x).
Proof.
  unfold softmax.
  assert (He : Forall (fun v => 0 < v) (map exp x)).
  { apply Forall_forall. intros v Hv.
    apply list_elem_of_In, in_map_iff in Hv as (a & <- & _). apply exp_pos. }
  destruct x as [|a x]; [constructor|].
  assert (Hs : 0 < Rsum (map exp (a :: x))) by (apply Rsum_pos; [exact He | discriminate]).
  apply Forall_forall. intros v Hv.
  apply list_elem_of_In, in_map_iff in Hv as (e & <- & Hin).
  rewrite Forall_forall in He. apply list_elem_of_In, He in Hin.
  apply Rdiv_lt_0_compat; assumption.
Qed.

(** Every window of adaptive pooling is a non-empty range of valid
    indices. *)
Lemma window_range (i out inp : nat) :
  (i < out)%nat -> (0 < inp)%nat ->
  window i out inp <> [] /\ forall r, In r (window i out inp) -> (r < inp)%nat.
Proof.
  intros Hi Hinp. unfold window, start_index, end_index.
  assert (Hout : (out <> 0)%nat) by lia.
  assert (Hs : ((i * inp) / out < ((i + 1) * inp + out - 1) / out)%nat).
  { apply Nat.lt_le_trans with ((i * inp + out) / out)%nat.
    - replace (i * inp + out)%nat with (i * inp + 1 * out)%nat by lia.
      rewrite Nat.div_add by exact Hout. lia.
    - apply Nat.Div0.div_le_mono. nia. }
  assert (He : (((i + 1) * inp + out - 1) / out <= inp)%nat).
  { apply Nat.lt_succ_r. apply Nat.Div0.div_lt_upper_bound. nia. }
  split.
  - destruct (((i + 1) * inp + out - 1) / out - (i * inp) / out)%nat eqn:E; [lia|].
    discriminate.
  - intros r Hr. apply in_seq in Hr. lia.
Qed.

Lemma flat_map_pos {X : Type} (f : X -> list R) (l : list X) :
  (forall x, In x l -> Forall (fun v => 0 < v) (f x)) ->
  Forall (fun v => 0 < v) (flat_map f l).
Proof.
  induction l as [|x l IH]; cbn; intros H; [constructor|].
  apply Forall_app. split; [apply H; auto | apply IH; intros; apply H; auto].
Qed.

Lemma pooled_pos (t : tensor2 R) (oh ow i j : nat) :
  (0 < rows t)%nat -> (0 < cols t)%nat -> (i < oh)%nat -> (j < ow)%nat ->
  (forall r c, (r < rows t)%nat -> (c < cols t)%nat -> 0 < at_ t r c) ->
  0 < at_ (adaptive_avg_pool2d t oh ow) i j.
Proof.
  intros Hr Hc Hi Hj Hpos. cbn [adaptive_avg_pool2d at_].
  destruct (window_range i oh (rows t) Hi Hr) as [Hner Hinr].
  destruct (window_range j ow (cols t) Hj Hc) as [Hnec Hinc].
  apply Rdiv_lt_0_compat.
  - apply Rsum_pos.
    + apply flat_map_pos. intros r Hrin. apply Forall_forall. intros v Hv.
      apply list_elem_of_In, in_map_iff in Hv as (c & <- & Hcin).
      apply Hpos; [apply Hinr | apply Hinc]; assumption.
    + destruct (window i oh (rows t)) as [|r wr]; [contradiction|].
      destruct (window j ow (cols t)) as [|c wc]; [contradiction|].
      cbn. discriminate.
  - apply lt_0_INR.
    destruct (window i oh (rows t)) as [|r wr]; [contradiction|].
    destruct (window j ow (cols t)) as [|c wc]; [contradiction|].
    cbn [length]. lia.
Qed.

Lemma Forall_flatten (P : R -> Prop) (t : tensor2 R) :
  (forall i j, (i < rows t)%nat -> (j < cols t)%nat -> P (at_ t i j)) ->
  Forall P (flatten t).
Proof.
  intros H. unfold flatten. apply Forall_concat, Forall_forall.
  intros row Hrow. apply list_elem_of_In, in_map_iff in Hrow as (i & <- & Hi).
  apply in_seq in Hi. apply Forall_forall. intros v Hv.
  apply list_elem_of_In, in_map_iff in Hv as (j & <- & Hj). apply in_seq in Hj.
  apply H; lia.
Qed.

Lemma sum_all_pos (t : tensor2 R) :
  (0 < rows t)%nat -> (0 < cols t)%nat ->
  (forall i j, (i < rows t)%nat -> (j < cols t)%nat -> 0 < at_ t i j) ->
  0 < sum_all t.
Proof.
  intros Hr Hc H. unfold sum_all. apply Rsum_pos.
  - apply Forall_flatten. exact H.
  - intros E. apply (f_equal (@length R)) in E.
    rewrite length_flatten in E. cbn in E. nia.
Qed.

Lemma flatten_div_scalar (t : tensor2 R) (s : R) :
  flatten (div_scalar t s) = map (fun v => v / s) (flatten t).
Proof.
  unfold flatten, div_scalar. cbn [rows cols at_].
  induction (seq 0 (rows t)) as [|i l IH]; cbn [map concat]; [reflexivity|].
  rewrite map_app, IH, map_map. reflexivity.
Qed.

Lemma sum_all_div_scalar (t : tensor2 R) (s : R) :
  sum_all (div_scalar t s) = sum_all t / s.
Proof. unfold sum_all. rewrite flatten_div_scalar. apply Rsum_map_div. Qed.

Lemma reshape_softmax_pos (t : tensor2 R) (i j : nat) :
  (i < rows t)%nat -> (j < cols t)%nat ->
  0 < at_ (reshape_as (softmax (flatten t)) t) i j.
Proof.
  intros Hi Hj. cbn [reshape_as at_].
  pose proof (softmax_pos (flatten t)) as Hp. rewrite Forall_forall in Hp.
  apply Hp, list_elem_of_In, nth_In.
  rewrite softmax_length, length_flatten. nia.
Qed.

(** Lines 319-324: the next weight map is positive everywhere, sums to
    one, has the shape of the canvas and is detached. *)
Lemma loss_weight_of_spec (cw ch : nat) (rl : var (tensor2 R)) :
  (0 < cw)%nat -> (0 < ch)%nat ->
  (0 < rows (data rl))%nat -> (0 < cols (data rl))%nat ->
  let m := loss_weight_of cw ch rl in
  requires_grad m = false /\
  rows (data m) = ch /\ cols (data m) = cw /\
  (forall y x, (y < ch)%nat -> (x < cw)%nat -> 0 < at_ (data m) y x) /\
  sum_all (data m) = 1.
Proof.
  intros Hcw Hch Hr Hc m.
  set (sm := reshape_as (softmax (flatten (data rl))) (data rl)).
  set (up := interpolate_area sm ch cw).
  assert (Hup : forall y x, (y < ch)%nat -> (x < cw)%nat -> 0 < at_ up y x).
  { intros y x Hy Hx. unfold up, interpolate_area.
    apply pooled_pos; cbn [sm reshape_as rows cols]; try assumption.
    intros r c Hr' Hc'. apply reshape_softmax_pos; assumption. }
  assert (HS : 0 < sum_all up).
  { apply sum_all_pos; cbn [up interpolate_area adaptive_avg_pool2d rows cols];
      assumption. }
  repeat split.
  - intros y x Hy Hx.
    change (at_ (data m) y x) with (at_ up y x / sum_all up).
    apply Rdiv_lt_0_compat; [apply Hup; assumption | exact HS].
  - change (data m) with (div_scalar up (sum_all up)).
    rewrite sum_all_div_scalar. field. lra.
Qed.

End Weights.

(** ** The claims about stages *)

Section Claims.

Context {B : Backend}.

Lemma ids_concat (gs : list ShapeGroup) :
  (forall i g, gs !! i = Some g -> shape_ids g = [i]) ->
  concat (map shape_ids gs) = seq 0 (length gs).
Proof.
  induction gs as [|g gs IH] using rev_ind; intros H; [reflexivity|].
  rewrite map_app, concat_app, length_app, IH.
  - cbn [map concat length]. rewrite app_nil_r, Nat.add_1_r, seq_S.
    rewrite (H (length gs) g); [reflexivity|].
    rewrite lookup_app_r by lia. rewrite Nat.sub_diag. reflexivity.
  - intros i g' Hi. apply H. rewrite lookup_app_l; [exact Hi|].
    eapply lookup_lt_Some, Hi.
Qed.

Lemma reachable_canvas args target s w :
  reachable args target s w -> (0 < cols target)%nat /\ (0 < rows target)%nat.
Proof.
  induction 1 as [w0 s w E _ _ | s w k s' w' _ IH _]; [|exact IH].
  unfold bind, py_seed, init_locals in E.
  destruct (Nat.eqb_spec (cols target * rows target) 0); [discriminate | nia].
Qed.

(** C1: a stage that returns appends exactly [num_paths] shapes and as
    many groups to the scene; the [j]-th group it creates refers to the
    single shape index [number of old shapes + j]; so after the stage every
    group at position [i] refers to exactly shape [i], which exists, and no
    shape index occurs in two groups. *)
Theorem C1_shapes_and_group_ids args target s w k s' w' :
  reachable args target s w ->
  stage args target (cols target) (rows target) k s w = Ok (s', w') ->
  (0 <= k)%Z ->
  exists new_shapes new_groups,
    old_shapes s' = old_shapes s ++ new_shapes /\
    old_shape_groups s' = old_shape_groups s ++ new_groups /\
    (Z.of_nat (length (old_shapes s')) = Z.of_nat (length (old_shapes s)) + k)%Z /\
    length new_groups = length new_shapes /\
    (forall j g, new_groups !! j = Some g ->
                 shape_ids g = [(length (old_shapes s) + j)%nat]) /\
    (forall i g, old_shape_groups s' !! i = Some g ->
                 shape_ids g = [i] /\ (i < length (old_shapes s'))%nat) /\
    NoDup (concat (map shape_ids (old_shape_groups s'))).
Proof.
  intros Hr E Hk.
  pose proof (reachable_inv _ _ _ _ Hr) as HI.
  pose proof (stage_preserves_inv _ _ _ _ _ _ _ _ _ HI E) as HI'.
  apply stage_inv in E as (shapes & groups & pv & cv & w1 & v & im
                           & Es & _ & _ & _ & _ & ->).
  pose proof (wp_elim _ _ _ _ _ (setup_stage_spec _ _ _ _ _ _) Es) as HS.
  destruct HS as (nsh & ngr & npv & ncv & HP & -> & -> & _ & _).
  destruct (init_post_lengths _ _ _ _ _ _ _ _ _ _ _ _ HP) as (Ls & Lg & _).
  destruct HI' as (IL & _ & IG & _). cbn [old_shapes old_shape_groups] in *.
  exists nsh, ngr. repeat split.
  - rewrite length_app. lia.
  - lia.
  - intros j g Hj.
    destruct (init_post_group _ _ _ _ _ _ _ _ _ _ _ _ _ _ HP Hj) as (-> & _).
    reflexivity.
  - apply IG in H. tauto.
  - rewrite <- IL. eapply lookup_lt_Some, H.
  - rewrite ids_concat; [apply NoDup_seq|]. intros i g Hi. apply IG in Hi. tauto.
Qed.

(** *** Stages return *)

Lemma setup_stage_total {L : BackendLaws B} args cw ch k s w :
  (0 <= k)%Z ->
  (0 <= num_segments args)%Z ->
  (initial args = circle -> num_segments args <> 0%Z) ->
  (region_loss s <> None ->
   (0 <= pool_size args)%Z /\ (k <= pool_size args * pool_size args)%Z) ->
  total (setup_stage args cw ch k s) (setup_post args cw ch k s w) w.
Proof.
  intros Hk Hn Hc Hp.
  assert (HT : total (setup_stage args cw ch k s) (fun _ _ => True) w).
  { unfold setup_stage. apply total_bind.
    eapply total_mono.
    - apply init_new_paths_total; [exact Hn | exact Hc |].
      destruct (region_loss s) as [rl|]; cbn [option_map]; [|exact I].
      destruct Hp as [Hp0 Hp1]; [discriminate|].
      rewrite length_norm_postion by exact Hk.
      rewrite <- Z2Nat.inj_mul by lia. lia.
    - cbn beta. intros [[[nsh ngr] npv] ncv] w0 _.
      apply total_bind. eapply total_mono; [apply old_vars_spec|]. cbn beta.
      intros [opv ocv] w1 _. apply total_ret. exact I. }
  eapply total_mono; [apply (total_wp _ _ _ _ HT (setup_stage_spec args cw ch k s w))|].
  cbn beta. intros a w' [_ H]. exact H.
Qed.

Lemma stage_total {L : BackendLaws B} args target cw ch k s w :
  (1 <= k)%Z ->
  (1 <= num_iter args)%Z ->
  (0 <= num_segments args)%Z ->
  (initial args = circle -> num_segments args <> 0%Z) ->
  (region_loss s <> None ->
   (0 <= pool_size args)%Z /\ (k <= pool_size args * pool_size args)%Z) ->
  total (stage args target cw ch k s) (fun _ _ => True) w.
Proof.
  intros Hk HT Hn Hc Hp. unfold stage. apply total_bind.
  eapply total_mono; [apply (setup_stage_total args cw ch k s w); auto; lia|].
  cbn beta. intros [[[shapes groups] pv] cv] w1 HS.
  destruct HS as (nsh & ngr & npv & ncv & HP & -> & -> & -> & ->).
  destruct (init_post_lengths _ _ _ _ _ _ _ _ _ _ _ _ HP) as (Ls & Lg & -> & -> & _).
  apply total_bind. unfold optimize.
  assert (Hnsh : exists p nsh', nsh = p :: nsh').
  { destruct nsh as [|p nsh']; [cbn in Ls; lia | eauto]. }
  assert (Hngr : exists g ngr', ngr = g :: ngr').
  { destruct ngr as [|g ngr']; [cbn in Lg; lia | eauto]. }
  destruct Hnsh as (p0 & nsh' & ->). destruct Hngr as (g0 & ngr' & ->).
  apply total_bind.
  assert (Hpv : forall (l : list loc) x xs, exists y ys, l ++ x :: xs = y :: ys).
  { intros [|a l] x xs; cbn; eauto. }
  destruct (Hpv (if free args then map points (old_shapes s) else [])
                (points p0) (map points nsh')) as (y1 & ys1 & E1).
  destruct (Hpv (if (0 <? length (old_shapes s))%nat && free args
                 then map fill_color (old_shape_groups s) else [])
                (fill_color g0) (map fill_color ngr')) as (y2 & ys2 & E2).
  cbn [map]. rewrite E1, E2. cbn [new_optimizer].
  apply total_ret. apply total_bind. apply total_ret.
  eapply total_mono; [apply loop_spec|]. cbn beta.
  intros v w2 HL. unfold finish_stage.
  destruct HL as (_ & _ & _ & _ & _ & _ & Himg & _).
  destruct Himg as (im & -> & _).
  { unfold range. rewrite length_seq. lia. }
  apply total_bind. apply total_ret. apply total_ret. exact I.
Qed.

(** *** Inside the optimisation loop *)

(** Iteration [t] of a loop of [N] iterations: the prefix before it, the
    iteration itself, and the rest. *)
Lemma loop_split {St : Type} (body : nat -> St -> M St) (N t : nat) v0 w1 v w2 :
  (t < N)%nat ->
  for_ (seq 0 N) body v0 w1 = Ok (v, w2) ->
  exists v_t w_t v_t' w_t',
    for_ (seq 0 t) body v0 w1 = Ok (v_t, w_t) /\
    body t v_t w_t = Ok (v_t', w_t') /\
    for_ (seq (S t) (N - S t)) body v_t' w_t' = Ok (v, w2).
Proof.
  intros Ht E.
  replace N with (t + S (N - S t))%nat in E by lia.
  rewrite seq_app, for_app in E. cbn [seq Nat.add] in E.
  apply bind_ok in E as (v_t & w_t & E1 & E2).
  cbn [for_] in E2. apply bind_ok in E2 as (v_t' & w_t' & E2 & E3).
  exists v_t, w_t, v_t', w_t'. auto.
Qed.

Lemma optimize_inv args target cw ch lw shapes groups pv cv s w1 v w2 :
  optimize args target cw ch lw shapes groups pv cv s w1 = Ok (v, w2) ->
  pv <> [] /\ cv <> [] /\
  for_ (range (num_iter args)) (iteration cw ch target lw shapes groups)
       (initial_loop_vars args s pv cv) w1 = Ok (v, w2).
Proof.
  unfold optimize. intros E.
  apply bind_ok in E as (po & wa & Ep & E).
  apply bind_ok in E as (co & wb & Ec & E).
  apply new_optimizer_ok in Ep as (Hpv & -> & ->).
  apply new_optimizer_ok in Ec as (Hcv & -> & ->).
  auto.
Qed.

(** Every tensor of the scene handed to the optimisers is in the store. *)
Lemma setup_valid args cw ch k s w shapes groups pv cv w1 :
  scene_inv args s w ->
  setup_post args cw ch k s w (shapes, groups, pv, cv) w1 ->
  (forall p, In p shapes -> (points p < length (pdata w1))%nat) /\
  (forall g, In g groups -> (fill_color g < length (cdata w1))%nat).
Proof.
  intros (_ & IP & IG & _) (nsh & ngr & npv & ncv & HP & -> & -> & _ & _).
  destruct (init_post_lengths _ _ _ _ _ _ _ _ _ _ _ _ HP)
    as (Ls & Lg & _ & _ & LP & LC & _).
  split.
  - intros p Hp. apply list_elem_of_In, list_elem_of_lookup in Hp as [i Hi].
    rewrite LP. apply lookup_app_Some in Hi as [Hi | [Hge Hi]].
    + apply IP in Hi. lia.
    + destruct (init_post_shape _ _ _ _ _ _ _ _ _ _ _ _ _ _ HP Hi) as (-> & _).
      cbn [path_at points]. apply lookup_lt_Some in Hi. lia.
  - intros g Hg. apply list_elem_of_In, list_elem_of_lookup in Hg as [i Hi].
    rewrite LC. apply lookup_app_Some in Hi as [Hi | [Hge Hi]].
    + apply IG in Hi as (_ & c & Hc & _). apply lookup_lt_Some in Hc. lia.
    + destruct (init_post_group _ _ _ _ _ _ _ _ _ _ _ _ _ _ HP Hi) as (-> & _).
      cbn [group_at fill_color]. apply lookup_lt_Some in Hi. lia.
Qed.

(** C6: in every stage, after any positive number of iterations of the
    optimisation loop, every channel of the fill colour of every shape
    group of the scene lies in [0, 1], whatever the optimisers wrote. *)
Theorem C6_fill_colors_in_unit_interval args target s w k shapes groups pv cv w1
    (n : nat) (v0 v : loop_vars) (w2 : world) :
  reachable args target s w ->
  setup_stage args (cols target) (rows target) k s w = Ok (shapes, groups, pv, cv, w1) ->
  (0 < n)%nat ->
  for_ (seq 0 n)
       (iteration (cols target) (rows target) target (loss_weight s) shapes groups)
       v0 w1 = Ok (v, w2) ->
  forall g, In g groups ->
    exists c, cdata w2 !! fill_color g = Some c /\ Forall in_unit c.
Proof.
  intros Hr Es Hn El g Hg.
  pose proof (reachable_inv _ _ _ _ Hr) as HI.
  pose proof (wp_elim _ _ _ _ _ (setup_stage_spec _ _ _ _ _ _) Es) as HS.
  destruct (setup_valid _ _ _ _ _ _ _ _ _ _ _ HI HS) as [_ HV].
  apply loop_facts in El. rewrite length_seq in El.
  destruct El as (_ & _ & _ & _ & HC & _).
  apply HC; auto.
Qed.

(** C7: in frozen mode no point or colour tensor of a shape of an earlier
    stage is among the parameters of the stage's optimisers, and its value
    at the end of the optimisation loop equals its value at the start of
    the stage and of the loop; in free mode all of them are among the
    parameters. *)
Theorem C7_frozen_parameters_unchanged args target s w k shapes groups pv cv w1 v w2 :
  reachable args target s w ->
  setup_stage args (cols target) (rows target) k s w = Ok (shapes, groups, pv, cv, w1) ->
  optimize args target (cols target) (rows target) (loss_weight s)
           shapes groups pv cv s w1 = Ok (v, w2) ->
  params (lv_points_optim v) = pv /\
  params (lv_color_optim v) = cv /\
  (free args = false ->
   (forall p, In p (old_shapes s) ->
      ~ In (points p) pv /\
      exists d, pdata w !! points p = Some d /\ pdata w1 !! points p = Some d
                /\ pdata w2 !! points p = Some d) /\
   (forall g, In g (old_shape_groups s) ->
      ~ In (fill_color g) cv /\
      exists c, cdata w !! fill_color g = Some c /\ cdata w1 !! fill_color g = Some c
                /\ cdata w2 !! fill_color g = Some c)) /\
  (free args = true ->
   (forall p, In p (old_shapes s) -> In (points p) pv) /\
   (forall g, In g (old_shape_groups s) -> In (fill_color g) cv)).
Proof.
  intros Hr Es Eo.
  pose proof (reachable_inv _ _ _ _ Hr) as HI.
  pose proof (wp_elim _ _ _ _ _ (setup_stage_spec _ _ _ _ _ _) Es) as HS.
  apply optimize_inv in Eo as (_ & _ & El). apply loop_facts in El.
  destruct El as (_ & _ & F1 & F2 & _ & _ & _ & _ & _ & P1 & P2).
  cbn [initial_loop_vars lv_points_optim lv_color_optim params] in F1, F2, P1, P2.
  destruct HI as (IL & IP & IG & _).
  destruct HS as (nsh & ngr & npv & ncv & HP & -> & -> & -> & ->).
  destruct (init_post_lengths _ _ _ _ _ _ _ _ _ _ _ _ HP)
    as (Ls & Lg & -> & -> & LP & LC & FP & FC).
  split; [exact P1|]. split; [exact P2|]. split.
  - intros Hfree. rewrite Hfree, andb_false_r in *. cbn [app] in *. split.
    + intros p Hp. apply list_elem_of_In, list_elem_of_lookup in Hp as [i Hi].
      pose proof (IP i p Hi) as Hlt.
      assert (Hnot : ~ In (points p) (map points nsh)).
      { intros Hin. apply in_map_iff in Hin as (q & Eq & Hq).
        apply list_elem_of_In, list_elem_of_lookup in Hq as [j Hj].
        destruct (init_post_shape _ _ _ _ _ _ _ _ _ _ _ _ _ _ HP Hj) as (-> & _).
        cbn [path_at points] in Eq. lia. }
      split; [exact Hnot|].
      destruct (lookup_lt_is_Some_2 (pdata w) (points p) Hlt) as [d Hd].
      exists d. rewrite F1 by exact Hnot. rewrite FP by exact Hlt. auto.
    + intros g Hg. apply list_elem_of_In, list_elem_of_lookup in Hg as [i Hi].
      destruct (IG i g Hi) as (_ & c & Hc & Hu).
      pose proof (lookup_lt_Some _ _ _ Hc) as Hlt.
      assert (Hnot : ~ In (fill_color g) (map fill_color ngr)).
      { intros Hin. apply in_map_iff in Hin as (q & Eq & Hq).
        apply list_elem_of_In, list_elem_of_lookup in Hq as [j Hj].
        destruct (init_post_group _ _ _ _ _ _ _ _ _ _ _ _ _ _ HP Hj) as (-> & _).
        cbn [group_at fill_color] in Eq. lia. }
      split; [exact Hnot|].
      exists c. split; [exact Hc|].
      assert (Hc1 : cdata w1 !! fill_color g = Some c) by (rewrite FC by exact Hlt; exact Hc).
      split; [exact Hc1|]. apply F2; auto.
  - intros Hfree. rewrite Hfree in *. split.
    + intros p Hp. apply in_or_app. left. apply in_map. exact Hp.
    + intros g Hg. apply in_or_app. left.
      destruct (old_shape_groups s) as [|g0 gs] eqn:Eg; [contradiction|].
      destruct (old_shapes s) as [|p0 ps]; [cbn in IL; lia|].
      cbn [length Nat.ltb Nat.leb andb]. apply in_map. exact Hg.
Qed.

(** C8: a stage that returns ran its optimisation loop for exactly
    [num_iter] iterations, and the loss list it appends to [loss_matrix]
    has exactly [num_iter] entries, the [t]-th being the loss of the image
    rendered in iteration [t], from the scene as the first [t] iterations
    left it. *)
Theorem C8_fixed_iteration_count args target s w k s' w' :
  reachable args target s w ->
  stage args target (cols target) (rows target) k s w = Ok (s', w') ->
  exists shapes groups pv cv w1 ll,
    setup_stage args (cols target) (rows target) k s w
    = Ok (shapes, groups, pv, cv, w1) /\
    loss_matrix s' = loss_matrix s ++ [ll] /\
    Z.of_nat (length ll) = num_iter args /\
    forall t, (t < length ll)%nat ->
      exists v_t w_t,
        for_ (seq 0 t)
             (iteration (cols target) (rows target) target (loss_weight s) shapes groups)
             (initial_loop_vars args s pv cv) w1 = Ok (v_t, w_t) /\
        ll !! t = Some (loss_of (rendered (cols target) (rows target) t
                                          (scene_of w_t shapes groups))
                                target (loss_weight s)).
Proof.
  intros Hr E.
  pose proof (reachable_inv _ _ _ _ Hr) as HI.
  pose proof (stage_ran _ _ _ _ _ _ _ _ _ HI E) as HT.
  apply stage_inv in E as (shapes & groups & pv & cv & w1 & v & im
                           & Es & _ & _ & El & _ & ->).
  exists shapes, groups, pv, cv, w1, (lv_loss_list v).
  pose proof (loop_facts _ _ _ _ _ _ _ _ _ _ _ El) as HL.
  unfold range in HL. rewrite length_seq in HL.
  destruct HL as (_ & _ & _ & _ & _ & (suf & Esuf & Lsuf) & _).
  cbn [initial_loop_vars lv_loss_list app] in Esuf. subst suf.
  split; [exact Es|]. split; [reflexivity|]. split; [lia|].
  intros t Ht. rewrite Lsuf in Ht. unfold range in El.
  destruct (loop_split _ _ t _ _ _ _ Ht El) as (v_t & w_t & v_t' & w_t' & E1 & E2 & E3).
  exists v_t, w_t. split; [exact E1|].
  apply loop_facts in E1. apply loop_facts in E3.
  destruct E1 as (_ & _ & _ & _ & _ & (suf1 & Es1 & Ls1) & _).
  destruct E3 as (_ & _ & _ & _ & _ & (suf3 & Es3 & Ls3) & _).
  pose proof (total_elim _ _ _ _ _ (iteration_spec _ _ _ _ _ _ _ _ _) E2) as H2.
  destruct H2 as (_ & _ & _ & _ & _ & Es2 & _).
  cbn [initial_loop_vars lv_loss_list app] in Es1.
  rewrite Es3, Es2, Es1, <- app_assoc. rewrite length_seq in Ls1.
  rewrite lookup_app_r by lia. rewrite Ls1, Nat.sub_diag. reflexivity.
Qed.

(** The error map a stage leaves behind. *)
Lemma stage_error_map args target s w k s' w' :
  reachable args target s w ->
  stage args target (cols target) (rows target) k s w = Ok (s', w') ->
  exists shapes groups pv cv w1 v_last w_last im,
    setup_stage args (cols target) (rows target) k s w
    = Ok (shapes, groups, pv, cv, w1) /\
    for_ (seq 0 (Z.to_nat (num_iter args) - 1))
         (iteration (cols target) (rows target) target (loss_weight s) shapes groups)
         (initial_loop_vars args s pv cv) w1 = Ok (v_last, w_last) /\
    img s' = Some im /\
    data im = rendered (cols target) (rows target) (Z.to_nat (num_iter args) - 1)
                       (scene_of w_last shapes groups) /\
    region_loss s'
    = Some (Var (adaptive_avg_pool2d (data (pixel_loss_of im target))
                   (Z.to_nat (pool_size args)) (Z.to_nat (pool_size args)))
                (requires_grad im)) /\
    rows (data (pixel_loss_of im target)) = rows target /\
    cols (data (pixel_loss_of im target)) = cols target /\
    forall y x,
      at_ (data (pixel_loss_of im target)) y x
      = sqrt (sq_err (at_ (data im) y x) (at_ target y x)).
Proof.
  intros Hr E.
  pose proof (reachable_inv _ _ _ _ Hr) as HI.
  pose proof (stage_ran _ _ _ _ _ _ _ _ _ HI E) as HT.
  apply stage_inv in E as (shapes & groups & pv & cv & w1 & v & im
                           & Es & _ & _ & El & Eim & ->).
  unfold range in El.
  assert (Ht : (Z.to_nat (num_iter args) - 1 < Z.to_nat (num_iter args))%nat) by lia.
  destruct (loop_split _ _ _ _ _ _ _ Ht El) as (v_t & w_t & v_t' & w_t' & E1 & E2 & E3).
  replace (Z.to_nat (num_iter args) - S (Z.to_nat (num_iter args) - 1))%nat
    with 0%nat in E3 by lia.
  cbn in E3. inversion E3; subst v_t' w_t'.
  pose proof (total_elim _ _ _ _ _ (iteration_spec _ _ _ _ _ _ _ _ _) E2) as H2.
  destruct H2 as (_ & _ & _ & _ & _ & _ & (b & Hb) & _).
  rewrite Eim in Hb. inversion Hb; subst im.
  exists shapes, groups, pv, cv, w1, v_t, w_t. eexists.
  cbn [img region_loss data requires_grad].
  repeat split; try reflexivity; exact Es || exact E1.
Qed.

(** C5 (as amended): at the end of a stage that returns, the image kept
    for the error map is the one rendered in the last iteration, of the
    size of the target; the per-pixel residual pooled into the region-loss
    grid is, at every pixel, the SQUARE ROOT of the sum over the colour
    channels of the squared difference to the target, and has the shape of
    the canvas. *)
Theorem C5_residual_is_root_of_squared_error args target s w k s' w' :
  reachable args target s w ->
  stage args target (cols target) (rows target) k s w = Ok (s', w') ->
  exists shapes groups pv cv w1 v_last w_last im,
    setup_stage args (cols target) (rows target) k s w
    = Ok (shapes, groups, pv, cv, w1) /\
    for_ (seq 0 (Z.to_nat (num_iter args) - 1))
         (iteration (cols target) (rows target) target (loss_weight s) shapes groups)
         (initial_loop_vars args s pv cv) w1 = Ok (v_last, w_last) /\
    img s' = Some im /\
    data im = rendered (cols target) (rows target) (Z.to_nat (num_iter args) - 1)
                       (scene_of w_last shapes groups) /\
    region_loss s'
    = Some (Var (adaptive_avg_pool2d (data (pixel_loss_of im target))
                   (Z.to_nat (pool_size args)) (Z.to_nat (pool_size args)))
                (requires_grad im)) /\
    rows (data (pixel_loss_of im target)) = rows target /\
    cols (data (pixel_loss_of im target)) = cols target /\
    forall y x,
      at_ (data (pixel_loss_of im target)) y x
      = sqrt (sq_err (at_ (data im) y x) (at_ target y x)).
Proof. apply stage_error_map. Qed.

(** C4: after the error-map update of a stage that returns, with a
    positive pool size, the weight map handed to the next stage has the
    shape of the canvas, is positive (so non-negative) at every pixel, sums
    to one over the canvas in exact arithmetic, and is detached (it does
    not require a gradient). *)
Theorem C4_loss_weight_normalised args target s w k s' w' :
  reachable args target s w ->
  stage args target (cols target) (rows target) k s w = Ok (s', w') ->
  (0 < pool_size args)%Z ->
  exists m,
    loss_weight s' = WeightMap m /\
    requires_grad m = false /\
    rows (data m) = rows target /\ cols (data m) = cols target /\
    (forall y x, (y < rows target)%nat -> (x < cols target)%nat ->
                 (0 <= at_ (data m) y x)%R) /\
    sum_all (data m) = 1%R.
Proof.
  intros Hr E Hp.
  destruct (reachable_canvas _ _ _ _ Hr) as [Hcw Hch].
  apply stage_inv in E as (shapes & groups & pv & cv & w1 & v & im
                           & _ & _ & _ & _ & _ & ->).
  cbn [loss_weight]. eexists. split; [reflexivity|].
  destruct (loss_weight_of_spec (cols target) (rows target)
              (region_loss_of args (pixel_loss_of im target)) Hcw Hch)
    as (H1 & H2 & H3 & H4 & H5).
  - cbn. lia.
  - cbn. lia.
  - repeat split; auto. intros y x Hy Hx. apply Rlt_le. apply H4; assumption.
Qed.

End Claims.

(** ** The geometry of [get_bezier_circle] *)

Section BezierCircle.

Context {B : Backend}.

Local Open Scope R_scope.

Lemma fold_append_flat_map {X Y : Type} (f : X -> list Y) (l : list X) (init : list Y) :
  fold_left (fun acc i => acc ++ f i) l init = init ++ flat_map f l.
Proof.
  revert init. induction l as [|x l IH]; intros init; cbn.
  - rewrite app_nil_r. reflexivity.
  - rewrite IH, <- app_assoc. reflexivity.
Qed.

Lemma rev_flat_map {X Y : Type} (f : X -> list Y) (l : list X) :
  rev (flat_map f l) = flat_map (fun i => rev (f i)) (rev l).
Proof.
  induction l as [|x l IH]; cbn; [reflexivity|].
  rewrite rev_app_distr, IH, flat_map_app. cbn. rewrite app_nil_r. reflexivity.
Qed.

(** Position [3 * j + c] of a concatenation of blocks of three. *)
Lemma flat_map_block3 {X Y : Type} (g : X -> list Y) (l : list X) (j c : nat) (x : X) :
  (forall x, length (g x) = 3%nat) -> (c < 3)%nat ->
  l !! j = Some x ->
  flat_map g l !! (3 * j + c)%nat = g x !! c.
Proof.
  intros Hg Hc. revert j. induction l as [|y l IH]; intros j Hj; [discriminate|].
  cbn [flat_map]. destruct j as [|j].
  - cbn in Hj. inversion Hj; subst y. rewrite lookup_app_l by (rewrite Hg; lia).
    reflexivity.
  - cbn in Hj. rewrite lookup_app_r by (rewrite Hg; lia). rewrite Hg.
    replace (3 * S j + c - 3)%nat with (3 * j + c)%nat by lia. apply IH, Hj.
Qed.

Lemma rev_seq_lookup (n j : nat) : (j < n)%nat -> rev (seq 0 n) !! j = Some (n - 1 - j)%nat.
Proof.
  revert j. induction n as [|n IH]; intros j Hj; [lia|].
  rewrite seq_S, rev_app_distr. cbn [rev app Nat.add].
  destruct j as [|j]; cbn.
  - f_equal. lia.
  - rewrite IH by lia. f_equal. lia.
Qed.

(** The value returned for a given bias: the segments in reverse order,
    each reversed, scaled by the radius and moved by the bias. *)
Lemma get_bezier_circle_value (r : R) (n : Z) (b : R * R) w :
  n <> 0%Z ->
  get_bezier_circle r n (Some b) w
  = Ok (map (fun p => (fst p * r + fst b, snd p * r + snd b))
            (flat_map (fun i => rev (circle_segment
                                       (degrees (4 / 3 * tan (PI / IZR (2 * n))))
                                       (sqrt (1 + (4 / 3 * tan (PI / IZR (2 * n))) ^ 2))
                                       (360 / IZR n) i))
                      (rev (range n))), w).
Proof.
  intros Hn. unfold get_bezier_circle, bind, ret.
  destruct (Z.eqb_spec n 0) as [E|_]; [contradiction|].
  rewrite fold_append_flat_map, rev_app_distr.
  cbn [rev app]. rewrite removelast_last, rev_flat_map. reflexivity.
Qed.

Lemma sqrt_one_plus_sq (q : R) : sqrt (1 + q ^ 2) * sqrt (1 + q ^ 2) = 1 + q ^ 2.
Proof. apply sqrt_sqrt. nra. Qed.

Lemma unit_circle (t : R) : cos t * cos t + sin t * sin t = 1.
Proof. pose proof (sin2_cos2 t) as H. unfold Rsqr in H. lra. Qed.


(** X2: for [segments >= 1] the first point returned by
    [get_bezier_circle] is [(radius + bias_x, bias_y)], the start point
    [(1, 0)] that line 76 removed from the end of the list: the last anchor
    closes the path where it began. *)
Theorem X2_bezier_circle_closes (r : R) (n : Z) (b : R * R) w :
  (1 <= n)%Z ->
  exists pts,
    get_bezier_circle r n (Some b) w = Ok (pts, w) /\
    pts !! 0%nat = Some (r + fst b, snd b).
Proof.
  intros Hn. eexists. split; [apply get_bezier_circle_value; lia|].
  set (q := 4 / 3 * tan (PI / IZR (2 * n))).
  set (g := fun i => rev (circle_segment (degrees q) (sqrt (1 + q ^ 2)) (360 / IZR n) i)).
  assert (Hl : rev (range n) !! 0%nat = Some (Z.to_nat n - 1 - 0)%nat)
    by (apply rev_seq_lookup; lia).
  assert (Hg : forall x, length (g x) = 3%nat) by reflexivity.
  rewrite lookup_map.
  change 0%nat with (3 * 0 + 0)%nat at 1.
  rewrite (flat_map_block3 g _ 0 0 _ Hg) by (lia || exact Hl).
  cbn [g circle_segment rev app lookup list_lookup option_map fst snd].
  assert (Ha : deg2rad (INR (Z.to_nat n - 1 - 0) * (360 / IZR n) + 360 / IZR n)
               = 2 * PI).
  { replace (INR (Z.to_nat n - 1 - 0)) with (IZR n - 1).
    - unfold deg2rad. field. apply not_0_IZR. lia.
    - rewrite INR_IZR_INZ. replace (Z.of_nat (Z.to_nat n - 1 - 0)) with (n - 1)%Z by lia.
      rewrite minus_IZR. reflexivity. }
  rewrite Ha, cos_2PI, sin_2PI. do 2 f_equal; lra.
Qed.

End BezierCircle.

(** ** More on error-guided placement and pooling *)

Section PlacementMore.

Context {B : Backend} {L : BackendLaws B}.

Lemma slice_to_In {X : Type} (k : Z) (l : list X) (x : X) :
  In x (slice_to k l) -> In x l.
Proof.
  unfold slice_to. destruct (0 <=? k)%Z; intros H.
  - rewrite <- (firstn_skipn (Z.to_nat k) l). apply in_or_app. auto.
  - rewrite <- (firstn_skipn (length l - Z.to_nat (- k)) l). apply in_or_app. auto.
Qed.

(** X3: with a positive pool size, every position computed on lines
    128-133 lies strictly inside the unit square, whatever [num_paths] is:
    both coordinates of every row of [norm_postion] are in (0, 1), so the
    centroid of an error-guided shape lands inside the canvas. *)
Theorem X3_norm_postion_inside_unit_square args k (pl : tensor2 R) :
  (0 < pool_size args)%Z ->
  Forall (fun c => (0 < fst c < 1)%R /\ (0 < snd c < 1)%R) (norm_postion args k pl).
Proof.
  intros Hp. unfold norm_postion. apply Forall_forall. intros c Hc.
  apply list_elem_of_In, in_map_iff in Hc as (idx & <- & Hidx).
  apply slice_to_In in Hidx.
  assert (Hlt : (idx < Z.to_nat (pool_size args) * Z.to_nat (pool_size args))%nat).
  { eapply Permutation_in in Hidx; [|apply torch_sort_perm].
    apply in_seq in Hidx. rewrite length_flatten in Hidx. cbn in Hidx. lia. }
  set (p := pool_size args) in *.
  assert (Hidx' : (0 <= Z.of_nat idx < p * p)%Z).
  { split; [lia|]. rewrite <- (Z2Nat.id p) at 1 2 by lia. nia. }
  pose proof (Z.mod_pos_bound (Z.of_nat idx) p Hp) as Hm.
  assert (Hq : (0 <= Z.quot (Z.of_nat idx) p < p)%Z).
  { rewrite Z.quot_div_nonneg by lia. split.
    - apply Z.div_pos; lia.
    - apply Z.div_lt_upper_bound; lia. }
  cbn [fst snd].
  assert (HP : (0 < IZR p)%R) by (apply IZR_lt; exact Hp).
  assert (Hm1 : (0 <= IZR (Z.of_nat idx mod p) <= IZR p - 1)%R).
  { split; [apply IZR_le; lia|]. rewrite <- minus_IZR. apply IZR_le. lia. }
  assert (Hq1 : (0 <= IZR (Z.quot (Z.of_nat idx) p) <= IZR p - 1)%R).
  { split; [apply IZR_le; lia|]. rewrite <- minus_IZR. apply IZR_le. lia. }
  repeat split.
  - apply Rdiv_lt_0_compat; lra.
  - apply Rmult_lt_reg_r with (IZR p); [exact HP|].
    unfold Rdiv. rewrite Rmult_assoc, Rinv_l by lra. lra.
  - apply Rdiv_lt_0_compat; lra.
  - apply Rmult_lt_reg_r with (IZR p); [exact HP|].
    unfold Rdiv. rewrite Rmult_assoc, Rinv_l by lra. lra.
Qed.

Lemma window_same_size (i n : nat) : (i < n)%nat -> window i n n = [i].
Proof.
  intros Hi. unfold window, start_index, end_index.
  assert (Hs : ((i * n) / n = i)%nat) by (apply Nat.div_mul; lia).
  assert (He : (((i + 1) * n + n - 1) / n = i + 1)%nat).
  { replace ((i + 1) * n + n - 1)%nat with ((n - 1) + (i + 1) * n)%nat by lia.
    rewrite Nat.div_add by lia. rewrite Nat.div_small by lia. lia. }
  rewrite Hs, He. replace (i + 1 - i)%nat with 1%nat by lia. reflexivity.
Qed.

(** Pooling an array to its own size changes nothing. *)
Lemma pool_same_size (t : tensor2 R) (i j : nat) :
  (i < rows t)%nat -> (j < cols t)%nat ->
  at_ (adaptive_avg_pool2d t (rows t) (cols t)) i j = at_ t i j.
Proof.
  intros Hi Hj. cbn [adaptive_avg_pool2d at_].
  rewrite !window_same_size by assumption.
  cbn [flat_map map app length Nat.mul Nat.add]. unfold Rsum. cbn. field.
Qed.

Lemma flatten_ext (t u : tensor2 R) :
  rows t = rows u -> cols t = cols u ->
  (forall i j, (i < rows t)%nat -> (j < cols t)%nat -> at_ t i j = at_ u i j) ->
  flatten t = flatten u.
Proof.
  intros Hr Hc H. unfold flatten. rewrite <- Hr, <- Hc. f_equal.
  apply map_ext_in. intros i Hi. apply in_seq in Hi.
  apply map_ext_in. intros j Hj. apply in_seq in Hj. apply H; lia.
Qed.

(** X4: [main] hands [init_new_paths] the grid that line 318 already
    pooled to [pool_size x pool_size], and line 125 pools it again to the
    same size: the second pooling is the identity, so the cells that lines
    126-127 rank are exactly the entries of the stage's [region_loss]. *)
Theorem X4_second_pooling_is_identity args (pixel_loss : var (tensor2 R)) :
  let region_loss := region_loss_of args pixel_loss in
  flatten (adaptive_avg_pool2d (data region_loss)
             (Z.to_nat (pool_size args)) (Z.to_nat (pool_size args)))
  = flatten (data region_loss).
Proof.
  intros region_loss. apply flatten_ext; try reflexivity.
  intros i j Hi Hj. apply (pool_same_size (data region_loss)); assumption.
Qed.

End PlacementMore.

(** ** What the random draws give *)

Section RandomDraws.

Context {B : Backend} {RL : RandomLaws B}.

Lemma wp_py_random_range (Q : R -> world -> Prop) w :
  (forall r s, (0 <= r < 1)%R ->
               Q r (World s (np_state w) (point_tensors w) (color_tensors w))) ->
  wp py_random Q w.
Proof.
  intros H. unfold wp, py_random.
  pose proof (random_random_range (py_state w)) as Hr.
  destruct (random_random (py_state w)) as [r s]. apply H. exact Hr.
Qed.

Lemma new_path_colors cw ch args n_old norm i acc w :
  wp (new_path cw ch args n_old norm i acc)
     (fun _ w' => exists col,
        cdata w' = cdata w ++ [col] /\ length col = 4%nat /\
        Forall (fun x => (0 <= x < 1)%R) col) w.
Proof.
  unfold new_path. destruct acc as [shapes groups].
  destruct (_ <? _)%Z; [apply wp_raise|].
  apply wp_bind. eapply wp_mono; [apply rng_only_new_points|]. cbn beta.
  intros pre w1 (E1 & E2).
  apply wp_bind, wp_alloc_points. cbn [py_state np_state point_tensors color_tensors].
  apply wp_bind, wp_py_random_range; intros c0 s0 H0.
  cbn [py_state np_state point_tensors color_tensors].
  apply wp_bind, wp_py_random_range; intros c1 s1 H1.
  cbn [py_state np_state point_tensors color_tensors].
  apply wp_bind, wp_py_random_range; intros c2 s2 H2.
  cbn [py_state np_state point_tensors color_tensors].
  apply wp_bind, wp_py_random_range; intros c3 s3 H3.
  cbn [py_state np_state point_tensors color_tensors].
  apply wp_bind, wp_alloc_color. cbn [py_state np_state point_tensors color_tensors].
  apply wp_ret. exists [c0; c1; c2; c3].
  unfold cdata. cbn [color_tensors]. rewrite E2, map_app. cbn [map data].
  repeat split; auto; try tauto.
Qed.

Lemma init_new_paths_colors k cw ch args n_old pixel_loss w :
  wp (init_new_paths k cw ch args n_old pixel_loss)
     (fun _ w' => forall l c, (length (cdata w) <= l)%nat -> cdata w' !! l = Some c ->
                  length c = 4%nat /\ Forall (fun x => (0 <= x < 1)%R) c) w.
Proof.
  unfold init_new_paths. apply wp_bind.
  eapply wp_mono.
  - apply (wp_for (fun _ (_ : list Path * list ShapeGroup) w' =>
             forall l c, (length (cdata w) <= l)%nat -> cdata w' !! l = Some c ->
                         length c = 4%nat /\ Forall (fun x => (0 <= x < 1)%R) c)).
    + intros l c Hl Hc. apply lookup_lt_Some in Hc. lia.
    + intros p i acc w1 _ HI.
      eapply wp_mono; [apply new_path_colors|]. cbn beta.
      intros _ w2 (col & E & Lc & Hcol) l c Hl Hc. rewrite E in Hc.
      apply lookup_app_Some in Hc as [Hc | [Hge Hc]]; [apply (HI l c Hl Hc)|].
      destruct (l - length (cdata w1))%nat; [|discriminate].
      cbn in Hc. inversion Hc; subst c. auto.
  - cbn beta. intros [shapes groups] w1 HI.
    apply wp_bind, total_is_wp.
    eapply total_mono; [apply mark_points_trainable|]. cbn beta.
    intros _ w2 [_ C2].
    apply wp_bind, total_is_wp.
    eapply total_mono; [apply mark_colors_trainable|]. cbn beta.
    intros _ w3 [_ C3]. apply wp_ret. rewrite C3, C2. exact HI.
Qed.


(** *** The random polyline *)

Lemma chain_snoc d pts p q :
  chain d pts -> last pts = Some p ->
  (Rabs (fst q - fst p) <= d)%R -> (Rabs (snd q - snd p) <= d)%R ->
  chain d (pts ++ [q]).
Proof.
  intros Hc Hl Hx Hy i a b Ha Hb.
  apply lookup_app_Some in Hb as [Hb | [Hge Hb]].
  - rewrite lookup_app_l in Ha by (apply lookup_lt_Some in Hb; lia).
    apply (Hc i a b Ha Hb).
  - destruct (S i - length pts)%nat eqn:Ei; [|discriminate].
    cbn in Hb. inversion Hb; subst b.
    rewrite lookup_app_l in Ha by lia.
    rewrite last_lookup in Hl.
    replace (Nat.pred (length pts)) with i in Hl by lia.
    rewrite Hl in Ha. inversion Ha; subst a. auto.
Qed.

Lemma jitter_close p w :
  wp (jitter 0.05 p)
     (fun q _ => (Rabs (fst q - fst p) <= 0.025)%R /\ (Rabs (snd q - snd p) <= 0.025)%R) w.
Proof.
  unfold jitter.
  apply wp_bind, wp_py_random_range; intros dx s1 Hx.
  apply wp_bind, wp_py_random_range; intros dy s2 Hy.
  apply wp_ret. cbn [fst snd]. split; apply Rabs_le; lra.
Qed.

Lemma random_points_chain (n : Z) w :
  wp (random_points n)
     (fun pts _ =>
        chain 0.025 pts /\
        exists p0, pts !! 0%nat = Some p0 /\
                   (0 <= fst p0 < 1)%R /\ (0 <= snd p0 < 1)%R) w.
Proof.
  unfold random_points.
  apply wp_bind, wp_py_random_range; intros x s1 Hx.
  apply wp_bind, wp_py_random_range; intros y s2 Hy.
  apply wp_bind.
  eapply wp_mono.
  - apply (wp_for (fun pre (st : (R * R) * list (R * R)) _ =>
             chain 0.025 (snd st) /\ snd st !! 0%nat = Some (x, y) /\
             ((length pre < Z.to_nat n)%nat -> last (snd st) = Some (fst st)))).
    + cbn [fst snd]. split; [|split; [reflexivity | intros _; reflexivity]].
      intros i a b Ha Hb. destruct i; discriminate.
    + intros pre j [p0 points] w1 [post Hq] (Hc & H0 & Hl).
      apply range_split_index in Hq as [-> Hp]. cbn [fst snd] in *.
      specialize (Hl Hp).
      apply wp_bind. eapply wp_mono; [apply jitter_close|]. cbn beta.
      intros p1 w2 [H1x H1y].
      apply wp_bind. eapply wp_mono; [apply jitter_close|]. cbn beta.
      intros p2 w3 [H2x H2y].
      apply wp_bind. eapply wp_mono; [apply jitter_close|]. cbn beta.
      intros p3 w4 [H3x H3y].
      assert (C1 : chain 0.025 (points ++ [p1]))
        by (eapply chain_snoc; eauto).
      assert (C2 : chain 0.025 ((points ++ [p1]) ++ [p2]))
        by (eapply chain_snoc; [exact C1 | apply last_snoc | |]; assumption).
      assert (H0' : forall t, (points ++ t) !! 0%nat = Some (x, y)).
      { intros t. rewrite lookup_app_l; [exact H0|]. apply lookup_lt_Some in H0. exact H0. }
      destruct (Z.ltb_spec (Z.of_nat (length pre)) (n - 1)); apply wp_ret; cbn [fst snd].
      * split; [eapply chain_snoc; [exact C2 | apply last_snoc | |]; assumption|].
        split; [rewrite <- !app_assoc; apply H0'|]. intros _. apply last_snoc.
      * split; [exact C2|]. split; [rewrite <- !app_assoc; apply H0'|].
        rewrite length_app. cbn [length]. intros Hlt. lia.
  - cbn beta. intros [p0 points] w1 (Hc & H0 & _). apply wp_ret. cbn [snd] in *.
    split; [exact Hc|]. exists (x, y). cbn [fst snd]. auto.
Qed.


End RandomDraws.

(** ** Whole runs *)

Section Runs.

Context {B : Backend}.

Lemma Rsum_nonneg (l : list R) : Forall (fun v => (0 <= v)%R) l -> (0 <= Rsum l)%R.
Proof.
  induction 1 as [|a l Ha Hl IH]; [unfold Rsum; cbn; lra|].
  rewrite Rsum_cons. lra.
Qed.

Lemma sq_err_nonneg (a b : rgb) : (0 <= sq_err a b)%R.
Proof.
  destruct a as [[a0 a1] a2], b as [[b0 b1] b2]. unfold sq_err.
  pose proof (pow2_ge_0 (a0 - b0)). pose proof (pow2_ge_0 (a1 - b1)).
  pose proof (pow2_ge_0 (a2 - b2)). lra.
Qed.

(** The loss of lines 291-292 is not negative under a positive weight. *)
Lemma loss_of_nonneg (im target : tensor2 rgb) (lw : weight) :
  rows im = rows target -> cols im = cols target ->
  weight_positive target lw -> (0 <= loss_of im target lw)%R.
Proof.
  intros Hr Hc Hw. unfold loss_of, weighted_sum.
  destruct lw as [c|m]; cbn in Hw; unfold sum_all; apply Rsum_nonneg, Forall_flatten;
    cbn [rows cols at_ sq_err_map]; intros i j Hi Hj.
  - pose proof (sq_err_nonneg (at_ im i j) (at_ target i j)). nra.
  - pose proof (sq_err_nonneg (at_ im i j) (at_ target i j)).
    assert (0 < at_ (data m) i j)%R by (apply Hw; lia). nra.
Qed.

Lemma loop_losses_nonneg cw ch target lw shapes groups ts v0 w1 v w2 :
  cw = cols target -> ch = rows target -> weight_positive target lw ->
  Forall (fun l => (0 <= l)%R) (lv_loss_list v0) ->
  for_ ts (iteration cw ch target lw shapes groups) v0 w1 = Ok (v, w2) ->
  Forall (fun l => (0 <= l)%R) (lv_loss_list v).
Proof.
  intros -> -> Hw H0 E.
  refine (wp_elim _ (fun v _ => Forall (fun l => (0 <= l)%R) (lv_loss_list v)) _ _ _ _ E).
  apply (wp_for (fun _ v _ => Forall (fun l => (0 <= l)%R) (lv_loss_list v))); [exact H0|].
  intros p t v1 w3 _ HI. apply total_is_wp.
  eapply total_mono; [apply iteration_spec|]. cbn beta.
  intros v' w' (_ & _ & _ & _ & _ & EL & _). rewrite EL.
  apply Forall_app. split; [exact HI|]. constructor; [|constructor].
  apply loss_of_nonneg; [reflexivity | reflexivity | exact Hw].
Qed.

Lemma reachable_weight args target s w :
  reachable args target s w -> (0 < pool_size args)%Z ->
  weight_positive target (loss_weight s).
Proof.
  intros Hr Hp. induction Hr as [w0 s w E _ _ | s w k s' w' Hr IH E].
  - unfold bind, py_seed, init_locals in E.
    destruct (Nat.eqb_spec (cols target * rows target) 0); [discriminate|].
    inversion E; subst. cbn. apply Rdiv_lt_0_compat; [lra|].
    apply lt_0_INR. lia.
  - destruct (reachable_canvas _ _ _ _ Hr) as [Hcw Hch].
    apply stage_inv in E as (shapes & groups & pv & cv & w1 & v & im
                             & _ & _ & _ & _ & _ & ->).
    cbn [loss_weight weight_positive].
    destruct (loss_weight_of_spec (cols target) (rows target)
                (region_loss_of args (pixel_loss_of im target)) Hcw Hch)
      as (_ & _ & _ & H4 & _); [cbn; lia | cbn; lia |].
    exact H4.
Qed.

(** What one returning stage adds to the books of [main]. *)
Lemma stage_accounting args target s w k s' w' :
  reachable args target s w ->
  stage args target (cols target) (rows target) k s w = Ok (s', w') ->
  exists ll,
    loss_matrix s' = loss_matrix s ++ [ll] /\
    Z.of_nat (length ll) = num_iter args /\
    length (old_shapes s') = (length (old_shapes s) + Z.to_nat k)%nat /\
    length (old_shape_groups s') = length (old_shapes s') /\
    ((0 < pool_size args)%Z -> Forall (fun l => (0 <= l)%R) ll).
Proof.
  intros Hr E.
  pose proof (reachable_inv _ _ _ _ Hr) as HI.
  pose proof (stage_ran _ _ _ _ _ _ _ _ _ HI E) as HT.
  pose proof (stage_preserves_inv _ _ _ _ _ _ _ _ _ HI E) as (IL' & _).
  apply stage_inv in E as (shapes & groups & pv & cv & w1 & v & im
                           & Es & _ & _ & El & _ & ->).
  cbn [loss_matrix old_shapes old_shape_groups] in *.
  exists (lv_loss_list v).
  pose proof (loop_facts _ _ _ _ _ _ _ _ _ _ _ El) as HL.
  unfold range in HL. rewrite length_seq in HL.
  destruct HL as (_ & _ & _ & _ & _ & (suf & Esuf & Lsuf) & _).
  cbn [initial_loop_vars lv_loss_list app] in Esuf. subst suf.
  pose proof (wp_elim _ _ _ _ _ (setup_stage_spec _ _ _ _ _ _) Es) as HS.
  destruct HS as (nsh & ngr & npv & ncv & HP & -> & -> & _ & _).
  destruct (init_post_lengths _ _ _ _ _ _ _ _ _ _ _ _ HP) as (Ls & _).
  repeat split.
  - lia.
  - rewrite length_app. lia.
  - exact IL'.
  - intros Hp. eapply loop_losses_nonneg; [reflexivity | reflexivity | | | exact El].
    + apply (reachable_weight _ _ _ _ Hr Hp).
    + constructor.
Qed.

Lemma Zsum_snoc (l : list Z) (k : Z) : Zsum (l ++ [k]) = (Zsum l + k)%Z.
Proof. unfold Zsum. induction l as [|a l IH]; cbn; [lia|]. rewrite IH. lia. Qed.

(** The stage loop of [main], from any state at its head. *)
Lemma stages_accounting args target ks s0 w0 :
  reachable args target s0 w0 ->
  wp (for_ ks (stage args target (cols target) (rows target)) s0)
     (fun s w =>
        reachable args target s w /\
        length (loss_matrix s) = (length (loss_matrix s0) + length ks)%nat /\
        (Forall (fun ll => Z.of_nat (length ll) = num_iter args) (loss_matrix s0) ->
         Forall (fun ll => Z.of_nat (length ll) = num_iter args) (loss_matrix s)) /\
        length (old_shape_groups s) = length (old_shapes s) /\
        (Forall (fun k => (0 <= k)%Z) ks ->
         Z.of_nat (length (old_shapes s))
         = (Z.of_nat (length (old_shapes s0)) + Zsum ks)%Z) /\
        ((0 < pool_size args)%Z ->
         Forall (Forall (fun l => (0 <= l)%R)) (loss_matrix s0) ->
         Forall (Forall (fun l => (0 <= l)%R)) (loss_matrix s))) w0.
Proof.
  intros Hr0.
  apply (wp_for (fun pre s w =>
        reachable args target s w /\
        length (loss_matrix s) = (length (loss_matrix s0) + length pre)%nat /\
        (Forall (fun ll => Z.of_nat (length ll) = num_iter args) (loss_matrix s0) ->
         Forall (fun ll => Z.of_nat (length ll) = num_iter args) (loss_matrix s)) /\
        length (old_shape_groups s) = length (old_shapes s) /\
        (Forall (fun k => (0 <= k)%Z) pre ->
         Z.of_nat (length (old_shapes s))
         = (Z.of_nat (length (old_shapes s0)) + Zsum pre)%Z) /\
        ((0 < pool_size args)%Z ->
         Forall (Forall (fun l => (0 <= l)%R)) (loss_matrix s0) ->
         Forall (Forall (fun l => (0 <= l)%R)) (loss_matrix s)))).
  - repeat split; auto.
    + apply (reachable_inv _ _ _ _ Hr0).
    + intros _. cbn. lia.
  - intros pre k s w _ (Hr & Ll & Hlen & Hg & Hsum & Hnn).
    unfold wp. destruct (stage args target (cols target) (rows target) k s w)
      as [[s' w']|e] eqn:E; [|exact I].
    destruct (stage_accounting _ _ _ _ _ _ _ Hr E) as (ll & EM & LT & LS & LG & NN).
    repeat split.
    + eapply reach_stage; eauto.
    + rewrite EM, !length_app, Ll. cbn [length]. lia.
    + intros H0. rewrite EM. apply Forall_app. split; [auto|].
      constructor; [exact LT | constructor].
    + exact LG.
    + intros Hall. apply Forall_app in Hall as [Hpre Hk].
      inversion Hk; subst. rewrite Zsum_snoc, LS, Nat2Z.inj_add, Hsum by exact Hpre.
      lia.
    + intros Hp H0. rewrite EM. apply Forall_app. split; [auto|].
      constructor; [auto | constructor].
Qed.

Lemma main_inv args ks target w0 s w :
  main args ks target w0 = Ok (s, w) ->
  exists s0 w1,
    bind (py_seed 1234) (fun _ => init_locals (cols target) (rows target)) w0
    = Ok (s0, w1) /\
    s0 = mkLocals [] [] None (Uniform (1 / INR (cols target * rows target))) [] None None /\
    for_ ks (stage args target (cols target) (rows target)) s0 w1 = Ok (s, w).
Proof.
  unfold main. intros E.
  apply bind_ok in E as ([] & wa & E1 & E).
  apply bind_ok in E as (s0 & w1 & E2 & E).
  apply bind_ok in E as (s1 & w2 & E3 & E).
  destruct (loss s1); [|discriminate]. inversion E; subst s1 w2.
  exists s0, w1. split; [|split].
  - unfold bind. rewrite E1. exact E2.
  - unfold init_locals in E2. destruct (_ =? _)%nat; [discriminate|].
    inversion E2. reflexivity.
  - exact E3.
Qed.

(** X10: when [main] returns, [loss_matrix] has one trajectory per entry
    of [num_paths_list], each of exactly [num_iter] losses, so every
    [loss_matrix[i][ii]] of lines 350-355 is in bounds; there are as many
    groups as shapes; and if no count is negative the number of shapes is
    [sum(num_paths_list)], the total that line 344 prints. *)
Theorem X10_run_accounting args ks target w0 s w :
  point_tensors w0 = [] -> color_tensors w0 = [] ->
  main args ks target w0 = Ok (s, w) ->
  length (loss_matrix s) = length ks /\
  Forall (fun ll => Z.of_nat (length ll) = num_iter args) (loss_matrix s) /\
  length (old_shape_groups s) = length (old_shapes s) /\
  (Forall (fun k => (0 <= k)%Z) ks ->
   Z.of_nat (length (old_shapes s)) = Zsum ks).
Proof.
  intros Hp Hc E. apply main_inv in E as (s0 & w1 & E0 & Es0 & El).
  assert (Hr : reachable args target s0 w1) by (eapply reach_init; eauto).
  pose proof (wp_elim _ _ _ _ _ (stages_accounting args target ks s0 w1 Hr) El) as H.
  cbn beta in H. destruct H as (_ & Ll & Hlen & Hg & Hsum & _).
  subst s0. cbn [loss_matrix old_shapes length] in *.
  repeat split; auto.
Qed.

(** X7: when [main] returns with a positive pool size, every loss it
    recorded is non-negative: the first stage weighs the squared error by
    [1/(W*H)], the later stages by a positive weight map. *)
Theorem X7_recorded_losses_nonnegative args ks target w0 s w :
  point_tensors w0 = [] -> color_tensors w0 = [] ->
  (0 < pool_size args)%Z ->
  main args ks target w0 = Ok (s, w) ->
  Forall (Forall (fun l => (0 <= l)%R)) (loss_matrix s).
Proof.
  intros Hp Hc Hpool E. apply main_inv in E as (s0 & w1 & E0 & Es0 & El).
  assert (Hr : reachable args target s0 w1) by (eapply reach_init; eauto).
  pose proof (wp_elim _ _ _ _ _ (stages_accounting args target ks s0 w1 Hr) El) as H.
  cbn beta in H. destruct H as (_ & _ & _ & _ & _ & Hnn).
  apply Hnn; [exact Hpool|]. subst s0. constructor.
Qed.

End Runs.

(** ** When [main] returns, and what it never shares *)

Section RunsMore.

Context {B : Backend}.

(** What a returning stage leaves in the variables that the next stage
    and the final print read. *)
Lemma stage_leaves args target cw ch k s w s' w' :
  scene_inv args s w ->
  stage args target cw ch k s w = Ok (s', w') ->
  loss s' <> None /\ region_loss s' <> None.
Proof.
  intros HI E. pose proof (stage_ran _ _ _ _ _ _ _ _ _ HI E) as HT.
  apply stage_inv in E as (shapes & groups & pv & cv & w1 & v & im
                           & _ & _ & _ & El & _ & ->).
  cbn [loss region_loss]. split; [|discriminate].
  apply loop_facts in El. unfold range in El. rewrite length_seq in El.
  destruct El as (_ & _ & _ & _ & _ & _ & _ & Hl & _). apply Hl. lia.
Qed.

(** The parameter list of the points optimiser of a returning stage is
    not empty, which bounds the number of new shapes from below. *)
Lemma stage_needs_parameters args target cw ch k s w s' w' :
  stage args target cw ch k s w = Ok (s', w') ->
  (1 <= k)%Z \/ (free args = true /\ old_shapes s <> []).
Proof.
  intros E.
  apply stage_inv in E as (shapes & groups & pv & cv & w1 & v & im
                           & Es & Hpv & _).
  pose proof (wp_elim _ _ _ _ _ (setup_stage_spec _ _ _ _ _ _) Es) as HS.
  destruct HS as (nsh & ngr & npv & ncv & HP & _ & _ & -> & _).
  destruct (init_post_lengths _ _ _ _ _ _ _ _ _ _ _ _ HP) as (Ls & _ & -> & _).
  destruct (Z.le_gt_cases 1 k) as [|Hk]; [left; assumption|right].
  assert (nsh = []) as -> by (apply length_zero_iff_nil; lia).
  cbn [map] in Hpv. rewrite app_nil_r in Hpv.
  destruct (free args); [|contradiction].
  split; [reflexivity|]. intros E0. rewrite E0 in Hpv. contradiction.
Qed.

Lemma stages_grow args target ks s0 w0 :
  reachable args target s0 w0 ->
  wp (for_ ks (stage args target (cols target) (rows target)) s0)
     (fun s w =>
        (ks <> [] -> loss s <> None /\ (1 <= num_iter args)%Z) /\
        (ks = [] -> s = s0) /\
        (old_shapes s0 = [] -> (1 <= hd 1%Z ks)%Z) /\
        (free args = false -> Forall (fun k => (1 <= k)%Z) ks)) w0.
Proof.
  intros Hr0.
  eapply wp_mono.
  - apply (wp_for (fun pre s w =>
        reachable args target s w /\
        (pre <> [] -> loss s <> None /\ (1 <= num_iter args)%Z) /\
        (pre = [] -> s = s0) /\
        (old_shapes s0 = [] -> (1 <= hd 1%Z pre)%Z) /\
        (free args = false -> Forall (fun k => (1 <= k)%Z) pre))).
    + repeat split; auto; try (intros; cbn; lia). contradiction.
    + intros pre k s w _ (Hr & Hl & H0 & Hh & Hf).
      unfold wp. destruct (stage args target (cols target) (rows target) k s w)
        as [[s' w']|e] eqn:E; [|exact I].
      pose proof (reachable_inv _ _ _ _ Hr) as HI.
      repeat split.
      * eapply reach_stage; eauto.
      * apply (stage_leaves _ _ _ _ _ _ _ _ _ HI E).
      * apply (stage_ran _ _ _ _ _ _ _ _ _ HI E).
      * intros Hnil. destruct pre; discriminate.
      * intros Hnil. destruct pre as [|k0 pre]; [|apply Hh, Hnil].
        cbn [app hd]. rewrite (H0 eq_refl) in E.
        destruct (stage_needs_parameters _ _ _ _ _ _ _ _ _ E) as [|[_ Hne]];
          [assumption | contradiction].
      * intros Hfr. apply Forall_app. split; [auto|].
        constructor; [|constructor].
        destruct (stage_needs_parameters _ _ _ _ _ _ _ _ _ E) as [|[Hfr' _]];
          [assumption | congruence].
  - cbn beta. intros s w (_ & H). exact H.
Qed.

(** X12: [main] returns only from a run of at least one stage with at
    least one iteration per stage on a non-empty canvas; the first stage
    must add a shape, and without [--free] every stage must: otherwise
    [loss] or [img] is unbound when read, or an optimiser is built on an
    empty parameter list. *)
Theorem X12_when_main_returns args ks target w0 s w :
  point_tensors w0 = [] -> color_tensors w0 = [] ->
  main args ks target w0 = Ok (s, w) ->
  ks <> [] /\ (1 <= num_iter args)%Z /\ (0 < cols target * rows target)%nat /\
  (1 <= hd 1%Z ks)%Z /\
  (free args = false -> Forall (fun k => (1 <= k)%Z) ks).
Proof.
  intros Hp Hc E.
  assert (El : exists s1, loss s1 <> None /\ s1 = s).
  { unfold main in E. apply bind_ok in E as ([] & wa & _ & E).
    apply bind_ok in E as (s0 & w1 & _ & E).
    apply bind_ok in E as (s1 & w2 & _ & E).
    exists s1. destruct (loss s1); [|discriminate].
    inversion E. split; [discriminate | reflexivity]. }
  destruct El as (? & Hloss & ->).
  apply main_inv in E as (s0 & w1 & E0 & Es0 & El).
  assert (Hcv : (0 < cols target * rows target)%nat).
  { unfold bind, py_seed, init_locals in E0.
    destruct (Nat.eqb_spec (cols target * rows target) 0); [discriminate | lia]. }
  assert (Hr : reachable args target s0 w1) by (eapply reach_init; eauto).
  pose proof (wp_elim _ _ _ _ _ (stages_grow args target ks s0 w1 Hr) El) as H.
  cbn beta in H. destruct H as (H1 & H2 & H3 & H4).
  assert (Hks : ks <> []).
  { intros ->. rewrite (H2 eq_refl), Es0 in Hloss. apply Hloss. reflexivity. }
  repeat split; auto.
  - apply (H1 Hks).
  - apply H3. rewrite Es0. reflexivity.
Qed.

Lemma reachable_dense args target s w :
  reachable args target s w ->
  store_dense (old_shapes s) (old_shape_groups s) w.
Proof.
  induction 1 as [w0 s w E Hp Hc | s w k s' w' Hr IH E].
  - unfold bind, py_seed, init_locals in E.
    destruct (_ =? _)%nat; [discriminate|]. inversion E; subst.
    unfold store_dense, pdata, cdata. cbn. rewrite Hp, Hc.
    repeat split; intros i x Hx; rewrite lookup_nil in Hx; discriminate.
  - destruct IH as (Lp & Lc & Dp & Dc).
    apply stage_inv in E as (shapes & groups & pv & cv & w1 & v & im
                             & Es & _ & _ & El & _ & ->).
    cbn [old_shapes old_shape_groups].
    apply loop_facts in El. destruct El as (Lp2 & Lc2 & _).
    pose proof (wp_elim _ _ _ _ _ (setup_stage_spec _ _ _ _ _ _) Es) as HS.
    destruct HS as (nsh & ngr & npv & ncv & HP & -> & -> & _ & _).
    destruct HP as (PTS & CS & E1 & E2 & -> & -> & _ & _ & L1 & L2 & _).
    unfold store_dense. rewrite Lp2, Lc2, E1, E2, !length_app, !length_imap.
    repeat split; try lia.
    + intros i p Hi. apply lookup_app_Some in Hi as [Hi | [Hge Hi]]; [eauto|].
      rewrite list_lookup_imap in Hi.
      destruct (PTS !! _) eqn:EP; [|discriminate]. cbn in Hi.
      inversion Hi. cbn. lia.
    + intros i g Hi. apply lookup_app_Some in Hi as [Hi | [Hge Hi]]; [eauto|].
      rewrite list_lookup_imap in Hi.
      destruct (CS !! _) eqn:EC; [|discriminate]. cbn in Hi.
      inversion Hi. cbn. lia.
Qed.

Lemma dense_NoDup {A : Type} (f : A -> nat) (l : list A) :
  (forall i x, l !! i = Some x -> f x = i) -> NoDup (map f l).
Proof.
  intros H. apply NoDup_alt. intros i j y Hi Hj.
  rewrite list_lookup_fmap in Hi, Hj.
  destruct (l !! i) as [a|] eqn:Ea; [|discriminate].
  destruct (l !! j) as [b|] eqn:Eb; [|discriminate].
  cbn in Hi, Hj. apply H in Ea, Eb. congruence.
Qed.

(** X13: when [main] returns, no two shapes share a points tensor and no
    two groups share a colour tensor: shape [i] owns tensor [i] of the
    points created, group [i] tensor [i] of the colours, and no other
    tensor was created. *)
Theorem X13_parameters_are_not_shared args ks target w0 s w :
  point_tensors w0 = [] -> color_tensors w0 = [] ->
  main args ks target w0 = Ok (s, w) ->
  store_dense (old_shapes s) (old_shape_groups s) w /\
  NoDup (map points (old_shapes s)) /\
  NoDup (map fill_color (old_shape_groups s)).
Proof.
  intros Hp Hc E. apply main_inv in E as (s0 & w1 & E0 & Es0 & El).
  assert (Hr : reachable args target s0 w1) by (eapply reach_init; eauto).
  pose proof (wp_elim _ _ _ _ _ (stages_accounting args target ks s0 w1 Hr) El) as H.
  cbn beta in H. destruct H as (Hr' & _).
  pose proof (reachable_dense _ _ _ _ Hr') as HD.
  split; [exact HD|]. destruct HD as (_ & _ & Dp & Dc).
  split; apply dense_NoDup; assumption.
Qed.

Context {L : BackendLaws B}.

(** Sufficient conditions for [main] to run to its end. *)
Lemma main_total args ks target w0 :
  (0 < cols target * rows target)%nat ->
  ks <> [] ->
  Forall (fun k => (1 <= k)%Z) ks ->
  (1 <= num_iter args)%Z ->
  (1 <= num_segments args)%Z ->
  (0 <= pool_size args)%Z ->
  Forall (fun k => (k <= pool_size args * pool_size args)%Z) (tail ks) ->
  point_tensors w0 = [] -> color_tensors w0 = [] ->
  total (main args ks target) (fun _ _ => True) w0.
Proof.
  intros Hcv Hks Hk HT Hn Hpool Htl Hp Hc.
  unfold main. apply total_bind. exists tt, (World (random_seed 1234) (np_state w0)
                                                (point_tensors w0) (color_tensors w0)).
  split; [reflexivity|].
  apply total_bind. unfold init_locals.
  destruct (Nat.eqb_spec (cols target * rows target) 0) as [E0|_]; [lia|].
  apply total_ret. apply total_bind.
  set (s0 := mkLocals _ _ _ _ _ _ _). set (w1 := World _ _ _ _).
  assert (Hr0 : reachable args target s0 w1).
  { apply (reach_init _ _ w0); [|exact Hp|exact Hc].
    unfold bind, py_seed, init_locals.
    destruct (Nat.eqb_spec (cols target * rows target) 0) as [E0|_]; [lia|].
    reflexivity. }
  eapply total_mono.
  - apply (total_for (fun pre s w =>
        reachable args target s w /\
        (pre = [] -> region_loss s = None) /\
        (pre <> [] -> loss s <> None))).
    + repeat split; auto.
    + intros pre k s w [q Hq] (Hr & H0 & H1).
      assert (Hk1 : (1 <= k)%Z).
      { rewrite Hq in Hk. apply Forall_app in Hk as [_ Hk].
        inversion Hk; assumption. }
      assert (Hst : total (stage args target (cols target) (rows target) k s)
                          (fun _ _ => True) w).
      { apply stage_total; auto; try lia.
        intros Hreg. split; [exact Hpool|].
        destruct pre as [|k0 pre]; [exfalso; apply Hreg, H0; reflexivity|].
        rewrite Hq in Htl. cbn [app tail] in Htl.
        apply Forall_app in Htl as [_ Htl]. inversion Htl; assumption. }
      destruct Hst as (s' & w' & E & _). exists s', w'. split; [exact E|].
      pose proof (reachable_inv _ _ _ _ Hr) as HI.
      repeat split.
      * eapply reach_stage; eauto.
      * intros Hnil. destruct pre; discriminate.
      * intros _. apply (stage_leaves _ _ _ _ _ _ _ _ _ HI E).
  - cbn beta. intros s w (_ & _ & Hl).
    destruct (loss s); [apply total_ret; exact I|].
    exfalso. apply Hl; [exact Hks | reflexivity].
Qed.


End RunsMore.

(** ** Canvases that the pooled grid divides *)

Section Divisible.

Local Open Scope R_scope.

Lemma window_block (i p a : nat) :
  (0 < p)%nat -> window i p (p * a) = seq (i * a) a.
Proof.
  intros Hp. unfold window, start_index, end_index.
  assert (E1 : ((i * (p * a)) / p = i * a)%nat).
  { replace (i * (p * a))%nat with ((i * a) * p)%nat by lia.
    apply Nat.div_mul. lia. }
  assert (E2 : (((i + 1) * (p * a) + p - 1) / p = (i + 1) * a)%nat).
  { symmetry. apply (Nat.div_unique _ _ _ (p - 1)); lia. }
  rewrite E1, E2. f_equal. lia.
Qed.

Lemma window_replicate (y p a : nat) :
  (0 < p)%nat -> (0 < a)%nat -> window y (p * a) p = [(y / a)%nat].
Proof.
  intros Hp Ha. unfold window, start_index, end_index.
  pose proof (Nat.div_mod_eq y a) as Hy.
  pose proof (Nat.mod_upper_bound y a ltac:(lia)) as Hr.
  set (q := (y / a)%nat) in *. set (r := (y mod a)%nat) in *.
  assert (E1 : ((y * p) / (p * a) = q)%nat).
  { symmetry. apply (Nat.div_unique _ _ _ (r * p)); nia. }
  assert (E2 : (((y + 1) * p + p * a - 1) / (p * a) = q + 1)%nat).
  { symmetry. apply (Nat.div_unique _ _ _ ((r + 1) * p - 1)); nia. }
  rewrite E1, E2. replace (q + 1 - q)%nat with 1%nat by lia. reflexivity.
Qed.

Lemma Rsum_concat (ls : list (list R)) : Rsum (concat ls) = Rsum (map Rsum ls).
Proof.
  induction ls as [|l ls IH]; [reflexivity|].
  cbn [concat map]. rewrite Rsum_app, Rsum_cons, IH. reflexivity.
Qed.

Lemma Rsum_flat_map {A : Type} (f : A -> list R) (l : list A) :
  Rsum (flat_map f l) = Rsum (map (fun x => Rsum (f x)) l).
Proof.
  induction l as [|x l IH]; [reflexivity|].
  cbn [flat_map map]. rewrite Rsum_app, Rsum_cons, IH. reflexivity.
Qed.

Lemma Rsum_map_ext {A : Type} (f g : A -> R) (l : list A) :
  (forall x, In x l -> f x = g x) -> Rsum (map f l) = Rsum (map g l).
Proof. intros H. f_equal. apply map_ext_in. exact H. Qed.

Lemma Rsum_map_plus {A : Type} (f g : A -> R) (l : list A) :
  Rsum (map (fun x => f x + g x) l) = Rsum (map f l) + Rsum (map g l).
Proof.
  induction l as [|x l IH]; [unfold Rsum; cbn; lra|].
  cbn [map]. rewrite !Rsum_cons, IH. lra.
Qed.

Lemma Rsum_map_scal {A : Type} (c : R) (f : A -> R) (l : list A) :
  Rsum (map (fun x => c * f x) l) = c * Rsum (map f l).
Proof.
  induction l as [|x l IH]; [unfold Rsum; cbn; lra|].
  cbn [map]. rewrite !Rsum_cons, IH. lra.
Qed.

Lemma Rsum_map_zero {A : Type} (l : list A) : Rsum (map (fun _ => 0) l) = 0.
Proof.
  induction l as [|x l IH]; [reflexivity|]. cbn [map]. rewrite Rsum_cons, IH. lra.
Qed.

Lemma Rsum_swap {A C : Type} (f : A -> C -> R) (l1 : list A) (l2 : list C) :
  Rsum (map (fun i => Rsum (map (fun j => f i j) l2)) l1)
  = Rsum (map (fun j => Rsum (map (fun i => f i j) l1)) l2).
Proof.
  induction l1 as [|x l1 IH].
  - cbn [map]. rewrite Rsum_map_zero. reflexivity.
  - cbn [map]. rewrite Rsum_cons, IH, <- Rsum_map_plus.
    apply Rsum_map_ext. intros j _. rewrite Rsum_cons. reflexivity.
Qed.

(** A sum over [0 .. p*a) is the sum of the sums over the [p] blocks of
    length [a]. *)
Lemma Rsum_blocks (f : nat -> R) (p a : nat) :
  Rsum (map f (seq 0 (p * a)))
  = Rsum (map (fun i => Rsum (map f (seq (i * a) a))) (seq 0 p)).
Proof.
  induction p as [|p IH]; [reflexivity|].
  replace (S p * a)%nat with (p * a + a)%nat by lia.
  rewrite seq_app, map_app, Rsum_app, IH, seq_S, map_app, Rsum_app.
  f_equal. cbn [map Nat.add]. rewrite Rsum_cons. unfold Rsum at 3.
  cbn [fold_right]. lra.
Qed.

Lemma sum_all_rows (t : tensor2 R) :
  sum_all t
  = Rsum (map (fun i => Rsum (map (fun j => at_ t i j) (seq 0 (cols t))))
              (seq 0 (rows t))).
Proof. unfold sum_all, flatten. rewrite Rsum_concat, map_map. reflexivity. Qed.

(** The sum of an array cut into [p] x [q] blocks of [a] x [b] entries. *)
Lemma Rsum_blocks2 (g : nat -> nat -> R) (p q a b : nat) :
  Rsum (map (fun r => Rsum (map (fun c => g r c) (seq 0 (q * b)))) (seq 0 (p * a)))
  = Rsum (map (fun i => Rsum (map (fun j =>
      Rsum (map (fun r => Rsum (map (fun c => g r c) (seq (j * b) b))) (seq (i * a) a)))
      (seq 0 q))) (seq 0 p)).
Proof.
  rewrite Rsum_blocks. apply Rsum_map_ext. intros i _.
  rewrite (Rsum_map_ext _ (fun r => Rsum (map (fun j =>
             Rsum (map (fun c => g r c) (seq (j * b) b))) (seq 0 q))))
    by (intros r _; apply Rsum_blocks).
  apply (Rsum_swap (fun r j => Rsum (map (fun c => g r c) (seq (j * b) b)))).
Qed.

Lemma INR_mul_pos (a b : nat) : (0 < a)%nat -> (0 < b)%nat -> 0 < INR (a * b).
Proof. intros Ha Hb. apply lt_0_INR. nia. Qed.

(** X5: on a canvas of [p*a] rows and [p*b] columns, [p] the pool size,
    each cell of [region_loss] is the mean of its own [a] x [b] block of
    [pixel_loss], the blocks tile the canvas, and pooling keeps the mean
    of the residual: the sum of [region_loss] times the block size is the
    sum of [pixel_loss]. *)
Theorem X5_pooling_on_divisible_canvas args (pixel_loss : var (tensor2 R)) (a b : nat) :
  let p := Z.to_nat (pool_size args) in
  let region_loss := data (region_loss_of args pixel_loss) in
  (0 < p)%nat -> (0 < a)%nat -> (0 < b)%nat ->
  rows (data pixel_loss) = (p * a)%nat -> cols (data pixel_loss) = (p * b)%nat ->
  (forall i j, (i < p)%nat -> (j < p)%nat ->
     at_ region_loss i j
     = Rsum (map (fun r => Rsum (map (fun c => at_ (data pixel_loss) r c)
                                     (seq (j * b) b)))
                 (seq (i * a) a)) / INR (a * b)) /\
  sum_all region_loss * INR (a * b) = sum_all (data pixel_loss).
Proof.
  intros p region_loss Hp Ha Hb Er Ec.
  assert (Hcell : forall i j,
     at_ region_loss i j
     = Rsum (map (fun r => Rsum (map (fun c => at_ (data pixel_loss) r c)
                                     (seq (j * b) b)))
                 (seq (i * a) a)) / INR (a * b)).
  { intros i j. unfold region_loss, region_loss_of. cbn [data adaptive_avg_pool2d at_].
    fold p. rewrite Er, Ec, !window_block by exact Hp.
    rewrite Rsum_flat_map, !length_seq. reflexivity. }
  split; [intros i j _ _; apply Hcell|].
  rewrite (sum_all_rows (data pixel_loss)), Er, Ec, Rsum_blocks2.
  rewrite sum_all_rows. unfold region_loss at 1 2, region_loss_of.
  cbn [data adaptive_avg_pool2d rows cols]. fold p.
  rewrite Rmult_comm, <- Rsum_map_scal. apply Rsum_map_ext. intros i _.
  rewrite <- Rsum_map_scal. apply Rsum_map_ext. intros j _.
  rewrite Hcell. field.
  apply Rgt_not_eq, INR_mul_pos; assumption.
Qed.

Lemma map_nth_seq (x : list R) : map (fun k => nth k x 0) (seq 0 (length x)) = x.
Proof.
  induction x as [|v x IH]; [reflexivity|].
  cbn [length seq map nth]. f_equal. rewrite <- seq_shift, map_map. exact IH.
Qed.

Lemma map_seq_offset {A : Type} (f : nat -> A) (k n : nat) :
  map f (seq k n) = map (fun j => f (k + j)%nat) (seq 0 n).
Proof.
  induction n as [|n IH]; [reflexivity|].
  rewrite !seq_S, !map_app, IH. reflexivity.
Qed.

(** Reshaping a flat vector and summing the array sums the vector. *)
Lemma sum_all_reshape_as (x : list R) (t : tensor2 R) :
  length x = (rows t * cols t)%nat -> sum_all (reshape_as x t) = Rsum x.
Proof.
  intros HL. rewrite sum_all_rows. cbn [reshape_as rows cols at_].
  transitivity (Rsum (map (fun k => nth k x 0) (seq 0 (length x))));
    [|rewrite map_nth_seq; reflexivity].
  rewrite HL, Rsum_blocks.
  apply Rsum_map_ext. intros i _. f_equal. symmetry. apply map_seq_offset.
Qed.

Lemma Rsum_softmax (x : list R) : x <> [] -> Rsum (softmax x) = 1.
Proof.
  intros Hx. unfold softmax. rewrite Rsum_map_div.
  apply Rdiv_diag, Rgt_not_eq. apply Rsum_pos.
  - apply Forall_forall. intros v Hv. apply list_elem_of_In, in_map_iff in Hv as (u & <- & _).
    apply exp_pos.
  - destruct x; [contradiction | discriminate].
Qed.

Lemma Rsum_map_const {A : Type} (c : R) (l : list A) :
  Rsum (map (fun _ => c) l) = INR (length l) * c.
Proof.
  induction l as [|x l IH]; [unfold Rsum; cbn; lra|].
  cbn [map length]. rewrite Rsum_cons, IH, S_INR. lra.
Qed.

Lemma div_block (i a r : nat) : (i * a <= r < i * a + a)%nat -> (r / a = i)%nat.
Proof. intros H. symmetry. apply (Nat.div_unique _ _ _ (r - i * a)); lia. Qed.

(** X6: on a canvas of [p*a] rows and [p*b] columns, upsampling by
    [interpolate(mode='area')] repeats each cell of the softmax over its
    [a] x [b] block, and the normalisation divides by the block size: the
    weight of pixel [(y, x)] is the softmax entry of cell
    [(y/a, x/b)] over [a*b]. *)
Theorem X6_weight_map_on_divisible_canvas (rl : var (tensor2 R)) (p a b : nat) :
  (0 < p)%nat -> (0 < a)%nat -> (0 < b)%nat ->
  rows (data rl) = p -> cols (data rl) = p ->
  forall y x, (y < p * a)%nat -> (x < p * b)%nat ->
    at_ (data (loss_weight_of (p * b) (p * a) rl)) y x
    = nth ((y / a) * p + x / b)%nat (softmax (flatten (data rl))) 0 / INR (a * b).
Proof.
  intros Hp Ha Hb Er Ec y x Hy Hx.
  set (sm := reshape_as (softmax (flatten (data rl))) (data rl)).
  assert (Hup : forall y x,
             at_ (interpolate_area sm (p * a) (p * b)) y x = at_ sm (y / a) (x / b)).
  { intros y0 x0. unfold interpolate_area, adaptive_avg_pool2d. cbn [at_].
    change (rows sm) with (rows (data rl)). change (cols sm) with (cols (data rl)).
    rewrite Er, Ec, !window_replicate by assumption.
    cbn [flat_map map app length Nat.mul]. rewrite Rsum_cons.
    change (Rsum []) with 0. change (INR (1 + 0)) with 1. field. }
  assert (Hsm : sum_all sm = 1).
  { unfold sm. rewrite sum_all_reshape_as
      by (rewrite softmax_length, length_flatten; reflexivity).
    apply Rsum_softmax. intros E0.
    pose proof (length_flatten (data rl)) as HL. rewrite E0, Er, Ec in HL.
    cbn in HL. nia. }
  assert (Hsum : sum_all (interpolate_area sm (p * a) (p * b)) = INR (a * b)).
  { rewrite sum_all_rows.
    change (rows (interpolate_area sm (p * a) (p * b))) with (p * a)%nat.
    change (cols (interpolate_area sm (p * a) (p * b))) with (p * b)%nat.
    rewrite (Rsum_map_ext _ (fun i => Rsum (map (fun j => at_ sm (i / a) (j / b))
                                                (seq 0 (p * b)))))
      by (intros i _; apply Rsum_map_ext; intros j _; apply Hup).
    rewrite Rsum_blocks2.
    rewrite (Rsum_map_ext _ (fun i => Rsum (map (fun j => INR (a * b) * at_ sm i j)
                                                (seq 0 p)))).
    - rewrite (Rsum_map_ext _ (fun i => INR (a * b)
                                  * Rsum (map (fun j => at_ sm i j) (seq 0 p))))
        by (intros i _; apply Rsum_map_scal).
      rewrite Rsum_map_scal.
      rewrite sum_all_rows in Hsm.
      change (rows sm) with (rows (data rl)) in Hsm.
      change (cols sm) with (cols (data rl)) in Hsm.
      rewrite Er, Ec in Hsm. rewrite Hsm. lra.
    - intros i _. apply Rsum_map_ext. intros j _.
      rewrite (Rsum_map_ext _ (fun _ => INR b * at_ sm i j)).
      + rewrite Rsum_map_const, length_seq, mult_INR. lra.
      + intros r Hr. apply in_seq in Hr.
        rewrite (Rsum_map_ext _ (fun _ => at_ sm i j)).
        * rewrite Rsum_map_const, length_seq. reflexivity.
        * intros c Hc. apply in_seq in Hc.
          rewrite (div_block i a r), (div_block j b c) by lia. reflexivity. }
  unfold loss_weight_of, detach. cbn [data div_scalar at_].
  fold sm. rewrite Hsum, Hup. unfold sm, reshape_as. cbn [at_].
  rewrite Ec. reflexivity.
Qed.

End Divisible.

(** ** [VAE/utils.py]: times, the progress bar and the meter *)

Section UtilsFacts.

Import Utils.
Import String.StringSyntax.
Local Open Scope string_scope.
Local Infix "+++" := String.append (at level 60, right associativity).

Lemma py_int_nonneg (x : R) :
  (0 <= x)%R -> (0 <= py_int x)%Z /\ (IZR (py_int x) <= x < IZR (py_int x) + 1)%R.
Proof.
  intros Hx. unfold py_int. destruct (Rle_dec 0 x) as [_|H]; [|contradiction].
  destruct (base_Int_part x) as [H1 H2].
  split; [|lra].
  assert (H : (-1 < Int_part x)%Z) by (apply lt_IZR; lra). lia.
Qed.

Lemma py_int_nonpos (x : R) :
  (x <= 0)%R -> (py_int x <= 0)%Z /\ (IZR (py_int x) - 1 < x <= IZR (py_int x))%R.
Proof.
  intros Hx. unfold py_int. destruct (Rle_dec 0 x) as [H0|H0].
  - assert (x = 0%R) as -> by lra.
    destruct (base_Int_part 0) as [H1 H2].
    assert (Ha : (Int_part 0 <= 0)%Z) by (apply le_IZR; lra).
    assert (Hb : (-1 < Int_part 0)%Z) by (apply lt_IZR; lra).
    assert (Int_part 0 = 0%Z) as -> by lia. split; [lia | lra].
  - destruct (base_Int_part (- x)) as [H1 H2]. rewrite opp_IZR.
    split; [|lra].
    assert (H : (-1 < Int_part (- x))%Z) by (apply lt_IZR; lra). lia.
Qed.

(** On non-negative integers, truncating the float quotient is integer
    division. *)
Lemma py_int_div (a b : Z) :
  (0 <= a)%Z -> (0 < b)%Z -> py_int (IZR a / IZR b) = (a / b)%Z.
Proof.
  intros Ha Hb.
  assert (HB : (0 < IZR b)%R) by (apply IZR_lt; exact Hb).
  assert (HA : (0 <= IZR a)%R) by (apply IZR_le; exact Ha).
  unfold py_int. destruct (Rle_dec 0 (IZR a / IZR b)) as [_|H].
  - symmetry. apply Int_part_spec.
    pose proof (Z.div_mod a b ltac:(lia)) as E.
    pose proof (Z.mod_pos_bound a b Hb) as [M0 M1].
    apply IZR_le in M0. apply IZR_lt in M1.
    apply (f_equal IZR) in E. rewrite plus_IZR, mult_IZR in E.
    split.
    + apply (Rmult_lt_reg_r (IZR b)); [exact HB|].
      unfold Rdiv. rewrite Rmult_minus_distr_r, Rmult_assoc, Rinv_l by lra. lra.
    + apply (Rmult_le_reg_r (IZR b)); [exact HB|].
      unfold Rdiv. rewrite Rmult_assoc, Rinv_l by lra. lra.
  - exfalso. apply H. apply Rmult_le_pos; [exact HA|].
    apply Rlt_le, Rinv_0_lt_compat, HB.
Qed.

Lemma IZR_bound (z : Z) (x : R) (n : Z) :
  (IZR z <= x)%R -> (x < IZR n)%R -> (z < n)%Z.
Proof. intros H1 H2. apply lt_IZR. lra. Qed.

(** The fields of a non-negative duration. *)
Lemma split_seconds_fields (seconds : R) :
  (0 <= seconds)%R ->
  let p := split_seconds seconds in
  (0 <= days p)%Z /\ (0 <= hours p < 24)%Z /\ (0 <= minutes p < 60)%Z /\
  (0 <= secondsf p < 60)%Z /\ (0 <= millis p < 1000)%Z /\
  let whole := (IZR (days p * 86400 + hours p * 3600 + minutes p * 60 + secondsf p)
                + IZR (millis p) / 1000)%R in
  (whole <= seconds < whole + 1 / 1000)%R.
Proof.
  intros H0 p. unfold p, split_seconds. cbn [days hours minutes secondsf millis].
  set (d := py_int (seconds / 3600 / 24)).
  set (s1 := (seconds - IZR d * 3600 * 24)%R).
  set (h := py_int (s1 / 3600)).
  set (s2 := (s1 - IZR h * 3600)%R).
  set (m := py_int (s2 / 60)).
  set (s3 := (s2 - IZR m * 60)%R).
  set (sf := py_int s3).
  set (s4 := (s3 - IZR sf)%R).
  set (ms := py_int (s4 * 1000)).
  destruct (py_int_nonneg (seconds / 3600 / 24)) as [Hd [Hd1 Hd2]]; [lra|].
  fold d in Hd, Hd1, Hd2.
  assert (B1 : (0 <= s1 < 86400)%R) by (unfold s1; lra).
  destruct (py_int_nonneg (s1 / 3600)) as [Hh [Hh1 Hh2]]; [lra|].
  fold h in Hh, Hh1, Hh2.
  assert (B2 : (0 <= s2 < 3600)%R) by (unfold s2; lra).
  destruct (py_int_nonneg (s2 / 60)) as [Hm [Hm1 Hm2]]; [lra|].
  fold m in Hm, Hm1, Hm2.
  assert (B3 : (0 <= s3 < 60)%R) by (unfold s3; lra).
  destruct (py_int_nonneg s3) as [Hs [Hs1 Hs2]]; [lra|].
  fold sf in Hs, Hs1, Hs2.
  assert (B4 : (0 <= s4 < 1)%R) by (unfold s4; lra).
  destruct (py_int_nonneg (s4 * 1000)) as [Hms [Hms1 Hms2]]; [lra|].
  fold ms in Hms, Hms1, Hms2.
  assert (Hh24 : (h < 24)%Z) by (apply (IZR_bound h (s1 / 3600)); lra).
  assert (Hm60 : (m < 60)%Z) by (apply (IZR_bound m (s2 / 60)); lra).
  assert (Hs60 : (sf < 60)%Z) by (apply (IZR_bound sf s3); lra).
  assert (Hms1000 : (ms < 1000)%Z) by (apply (IZR_bound ms (s4 * 1000)); lra).
  repeat split; try lia.
  - rewrite !plus_IZR, !mult_IZR. unfold s4, s3, s2, s1 in *. lra.
  - rewrite !plus_IZR, !mult_IZR. unfold s4, s3, s2, s1 in *. lra.
Qed.


Lemma append_nonempty_r (a b : String.string) :
  b <> String.EmptyString -> a +++ b <> String.EmptyString.
Proof.
  intros Hb. destruct a as [|c a]; cbn; [exact Hb | discriminate].
Qed.

Lemma unit_nonempty (a : String.string) (c : Ascii.ascii) (u : String.string) :
  a +++ String.String c u <> String.EmptyString.
Proof. apply append_nonempty_r. discriminate. Qed.

Lemma append_assoc (a b c : String.string) : (a +++ b) +++ c = a +++ (b +++ c).
Proof. induction a as [|x a IH]; cbn; [reflexivity | rewrite IH; reflexivity]. Qed.

Lemma append_nil_r (a : String.string) : a +++ String.EmptyString = a.
Proof. induction a as [|x a IH]; cbn; [reflexivity | rewrite IH; reflexivity]. Qed.

Lemma eqb_nonempty (a : String.string) :
  a <> String.EmptyString -> String.eqb a String.EmptyString = false.
Proof. intros H. apply String.eqb_neq. exact H. Qed.

(** X15: the text of [format_time] names the first two fields that are
    positive, largest unit first, and is [0ms] when no field is positive;
    it is never empty. *)
Theorem X15_format_time_two_leading_units (seconds : R) :
  let p := split_seconds seconds in
  let shown :=
    firstn 2 (List.filter (fun q => (0 <? fst q)%Z)
                     [(days p, "D"); (hours p, "h");
                      (minutes p, "m"); (secondsf p, "s");
                      (millis p, "ms")]) in
  format_time seconds
  = match shown with
    | [] => "0ms"
    | _ => String.concat String.EmptyString (map (fun q => str (fst q) +++ snd q) shown)
    end /\
  format_time seconds <> String.EmptyString.
Proof.
  intros p shown. unfold shown, format_time, join_fields. fold p.
  destruct p as [d h m s ms]. cbn [days hours minutes secondsf millis List.filter fst].
  destruct (0 <? d)%Z, (0 <? h)%Z, (0 <? m)%Z, (0 <? s)%Z, (0 <? ms)%Z;
    cbv -[str String.append String.eqb]; cbn [String.append];
    rewrite ?append_assoc;
    rewrite ?eqb_nonempty by (repeat first [apply unit_nonempty | apply append_nonempty_r]);
    (split; [reflexivity | repeat first [apply unit_nonempty | apply append_nonempty_r
                                        | discriminate]]).
Qed.

(** X16: a duration below one millisecond, negative ones included, is
    printed as [0ms]. *)
Theorem X16_format_time_below_a_millisecond (seconds : R) :
  (seconds < 1 / 1000)%R -> format_time seconds = "0ms".
Proof.
  intros Hlt. unfold format_time.
  assert (H : (days (split_seconds seconds) <= 0)%Z /\
              (hours (split_seconds seconds) <= 0)%Z /\
              (minutes (split_seconds seconds) <= 0)%Z /\
              (secondsf (split_seconds seconds) <= 0)%Z /\
              (millis (split_seconds seconds) <= 0)%Z).
  { destruct (Rle_dec 0 seconds) as [Hpos|Hneg].
    - destruct (split_seconds_fields seconds Hpos) as (Hd & Hh & Hm & Hs & Hms & Hw).
      cbv zeta in Hw.
      set (p := split_seconds seconds) in *.
      assert (Hz : (IZR (days p * 86400 + hours p * 3600 + minutes p * 60 + secondsf p)
                    + IZR (millis p) / 1000 < 1 / 1000)%R) by lra.
      assert (Hms0 : (0 <= IZR (millis p))%R) by (apply IZR_le; lia).
      assert (Hw0 : (days p * 86400 + hours p * 3600 + minutes p * 60 + secondsf p < 1)%Z).
      { apply lt_IZR. lra. }
      assert (Hw1 : (days p * 86400 + hours p * 3600 + minutes p * 60 + secondsf p = 0)%Z)
        by lia.
      rewrite Hw1 in Hz.
      assert (Hms1 : (millis p < 1)%Z) by (apply lt_IZR; lra).
      lia.
    - unfold split_seconds. cbn [days hours minutes secondsf millis].
      set (d := py_int (seconds / 3600 / 24)).
      set (s1 := (seconds - IZR d * 3600 * 24)%R).
      set (h := py_int (s1 / 3600)).
      set (s2 := (s1 - IZR h * 3600)%R).
      set (m := py_int (s2 / 60)).
      set (s3 := (s2 - IZR m * 60)%R).
      set (sf := py_int s3).
      set (s4 := (s3 - IZR sf)%R).
      destruct (py_int_nonpos (seconds / 3600 / 24)) as [Hd [Hd1 Hd2]]; [lra|].
      fold d in Hd, Hd1, Hd2.
      assert (B1 : (s1 <= 0)%R) by (unfold s1; lra).
      destruct (py_int_nonpos (s1 / 3600)) as [Hh [Hh1 Hh2]]; [lra|].
      fold h in Hh, Hh1, Hh2.
      assert (B2 : (s2 <= 0)%R) by (unfold s2; lra).
      destruct (py_int_nonpos (s2 / 60)) as [Hm [Hm1 Hm2]]; [lra|].
      fold m in Hm, Hm1, Hm2.
      assert (B3 : (s3 <= 0)%R) by (unfold s3; lra).
      destruct (py_int_nonpos s3) as [Hs [Hs1 Hs2]]; [lra|].
      fold sf in Hs, Hs1, Hs2.
      assert (B4 : (s4 <= 0)%R) by (unfold s4; lra).
      destruct (py_int_nonpos (s4 * 1000)) as [Hms _]; [lra|].
      repeat split; assumption. }
  destruct H as (Hd & Hh & Hm & Hs & Hms).
  unfold join_fields.
  destruct (Z.ltb_spec 0 (days (split_seconds seconds))); [lia|].
  destruct (Z.ltb_spec 0 (hours (split_seconds seconds))); [lia|].
  destruct (Z.ltb_spec 0 (minutes (split_seconds seconds))); [lia|].
  destruct (Z.ltb_spec 0 (secondsf (split_seconds seconds))); [lia|].
  destruct (Z.ltb_spec 0 (millis (split_seconds seconds))); [lia|].
  reflexivity.
Qed.

Lemma py_int_IZR (z : Z) : (0 <= z)%Z -> py_int (IZR z) = z.
Proof.
  intros Hz. unfold py_int.
  destruct (Rle_dec 0 (IZR z)) as [_|H]; [|exfalso; apply H, IZR_le, Hz].
  symmetry. apply Int_part_spec. lra.
Qed.

Lemma write_times_spec (l : list nat) (x : String.string) (c : console) :
  fold_left (fun c _ => write x c) l c
  = mkConsole (last_time c) (begin_time c) (clock c) (reads c)
              (stdout c +++ repeat_string (length l) x).
Proof.
  revert c. induction l as [|a l IH]; intros c.
  - cbn. rewrite append_nil_r. destruct c; reflexivity.
  - cbn [fold_left length repeat_string]. rewrite IH. unfold write.
    cbn [last_time begin_time clock reads stdout]. rewrite append_assoc. reflexivity.
Qed.

Lemma length_append (a b : String.string) :
  String.length (a +++ b) = (String.length a + String.length b)%nat.
Proof. induction a as [|x a IH]; cbn; [reflexivity | rewrite IH; reflexivity]. Qed.

Lemma length_repeat_char (n : nat) (ch : Ascii.ascii) :
  String.length (repeat_string n (String.String ch String.EmptyString)) = n.
Proof. induction n as [|n IH]; cbn; [reflexivity | rewrite IH; reflexivity]. Qed.

(** What [progress_bar] writes when it does not raise, after the bar. *)
Lemma progress_bar_tail (current total : Z) msg (c : console) :
  total <> 0%Z ->
  exists c' rest,
    progress_bar current total msg c = Ok c' /\
    stdout c'
    = stdout c +++ " [" +++
      repeat_string (Z.to_nat (py_int (TOTAL_BAR_LENGTH * IZR current / IZR total))) "=" +++
      ">" +++
      repeat_string
        (Z.to_nat (py_int (TOTAL_BAR_LENGTH
                           - IZR (py_int (TOTAL_BAR_LENGTH * IZR current / IZR total)))
                   - 1)) "." +++
      "]" +++ rest.
Proof.
  intros Ht. unfold progress_bar.
  destruct (Z.eqb_spec total 0) as [|_]; [contradiction|].
  set (c0 := if (current =? 0)%Z then _ else c).
  assert (E0 : stdout c0 = stdout c) by (unfold c0; destruct (current =? 0)%Z; reflexivity).
  unfold write_times, range. rewrite !write_times_spec.
  cbn [time_time write last_time begin_time clock reads stdout].
  rewrite !length_seq.
  destruct (current <? total - 1)%Z; eexists _, _; (split; [reflexivity|]);
    cbn [stdout write]; rewrite E0, !append_assoc; reflexivity.
Qed.

(** X17: for [0 <= current < total] the bar that [progress_bar] writes
    between the brackets is [65*current // total] signs [=], one [>] and
    dots up to exactly [TOTAL_BAR_LENGTH] = 65 characters. *)
Theorem X17_progress_bar_width (current total : Z) msg (c : console) :
  (0 <= current < total)%Z ->
  let cur := Z.to_nat (65 * current / total) in
  exists c' rest,
    progress_bar current total msg c = Ok c' /\
    (cur <= 64)%nat /\
    stdout c' = stdout c +++ " [" +++ repeat_string cur "=" +++ ">" +++
                repeat_string (64 - cur) "." +++ "]" +++ rest /\
    String.length (repeat_string cur "=" +++ ">" +++ repeat_string (64 - cur) ".")
    = 65%nat.
Proof.
  intros [H0 H1] cur.
  destruct (progress_bar_tail current total msg c) as (c' & rest & E & Hout); [lia|].
  assert (Eq : py_int (TOTAL_BAR_LENGTH * IZR current / IZR total)
               = (65 * current / total)%Z).
  { unfold TOTAL_BAR_LENGTH. rewrite <- mult_IZR. apply py_int_div; lia. }
  assert (Hq : (0 <= 65 * current / total <= 64)%Z).
  { split; [apply Z.div_pos; lia|].
    apply Z.lt_succ_r. apply Z.div_lt_upper_bound; lia. }
  assert (Hcur : (cur <= 64)%nat) by (unfold cur; lia).
  rewrite Eq in Hout. unfold TOTAL_BAR_LENGTH in Hout.
  rewrite <- minus_IZR, py_int_IZR in Hout by lia.
  replace (Z.to_nat (65 - 65 * current / total - 1)) with (64 - cur)%nat in Hout
    by (unfold cur; lia).
  exists c', rest. repeat split; [exact E | exact Hcur | exact Hout |].
  rewrite !length_append, !length_repeat_char. cbn [String.length]. lia.
Qed.

Lemma updates_spec (l : list (R * Z)) (m0 : AverageMeter) :
  (0 <= count m0)%Z ->
  Forall (fun vn => (0 < snd vn)%Z) l ->
  exists m,
    updates m0 l = Ok m /\
    count m = (count m0 + Zsum (map snd l))%Z /\
    sum m = (sum m0 + Rsum (map (fun vn => fst vn * IZR (snd vn)) l))%R /\
    (l <> [] -> avg m = (sum m / IZR (count m))%R /\ Some (val m) = option_map fst (last l)).
Proof.
  intros H0 Hl. revert m0 H0. induction Hl as [|[v n] l Hn Hl IH]; intros m0 H0.
  - exists m0. cbn. repeat split; [lia | unfold Rsum; cbn; lra | contradiction | contradiction].
  - cbn [snd] in Hn. cbn [updates]. unfold update.
    destruct (Z.eqb_spec (count m0 + n) 0) as [E|_]; [lia|].
    destruct (IH (mkMeter v ((sum m0 + v * IZR n) / IZR (count m0 + n))
                          (sum m0 + v * IZR n) (count m0 + n)))
      as (m & E & Hc & Hs & Ha); [cbn; lia|].
    cbn [count sum] in Hc, Hs.
    exists m. split; [exact E|]. split; [|split].
    + rewrite Hc. cbn [map snd Zsum fold_right]. unfold Zsum. lia.
    + rewrite Hs. cbn [map fst snd]. rewrite Rsum_cons. lra.
    + intros _. destruct l as [|vn l'].
      * cbn in E. inversion E; subst m. cbn. split; reflexivity.
      * destruct Ha as [Ha Hv]; [discriminate|]. split; [exact Ha|].
        rewrite Hv. reflexivity.
Qed.

Lemma weighted_bounds (l : list (R * Z)) (lo hi : R) :
  Forall (fun vn => (0 < snd vn)%Z) l ->
  Forall (fun vn => (lo <= fst vn <= hi)%R) l ->
  (lo * IZR (Zsum (map snd l)) <= Rsum (map (fun vn => fst vn * IZR (snd vn)) l)
   <= hi * IZR (Zsum (map snd l)))%R.
Proof.
  intros Hn Hv. induction l as [|[v n] l IH].
  - unfold Rsum, Zsum. cbn. lra.
  - apply Forall_cons in Hn as [Hn Hn']. apply Forall_cons in Hv as [Hv Hv'].
    specialize (IH Hn' Hv'). cbn [map fst snd] in *. rewrite Rsum_cons.
    unfold Zsum in *. cbn [fold_right]. rewrite plus_IZR.
    apply IZR_lt in Hn. nra.
Qed.


End UtilsFacts.

(** ** [pair/fashionmnist/main.py]: reported losses and the best loss *)

Section FashionMnistFacts.

Import FashionMnist.

Context {net batch : Type}.
Variable train_step : net -> batch -> net * R.
Variable eval_loss : net -> batch -> R.
Variable round3 : R -> R.

Lemma validate_fold (n : net) (l : list batch) (k : nat) (acc : R) (idx : option nat) :
  fold_left (fun '(test_loss, _) '(batch_idx, b) =>
               ((test_loss + eval_loss n b)%R, Some batch_idx))
            (combine (seq k (length l)) l) (acc, idx)
  = ((acc + Rsum (map (eval_loss n) l))%R,
     match l with [] => idx | _ => Some (k + length l - 1)%nat end).
Proof.
  revert k acc idx. induction l as [|b l IH]; intros k acc idx.
  - cbn. unfold Rsum. cbn. rewrite Rplus_0_r. reflexivity.
  - cbn [length seq combine fold_left map]. rewrite IH, Rsum_cons.
    f_equal; [lra|]. destruct l; cbn [length]; f_equal; lia.
Qed.

Lemma train_fold (l : list batch) (n : net) (k : nat) (acc : R) (idx : option nat) :
  fold_left (fun '(n, train_loss, _) '(batch_idx, b) =>
               let '(n, loss) := train_step n b in
               (n, (train_loss + loss)%R, Some batch_idx))
            (combine (seq k (length l)) l) (n, acc, idx)
  = (fst (steps train_step n l),
     (acc + Rsum (snd (steps train_step n l)))%R,
     match l with [] => idx | _ => Some (k + length l - 1)%nat end).
Proof.
  revert n k acc idx. induction l as [|b l IH]; intros n k acc idx.
  - cbn. unfold Rsum. cbn. rewrite Rplus_0_r. reflexivity.
  - cbn [length seq combine fold_left steps].
    destruct (train_step n b) as [n' loss]. rewrite IH.
    destruct (steps train_step n' l) as [n'' losses]. cbn [fst snd].
    rewrite Rsum_cons. f_equal; [f_equal; lra|].
    destruct l; cbn [length]; f_equal; lia.
Qed.


Lemma below_true (x : R) (b : bound) : below x b = true -> ~ at_most b x.
Proof.
  destruct b as [|r]; cbn; [auto|].
  destruct (Rlt_dec x r); [lra | discriminate].
Qed.

Lemma below_false (x : R) (b : bound) : below x b = false -> at_most b x.
Proof.
  destruct b as [|r]; cbn; [discriminate|].
  destruct (Rlt_dec x r); [discriminate | lra].
Qed.

Lemma at_most_trans (b b' : bound) (x : R) :
  bound_le b b' -> at_most b' x -> at_most b x.
Proof. destruct b, b'; cbn; try tauto. lra. Qed.

Lemma bound_le_refl (b : bound) : bound_le b b.
Proof. destruct b; cbn; [exact I | lra]. Qed.

Lemma bound_le_trans (a b c : bound) : bound_le a b -> bound_le b c -> bound_le a c.
Proof. destruct a, b, c; cbn; try tauto. lra. Qed.

Lemma best_before_app (best0 : bound) (cks more : list checkpoint) (i : nat) :
  (i <= length cks)%nat ->
  best_before best0 (cks ++ more) i = best_before best0 cks i.
Proof.
  intros Hi. destruct i as [|j]; [reflexivity|]. cbn.
  rewrite lookup_app_l by lia. reflexivity.
Qed.

Lemma best_before_le (best0 : bound) (cks : list checkpoint) (i : nat) :
  checkpoints_ok best0 cks -> bound_le (best_before best0 cks i) best0.
Proof.
  intros H. destruct i as [|j]; cbn; [apply bound_le_refl|].
  destruct (cks !! j) as [c|] eqn:E; [|apply bound_le_refl].
  apply (H j c E).
Qed.

Lemma checkpoints_ok_snoc (best0 : bound) (cks : list checkpoint) (e : Z) (x : R) :
  checkpoints_ok best0 cks ->
  let prev := best_before best0 cks (length cks) in
  checkpoints_ok best0
    (cks ++ [mkCheckpoint e (below x prev)
               (if below x prev then Fin x else prev) x]).
Proof.
  intros H prev i ck Hi.
  apply lookup_app_Some in Hi as [Hi | [Hge Hi]].
  - pose proof (lookup_lt_Some _ _ _ Hi) as Hlt.
    rewrite best_before_app by lia.
    destruct (H i ck Hi) as (H1 & H2 & H3 & H4).
    repeat split; try assumption.
    intros j cj Hj Hcj. rewrite lookup_app_l in Hcj by lia. eauto.
  - destruct (i - length cks)%nat eqn:Ei; [|destruct n; discriminate].
    assert (i = length cks) as -> by lia. cbn in Hi. inversion Hi; subst ck. clear Hi.
    rewrite best_before_app by lia. fold prev.
    cbn [ck_is_best ck_test_loss ck_best_test_loss].
    assert (Hprev : bound_le prev best0) by (apply best_before_le; exact H).
    assert (Hnew : bound_le (if below x prev then Fin x else prev) prev).
    { destruct (below x prev) eqn:Eb; [|apply bound_le_refl].
      destruct prev as [|r]; cbn; [exact I|].
      cbn in Eb. destruct (Rlt_dec x r); [lra | discriminate]. }
    repeat split.
    + apply (bound_le_trans _ prev); assumption.
    + intros j cj Hj Hcj.
      apply lookup_app_Some in Hcj as [Hcj | [Hge' Hcj]].
      * apply (at_most_trans _ prev); [exact Hnew|].
        pose proof (lookup_lt_Some _ _ _ Hcj) as Hlt.
        unfold prev. destruct (length cks) as [|m] eqn:El; [lia|]. cbn.
        destruct (cks !! m) as [cm|] eqn:Em.
        -- destruct (H m cm Em) as (_ & _ & _ & H4). apply (H4 j cj); [lia | exact Hcj].
        -- apply lookup_ge_None in Em. lia.
      * destruct (j - length cks)%nat eqn:Ej; [|destruct n; discriminate].
        cbn in Hcj. inversion Hcj; subst cj. cbn [ck_test_loss].
        destruct (below x prev) eqn:Eb; [cbn; lra | apply below_false, Eb].
Qed.

Lemma epochs_spec (train_loader test_loader : list batch) (best0 : bound)
    (l : list Z) (v0 v : @epoch_vars net) :
  checkpoints_ok best0 (saved v0) ->
  best_test_loss v0 = best_before best0 (saved v0) (length (saved v0)) ->
  epochs train_step eval_loss round3 train_loader test_loader l v0 = Ok v ->
  checkpoints_ok best0 (saved v) /\
  best_test_loss v = best_before best0 (saved v) (length (saved v)) /\
  exists new, saved v = saved v0 ++ new /\ map ck_epoch new = l.
Proof.
  revert v0. induction l as [|e l IH]; intros v0 Hok Hbest E.
  - cbn in E. inversion E; subst v. split; [exact Hok|]. split; [exact Hbest|].
    exists []. rewrite app_nil_r. split; reflexivity.
  - cbn [epochs] in E. unfold epoch_body in E.
    destruct (train train_step round3 (ev_net v0) train_loader) as [[n1 tr]|]; [|discriminate].
    destruct (validate eval_loss round3 n1 test_loader) as [x|]; [|discriminate].
    rewrite Hbest in E.
    set (prev := best_before best0 (saved v0) (length (saved v0))) in *.
    assert (Eb : (if below x prev then (Fin x, true) else (prev, false))
                 = (if below x prev then Fin x else prev, below x prev))
      by (destruct (below x prev); reflexivity).
    rewrite Eb in E. clear Eb.
    apply IH in E.
    + destruct E as (Hok' & Hbest' & new & En & Em).
      cbn [saved] in En. split; [exact Hok'|]. split; [exact Hbest'|].
      exists (mkCheckpoint e (below x prev) (if below x prev then Fin x else prev) x :: new).
      split; [rewrite En, <- app_assoc; reflexivity | cbn; rewrite Em; reflexivity].
    + cbn [saved]. apply checkpoints_ok_snoc. exact Hok.
    + cbn [saved best_test_loss]. rewrite length_app. cbn [length].
      replace (length (saved v0) + 1)%nat with (S (length (saved v0))) by lia.
      cbn [best_before]. rewrite lookup_app_r by lia.
      rewrite Nat.sub_diag. reflexivity.
Qed.

Lemma train_returns (n : net) (loader : list batch) :
  loader <> [] -> exists n' x, train train_step round3 n loader = Ok (n', x).
Proof.
  intros Hl. unfold train, enumerate. rewrite train_fold.
  destruct loader; [contradiction | eauto].
Qed.

Lemma validate_returns (n : net) (loader : list batch) :
  loader <> [] -> exists x, validate eval_loss round3 n loader = Ok x.
Proof.
  intros Hl. unfold validate, enumerate. rewrite validate_fold.
  destruct loader; [contradiction | eauto].
Qed.

(** With a batch in each loader, the epoch loop runs to its end. *)
Lemma epochs_return (train_loader test_loader : list batch) (l : list Z)
    (v0 : @epoch_vars net) :
  train_loader <> [] -> test_loader <> [] ->
  exists v, epochs train_step eval_loss round3 train_loader test_loader l v0 = Ok v.
Proof.
  intros Ht Hv. revert v0. induction l as [|e l IH]; intros v0; [cbn; eauto|].
  cbn [epochs]. unfold epoch_body.
  destruct (train_returns (ev_net v0) train_loader Ht) as (n1 & x & ->).
  destruct (validate_returns n1 test_loader Hv) as (y & ->).
  destruct (below y (best_test_loss v0)); apply IH.
Qed.

(** X20: when the epoch loop of [main] returns, it has saved one
    checkpoint per epoch of [range(start_epoch, args.epoch)], in order.
    In each, [is_best] tells whether the test loss of that epoch is
    strictly below the best loss before it, [best_test_loss] is the test
    loss if so and the earlier best otherwise, and it is at most the
    initial best and the test loss of that and every earlier epoch; the
    [best_test_loss] left at the end is that of the last checkpoint. *)
Theorem X20_best_test_loss_is_running_minimum (train_loader test_loader : list batch)
    (start_epoch epoch : Z) (n : net) (best0 : bound) (v : @epoch_vars net) :
  epoch_loop train_step eval_loss round3 train_loader test_loader
             start_epoch epoch n best0 = Ok v ->
  map ck_epoch (saved v) = range_from start_epoch epoch /\
  best_test_loss v = best_before best0 (saved v) (length (saved v)) /\
  forall i ck, saved v !! i = Some ck ->
    let prev := best_before best0 (saved v) i in
    ck_is_best ck = below (ck_test_loss ck) prev /\
    ck_best_test_loss ck = (if ck_is_best ck then Fin (ck_test_loss ck) else prev) /\
    bound_le (ck_best_test_loss ck) best0 /\
    forall j cj, (j <= i)%nat -> saved v !! j = Some cj ->
                 at_most (ck_best_test_loss ck) (ck_test_loss cj).
Proof.
  unfold epoch_loop. intros E.
  apply (epochs_spec train_loader test_loader best0) in E.
  - destruct E as (Hok & Hbest & new & En & Em). cbn [saved app] in En.
    subst new. split; [exact Em|]. split; [exact Hbest|]. exact Hok.
  - intros i ck Hi. cbn in Hi. rewrite lookup_nil in Hi. discriminate.
  - reflexivity.
Qed.

End FashionMnistFacts.

(** ** Image loading and [pair/optimization/myopt.py] *)

Section MyOptFacts.

Import Images MyOpt.

Lemma pow_float_one (x : R) : (0 <= x)%R -> pow_float x gamma = x.
Proof.
  intros Hx. unfold pow_float, gamma.
  destruct (Req_dec_T x 0) as [->|Hne].
  - destruct (Req_dec_T 1 0); [lra | reflexivity].
  - apply Rpower_1. lra.
Qed.

(** X21: [load_image] of [evenodd.py] and [load_img] of [myopt.py] give
    the same tensor on every image of bytes: height and width are those
    of the image, a fourth channel is dropped and any other number of
    channels is kept, and entry [(ch, y, x)] is byte [(y, x, ch)] over
    255, a value of [0, 1]. *)
Theorem X21_loaders_agree (h w c : nat) (px : nat -> nat -> nat -> Z) :
  (forall y x ch, (0 <= px y x ch <= 255)%Z) ->
  exists t t',
    load_image (Colour h w c px) = Ok t /\ load_img (Colour h w c px) = Ok t' /\
    channels t = (if (c =? 4)%nat then 3%nat else c) /\ channels t' = channels t /\
    height t = h /\ height t' = h /\ width t = w /\ width t' = w /\
    forall ch y x,
      value t ch y x = (IZR (px y x ch) / 255)%R /\
      value t' ch y x = value t ch y x /\
      (0 <= value t ch y x <= 1)%R.
Proof.
  intros Hb.
  assert (Hr : forall y x ch, (0 <= IZR (px y x ch) / 255 <= 1)%R).
  { intros y x ch. destruct (Hb y x ch) as [H0 H1].
    apply IZR_le in H0, H1. lra. }
  unfold load_image, load_img, drop_alpha.
  destruct (Nat.eqb_spec c 4) as [->|Hc]; eexists _, _;
    (split; [reflexivity|]); (split; [reflexivity|]);
    cbn [to_nchw channels height width value Nat.min];
    repeat (split; [reflexivity|]);
    intros ch y x; rewrite pow_float_one by apply Hr;
    (split; [reflexivity|]); (split; [reflexivity|]); apply Hr.
Qed.

Lemma add_shapes_spec (num_segments : Z) (even_odd : bool) (n_points n_colors : nat)
    (k : nat) :
  (0 <= num_segments)%Z -> (k <= n_points)%nat -> (k <= n_colors)%nat ->
  for_each (seq 0 k) (add_shape num_segments even_odd n_points n_colors) ([], [])
  = Ok (map (fun i => mkPath (repeat 2%Z (Z.to_nat num_segments)) i 1 true) (seq 0 k),
        map (fun i => mkShapeGroup [i] even_odd i) (seq 0 k)).
Proof.
  intros Hs.
  assert (G : forall m j sh gr,
             length sh = j -> (j + m <= n_points)%nat -> (j + m <= n_colors)%nat ->
             for_each (seq j m) (add_shape num_segments even_odd n_points n_colors)
                      (sh, gr)
             = Ok (sh ++ map (fun i => mkPath (repeat 2%Z (Z.to_nat num_segments)) i 1 true)
                             (seq j m),
                   gr ++ map (fun i => mkShapeGroup [i] even_odd i) (seq j m))).
  { induction m as [|m IH]; intros j sh gr Hl Hp Hc.
    - cbn. rewrite !app_nil_r. reflexivity.
    - cbn [seq for_each add_shape].
      destruct (Z.ltb_spec num_segments 0) as [|_]; [lia|].
      destruct (Nat.leb_spec n_points j) as [|_]; [lia|].
      destruct (Nat.leb_spec n_colors j) as [|_]; [lia|].
      rewrite length_app. cbn [length].
      replace (length sh + 1 - 1)%nat with j by lia.
      rewrite IH by (rewrite ?length_app; cbn [length]; lia).
      cbn [map]. rewrite <- !app_assoc. reflexivity. }
  intros Hp Hc. apply (G k 0%nat [] []); [reflexivity | lia | lia].
Qed.

(** X22: when neither parameter has fewer rows than [num_paths],
    [get_shapes_groups] returns [num_paths] shapes and as many groups;
    shape [i] views row [i] of the points, group [i] fills shape [i]
    alone with row [i] of the colours. *)
Theorem X22_get_shapes_groups_ids (num_segments : Z) (even_odd : bool)
    (num_paths : Z) (n_points n_colors : nat) :
  (0 <= num_segments)%Z ->
  (Z.to_nat num_paths <= n_points)%nat -> (Z.to_nat num_paths <= n_colors)%nat ->
  exists shapes groups,
    get_shapes_groups num_segments even_odd num_paths n_points n_colors
    = Ok (shapes, groups) /\
    length shapes = Z.to_nat num_paths /\ length groups = Z.to_nat num_paths /\
    forall i, (i < Z.to_nat num_paths)%nat ->
      exists p g,
        shapes !! i = Some p /\ groups !! i = Some g /\
        points p = i /\ is_closed p = true /\
        num_control_points p = repeat 2%Z (Z.to_nat num_segments) /\
        shape_ids g = [i] /\ fill_color g = i.
Proof.
  intros Hs Hp Hc. unfold get_shapes_groups, range.
  rewrite add_shapes_spec by assumption.
  eexists _, _. split; [reflexivity|].
  rewrite !length_map, !length_seq. split; [reflexivity|]. split; [reflexivity|].
  intros i Hi. eexists _, _.
  rewrite !list_lookup_fmap, !lookup_seq_lt by exact Hi. cbn.
  repeat split; reflexivity.
Qed.

Lemma Rsum_three (f : nat -> list R) :
  Rsum (flat_map f (seq 0 3)) = (Rsum (f 0%nat) + Rsum (f 1%nat) + Rsum (f 2%nat))%R.
Proof. cbn [seq flat_map]. rewrite app_nil_r, !Rsum_app. lra. Qed.

(** X23: on images of one shape, the loss of the first stage of
    [evenodd.py], the squared error summed over the channels and
    weighted by [1/(W*H)], is three times the [F.mse_loss] that
    [myopt.py] minimises. *)
Theorem X23_first_stage_loss_is_three_times_mse (img target : tensor2 rgb) :
  rows img = rows target -> cols img = cols target ->
  (0 < cols target * rows target)%nat ->
  loss_of img target (Uniform (1 / INR (cols target * rows target)))
  = (3 * mse_loss img target)%R.
Proof.
  intros Hr Hc Hpos. unfold loss_of, weighted_sum, mse_loss.
  rewrite Rsum_three. fold (sum_all (Tensor2 (rows img) (cols img)
    (fun y x => ((channel 0 (at_ img y x) - channel 0 (at_ target y x)) ^ 2)%R))).
  fold (sum_all (Tensor2 (rows img) (cols img)
    (fun y x => ((channel 1 (at_ img y x) - channel 1 (at_ target y x)) ^ 2)%R))).
  fold (sum_all (Tensor2 (rows img) (cols img)
    (fun y x => ((channel 2 (at_ img y x) - channel 2 (at_ target y x)) ^ 2)%R))).
  rewrite !sum_all_rows. cbn [rows cols at_ sq_err_map].
  set (W := INR (cols target * rows target)).
  assert (HW : (0 < W)%R) by (apply lt_0_INR; exact Hpos).
  replace (INR (3 * rows img * cols img)) with (3 * W)%R
    by (unfold W; rewrite Hr, Hc, !mult_INR; cbn; lra).
  rewrite (Rsum_map_ext _ (fun y => (1 / W * Rsum (map (fun x =>
             sq_err (at_ img y x) (at_ target y x)) (seq 0 (cols img))))%R))
    by (intros y _; rewrite <- Rsum_map_scal; apply Rsum_map_ext; intros x _; lra).
  rewrite Rsum_map_scal.
  rewrite (Rsum_map_ext (fun y => Rsum (map (fun x => sq_err (at_ img y x) (at_ target y x))
                                            (seq 0 (cols img))))
             (fun y => (Rsum (map (fun x => (channel 0 (at_ img y x)
                                            - channel 0 (at_ target y x)) ^ 2) (seq 0 (cols img)))
                        + Rsum (map (fun x => (channel 1 (at_ img y x)
                                            - channel 1 (at_ target y x)) ^ 2) (seq 0 (cols img)))
                        + Rsum (map (fun x => (channel 2 (at_ img y x)
                                            - channel 2 (at_ target y x)) ^ 2) (seq 0 (cols img))))%R)).
  - rewrite !Rsum_map_plus. field. lra.
  - intros y _. rewrite <- !Rsum_map_plus. apply Rsum_map_ext. intros x _.
    destruct (at_ img y x) as [[a0 a1] a2], (at_ target y x) as [[b0 b1] b2].
    reflexivity.
Qed.

End MyOptFacts.

(** ** A concrete run: two stages of one random shape each, frozen mode *)

Lemma stage_inv_optimize `{B : Backend} args target cw ch k s w s' w' :
  stage args target cw ch k s w = Ok (s', w') ->
  exists shapes groups pv cv w1 v,
    setup_stage args cw ch k s w = Ok (shapes, groups, pv, cv, w1) /\
    optimize args target cw ch (loss_weight s) shapes groups pv cv s w1 = Ok (v, w').
Proof.
  unfold stage. intros H.
  apply bind_ok in H as ([[[shapes groups] pv] cv] & w1 & Es & H).
  apply bind_ok in H as (v & w2 & Eo & H).
  unfold finish_stage in H. apply bind_ok in H as (im & w3 & Ei & H).
  destruct (lv_img v); [|discriminate]. inversion Ei; subst. inversion H; subst.
  exists shapes, groups, pv, cv, w1, v. auto.
Qed.

#[local] Existing Instance demo.

Lemma demo_reach0 fr :
  @reachable (demo_backend false) (demo_args random fr None) demo_target
             demo_locals0 (demo_world0 0).
Proof. apply (reach_init _ _ (demo_world 0)); reflexivity. Qed.

Lemma demo_stage1 fr :
  exists s1 w1,
    @stage (demo_backend false) (demo_args random fr None) demo_target
           (cols demo_target) (rows demo_target) 1 demo_locals0 (demo_world0 0)
    = Ok (s1, w1).
Proof.
  destruct (@stage_total (demo_backend false) (demo_laws false)
              (demo_args random fr None) demo_target 4 4 1 demo_locals0 (demo_world0 0))
    as (s1 & w1 & E & _).
  - lia.
  - cbn [num_iter demo_args]. lia.
  - cbn [num_segments demo_args]. lia.
  - cbn [initial demo_args]. discriminate.
  - cbn [region_loss demo_locals0]. intros H. contradiction.
  - exists s1, w1. exact E.
Qed.

Lemma demo_stage2 fr s1 w1 :
  @stage (demo_backend false) (demo_args random fr None) demo_target
         (cols demo_target) (rows demo_target) 1 demo_locals0 (demo_world0 0)
  = Ok (s1, w1) ->
  exists s2 w2,
    @stage (demo_backend false) (demo_args random fr None) demo_target
           (cols demo_target) (rows demo_target) 1 s1 w1 = Ok (s2, w2).
Proof.
  intros _.
  destruct (@stage_total (demo_backend false) (demo_laws false)
              (demo_args random fr None) demo_target 4 4 1 s1 w1)
    as (s2 & w2 & E & _).
  - lia.
  - cbn [num_iter demo_args]. lia.
  - cbn [num_segments demo_args]. lia.
  - cbn [initial demo_args]. discriminate.
  - cbn [pool_size demo_args]. lia.
  - exists s2, w2. exact E.
Qed.

Lemma C1_witness :
  exists s1 w1,
    @stage (demo_backend false) (demo_args random false None) demo_target
           (cols demo_target) (rows demo_target) 1 demo_locals0 (demo_world0 0)
    = Ok (s1, w1) /\
    exists new_shapes new_groups,
      old_shapes s1 = old_shapes demo_locals0 ++ new_shapes /\
      old_shape_groups s1 = old_shape_groups demo_locals0 ++ new_groups /\
      (Z.of_nat (length (old_shapes s1))
       = Z.of_nat (length (old_shapes demo_locals0)) + 1)%Z /\
      length new_groups = length new_shapes /\
      (forall j g, new_groups !! j = Some g ->
                   shape_ids g = [(length (old_shapes demo_locals0) + j)%nat]) /\
      (forall i g, old_shape_groups s1 !! i = Some g ->
                   shape_ids g = [i] /\ (i < length (old_shapes s1))%nat) /\
      NoDup (concat (map shape_ids (old_shape_groups s1))).
Proof.
  destruct (demo_stage1 false) as (s1 & w1 & E).
  exists s1, w1. split; [exact E|].
  apply (@C1_shapes_and_group_ids (demo_backend false) (demo_args random false None)
           demo_target demo_locals0 (demo_world0 0) 1 s1 w1);
    [apply demo_reach0 | exact E | lia].
Defined.

Lemma C4_witness :
  exists s1 w1,
    @stage (demo_backend false) (demo_args random false None) demo_target
           (cols demo_target) (rows demo_target) 1 demo_locals0 (demo_world0 0)
    = Ok (s1, w1) /\
    exists m,
      loss_weight s1 = WeightMap m /\
      requires_grad m = false /\
      rows (data m) = rows demo_target /\ cols (data m) = cols demo_target /\
      (forall y x, (y < rows demo_target)%nat -> (x < cols demo_target)%nat ->
                   (0 <= at_ (data m) y x)%R) /\
      sum_all (data m) = 1%R.
Proof.
  destruct (demo_stage1 false) as (s1 & w1 & E).
  exists s1, w1. split; [exact E|].
  apply (@C4_loss_weight_normalised (demo_backend false) (demo_args random false None)
           demo_target demo_locals0 (demo_world0 0) 1 s1 w1);
    [apply demo_reach0 | exact E | cbn [pool_size demo_args]; lia].
Defined.

Lemma C5_witness :
  exists s1 w1,
    @stage (demo_backend false) (demo_args random false None) demo_target
           (cols demo_target) (rows demo_target) 1 demo_locals0 (demo_world0 0)
    = Ok (s1, w1) /\
    exists shapes groups pv cv w1' v_last w_last im,
      @setup_stage (demo_backend false) (demo_args random false None)
         (cols demo_target) (rows demo_target) 1 demo_locals0 (demo_world0 0)
      = Ok (shapes, groups, pv, cv, w1') /\
      for_ (seq 0 (Z.to_nat (num_iter (demo_args random false None)) - 1))
           (iteration (cols demo_target) (rows demo_target) demo_target
                      (loss_weight demo_locals0) shapes groups)
           (initial_loop_vars (demo_args random false None) demo_locals0 pv cv) w1'
      = Ok (v_last, w_last) /\
      img s1 = Some im /\
      data im = rendered (cols demo_target) (rows demo_target)
                         (Z.to_nat (num_iter (demo_args random false None)) - 1)
                         (scene_of w_last shapes groups) /\
      region_loss s1
      = Some (Var (adaptive_avg_pool2d (data (pixel_loss_of im demo_target))
                     (Z.to_nat (pool_size (demo_args random false None)))
                     (Z.to_nat (pool_size (demo_args random false None))))
                  (requires_grad im)) /\
      rows (data (pixel_loss_of im demo_target)) = rows demo_target /\
      cols (data (pixel_loss_of im demo_target)) = cols demo_target /\
      forall y x,
        at_ (data (pixel_loss_of im demo_target)) y x
        = sqrt (sq_err (at_ (data im) y x) (at_ demo_target y x)).
Proof.
  destruct (demo_stage1 false) as (s1 & w1 & E).
  exists s1, w1. split; [exact E|].
  apply (@C5_residual_is_root_of_squared_error (demo_backend false)
           (demo_args random false None) demo_target demo_locals0 (demo_world0 0)
           1 s1 w1);
    [apply demo_reach0 | exact E].
Defined.

Lemma C8_witness :
  exists s1 w1,
    @stage (demo_backend false) (demo_args random false None) demo_target
           (cols demo_target) (rows demo_target) 1 demo_locals0 (demo_world0 0)
    = Ok (s1, w1) /\
    exists shapes groups pv cv w1' ll,
      @setup_stage (demo_backend false) (demo_args random false None)
         (cols demo_target) (rows demo_target) 1 demo_locals0 (demo_world0 0)
      = Ok (shapes, groups, pv, cv, w1') /\
      loss_matrix s1 = loss_matrix demo_locals0 ++ [ll] /\
      Z.of_nat (length ll) = num_iter (demo_args random false None) /\
      forall t, (t < length ll)%nat ->
        exists v_t w_t,
          for_ (seq 0 t)
               (iteration (cols demo_target) (rows demo_target) demo_target
                          (loss_weight demo_locals0) shapes groups)
               (initial_loop_vars (demo_args random false None) demo_locals0 pv cv) w1'
          = Ok (v_t, w_t) /\
          ll !! t = Some (loss_of (rendered (cols demo_target) (rows demo_target) t
                                            (scene_of w_t shapes groups))
                                  demo_target (loss_weight demo_locals0)).
Proof.
  destruct (demo_stage1 false) as (s1 & w1 & E).
  exists s1, w1. split; [exact E|].
  apply (@C8_fixed_iteration_count (demo_backend false)
           (demo_args random false None) demo_target demo_locals0 (demo_world0 0)
           1 s1 w1);
    [apply demo_reach0 | exact E].
Defined.

Lemma C6_witness :
  exists shapes groups pv cv w1 v w2,
    setup_stage (demo_args random false None) (cols demo_target) (rows demo_target)
                1 demo_locals0 (demo_world0 0) = Ok (shapes, groups, pv, cv, w1) /\
    for_ (seq 0 1)
         (iteration (cols demo_target) (rows demo_target) demo_target
                    (loss_weight demo_locals0) shapes groups)
         (initial_loop_vars (demo_args random false None) demo_locals0 pv cv) w1
    = Ok (v, w2) /\
    forall g, In g groups ->
      exists c, cdata w2 !! fill_color g = Some c /\ Forall in_unit c.
Proof.
  destruct (demo_stage1 false) as (s1 & w1 & E).
  apply stage_inv_optimize in E as (shapes & groups & pv & cv & w1' & v & Es & _).
  destruct (loop_returns (cols demo_target) (rows demo_target) demo_target
              (loss_weight demo_locals0) shapes groups (seq 0 1)
              (initial_loop_vars (demo_args random false None) demo_locals0 pv cv) w1')
    as (v1 & w2 & El & _).
  exists shapes, groups, pv, cv, w1', v1, w2.
  split; [exact Es|]. split; [exact El|].
  apply (C6_fill_colors_in_unit_interval (demo_args random false None) demo_target
           demo_locals0 (demo_world0 0) 1 shapes groups pv cv w1' 1
           (initial_loop_vars (demo_args random false None) demo_locals0 pv cv) v1 w2);
    [apply demo_reach0 | exact Es | lia | exact El].
Defined.

Lemma C7_witness :
  exists s1 w1 shapes groups pv cv w1' v w2,
    stage (demo_args random false None) demo_target
          (cols demo_target) (rows demo_target) 1 demo_locals0 (demo_world0 0)
    = Ok (s1, w1) /\
    setup_stage (demo_args random false None) (cols demo_target) (rows demo_target)
                1 s1 w1 = Ok (shapes, groups, pv, cv, w1') /\
    optimize (demo_args random false None) demo_target
             (cols demo_target) (rows demo_target) (loss_weight s1)
             shapes groups pv cv s1 w1' = Ok (v, w2) /\
    params (lv_points_optim v) = pv /\
    params (lv_color_optim v) = cv /\
    (free (demo_args random false None) = false ->
     (forall p, In p (old_shapes s1) ->
        ~ In (points p) pv /\
        exists d, pdata w1 !! points p = Some d /\ pdata w1' !! points p = Some d
                  /\ pdata w2 !! points p = Some d) /\
     (forall g, In g (old_shape_groups s1) ->
        ~ In (fill_color g) cv /\
        exists c, cdata w1 !! fill_color g = Some c /\ cdata w1' !! fill_color g = Some c
                  /\ cdata w2 !! fill_color g = Some c)) /\
    (free (demo_args random false None) = true ->
     (forall p, In p (old_shapes s1) -> In (points p) pv) /\
     (forall g, In g (old_shape_groups s1) -> In (fill_color g) cv)).
Proof.
  destruct (demo_stage1 false) as (s1 & w1 & E1).
  destruct (demo_stage2 false s1 w1 E1) as (s2 & w2 & E2).
  apply stage_inv_optimize in E2 as (shapes & groups & pv & cv & w1' & v & Es & Eo).
  exists s1, w1, shapes, groups, pv, cv, w1', v, w2.
  split; [exact E1|]. split; [exact Es|]. split; [exact Eo|].
  apply (C7_frozen_parameters_unchanged (demo_args random false None) demo_target
           s1 w1 1 shapes groups pv cv w1' v w2);
    [eapply reach_stage; [apply demo_reach0 | exact E1] | exact Es | exact Eo].
Defined.

Lemma half_laws : BackendLaws half_backend.
Proof.
  constructor; intros x; cbn.
  - apply sort_fold_perm.
  - apply sort_fold_sorted.
Qed.

(** C5, the claim as stated: with a rasteriser that paints red one half on
    a black one-pixel target, the sum over channels of the squared
    difference is 1/4, but the residual pooled into the region-loss grid at
    the end of the stage is 1/2. *)
Lemma C5_counterexample :
  exists s1 w1 im rl,
    @reachable half_backend (unit_args random) unit_target unit_locals0
               (@World half_backend (Z.to_nat 1234) 0%nat [] []) /\
    @stage half_backend (unit_args random) unit_target
           (cols unit_target) (rows unit_target) 1 unit_locals0
           (@World half_backend (Z.to_nat 1234) 0%nat [] []) = Ok (s1, w1) /\
    img s1 = Some im /\
    region_loss s1 = Some rl /\
    sq_err (at_ (data im) 0 0) (at_ unit_target 0 0) = (1 / 4)%R /\
    at_ (data rl) 0 0 = (1 / 2)%R.
Proof.
  assert (Hr : @reachable half_backend (unit_args random) unit_target unit_locals0
                 (@World half_backend (Z.to_nat 1234) 0%nat [] [])).
  { apply (@reach_init half_backend _ _ (@World half_backend 0%nat 0%nat [] []));
      reflexivity. }
  destruct (@stage_total half_backend half_laws (unit_args random) unit_target
              (cols unit_target) (rows unit_target) 1 unit_locals0
              (@World half_backend (Z.to_nat 1234) 0%nat [] []))
    as (s1 & w1 & E & _).
  - lia.
  - cbn [num_iter unit_args]. lia.
  - cbn [num_segments unit_args]. lia.
  - cbn [initial unit_args]. discriminate.
  - cbn [region_loss unit_locals0]. intros H; contradiction.
  - destruct (@stage_error_map half_backend _ _ _ _ _ _ _ Hr E)
      as (shapes & groups & pv & cv & w1' & vl & wl & im
          & _ & _ & Eim & Ed & Erl & _ & _ & Hpx).
    eexists s1, w1, im, _. split; [exact Hr|]. split; [exact E|].
    split; [exact Eim|]. split; [exact Erl|].
    assert (Hsq : sq_err (at_ (data im) 0 0) (at_ unit_target 0 0) = (1 / 4)%R).
    { rewrite Ed. cbn. lra. }
    split; [exact Hsq|].
    assert (Hrows : rows (data (pixel_loss_of im unit_target)) = 1%nat)
      by (unfold pixel_loss_of; cbn [data rows]; rewrite Ed; reflexivity).
    assert (Hcols : cols (data (pixel_loss_of im unit_target)) = 1%nat)
      by (unfold pixel_loss_of; cbn [data cols]; rewrite Ed; reflexivity).
    cbn [data adaptive_avg_pool2d at_ pool_size unit_args].
    rewrite Hrows, Hcols.
    change (window 0 (Z.to_nat 1) 1) with [0%nat].
    cbn [flat_map map app length Nat.mul Nat.add].
    rewrite Hpx, Hsq.
    assert (Hs : sqrt (1 / 4) = (1 / 2)%R).
    { apply sqrt_lem_1; lra. }
    rewrite Hs. unfold Rsum. cbn. lra.
Qed.

(** ** Determinism *)

Section Determinism.

Context {B : Backend}.

Lemma np_blind_ret {A : Type} (a : A) : np_blind (ret a).
Proof. intros w np. reflexivity. Qed.

Lemma np_blind_raise {A : Type} e : np_blind (@raise B A e).
Proof. intros w np. reflexivity. Qed.

Lemma np_blind_bind {A C : Type} (m : M A) (k : A -> M C) :
  np_blind m -> (forall a, np_blind (k a)) -> np_blind (bind m k).
Proof.
  intros Hm Hk w np. unfold bind. rewrite Hm.
  destruct (m w) as [[a w']|e]; [apply Hk | reflexivity].
Qed.

Lemma np_blind_for {A S : Type} (l : list A) (body : A -> S -> M S) s :
  (forall x s, np_blind (body x s)) -> np_blind (for_ l body s).
Proof.
  intros Hb. revert s. induction l as [|x l IH]; intros s.
  - apply np_blind_ret.
  - cbn [for_]. apply np_blind_bind; [apply Hb | intros; apply IH].
Qed.

Lemma np_blind_py_random : np_blind py_random.
Proof.
  intros w np. unfold py_random, set_np. cbn.
  destruct (random_random (py_state w)). reflexivity.
Qed.

Ltac blind :=
  repeat first
    [ apply np_blind_ret
    | apply np_blind_raise
    | apply np_blind_py_random
    | solve [intros w np; reflexivity]
    | apply np_blind_bind; [|intros]
    | apply np_blind_for; intros ].

Lemma np_blind_get_bezier_circle r n b : np_blind (get_bezier_circle r n b).
Proof.
  unfold get_bezier_circle. apply np_blind_bind.
  - destruct b; blind.
  - intros bias. destruct (n =? 0)%Z; blind.
Qed.

Lemma np_blind_random_points n : np_blind (random_points n).
Proof.
  unfold random_points. blind. destruct s as [p0 pts]. unfold jitter. blind.
  destruct (_ <? _)%Z; blind.
Qed.

(** The initialiser consults NumPy only for the radius of a circle that
    was not given on the command line. *)
Lemma np_blind_new_points args norm i :
  initial args = random \/ circle_init_radius args <> None ->
  np_blind (new_points args norm i).
Proof.
  intros H. unfold new_points. apply np_blind_bind.
  - destruct (initial args) eqn:Ei; [apply np_blind_random_points|].
    destruct (circle_init_radius args) as [r|]; [|destruct H; congruence].
    apply np_blind_bind; [apply np_blind_ret|]. intros radius.
    apply np_blind_bind; [apply np_blind_py_random|]. intros bx.
    apply np_blind_bind; [apply np_blind_py_random|]. intros by_.
    apply np_blind_get_bezier_circle.
  - intros pts. destruct norm as [np|]; [|blind]. destruct (np !! i); blind.
Qed.

Lemma np_blind_init_new_paths k cw ch args n_old pixel_loss :
  initial args = random \/ circle_init_radius args <> None ->
  np_blind (init_new_paths k cw ch args n_old pixel_loss).
Proof.
  intros H. unfold init_new_paths. apply np_blind_bind.
  - apply np_blind_for. intros i [shapes groups]. unfold new_path.
    destruct (_ <? _)%Z; [blind|].
    apply np_blind_bind; [apply np_blind_new_points; exact H|]. intros. blind.
  - intros [shapes groups]. blind.
Qed.

Lemma np_blind_iteration cw ch target lw shapes groups t v :
  np_blind (iteration cw ch target lw shapes groups t v).
Proof. unfold iteration. blind. Qed.

Lemma np_blind_stage args target cw ch k s :
  initial args = random \/ circle_init_radius args <> None ->
  np_blind (stage args target cw ch k s).
Proof.
  intros H. unfold stage. apply np_blind_bind.
  - unfold setup_stage. apply np_blind_bind; [apply np_blind_init_new_paths, H|].
    intros [[[shapes groups] pv] cv]. apply np_blind_bind; [|intros [opv ocv]; blind].
    unfold old_vars. destruct (_ <? _)%nat; [|blind].
    destruct (free args); blind.
  - intros [[[shapes groups] pv] cv]. apply np_blind_bind.
    + unfold optimize, new_optimizer. destruct pv; [blind|]. destruct cv; [blind|].
      blind.
    + intros v. unfold finish_stage. destruct (lv_img v); blind.
Qed.

Lemma np_blind_main args num_paths_list target :
  initial args = random \/ circle_init_radius args <> None ->
  np_blind (main args num_paths_list target).
Proof.
  intros H. unfold main. apply np_blind_bind; [blind|]. intros _.
  apply np_blind_bind.
  - unfold init_locals. destruct (_ =? _)%nat; blind.
  - intros s0. apply np_blind_bind.
    + apply np_blind_for. intros k s. apply np_blind_stage, H.
    + intros s. destruct (loss s); blind.
Qed.

(** With random initialisation, or a circle radius given on the command
    line, the loss trajectories of a run do not depend on the state of the
    NumPy generator, nor on the state of the Python generator before
    [random.seed(1234)]. *)
Lemma trajectories_ignore_generators args num_paths_list target py np py' np' :
  initial args = random \/ circle_init_radius args <> None ->
  loss_trajectories args num_paths_list target (World py np [] [])
  = loss_trajectories args num_paths_list target (World py' np' [] []).
Proof.
  intros H. unfold loss_trajectories.
  assert (Hpy : main args num_paths_list target (World py' np' [] [])
                = main args num_paths_list target (World py np' [] []))
    by reflexivity.
  rewrite Hpy.
  change (World py np' [] []) with (set_np np' (World py np [] [])).
  rewrite (np_blind_main args num_paths_list target H).
  destruct (main args num_paths_list target (World py np [] [])) as [[s w]|e];
    reflexivity.
Qed.

End Determinism.

Lemma cos_full_turn : cos ((1 * (360 / 2) + 360 / 2) * PI / 180) = 1%R.
Proof.
  replace ((1 * (360 / 2) + 360 / 2) * PI / 180)%R with (2 * PI)%R by field.
  apply cos_2PI.
Qed.

(** C9, the code at the failing input: circle initialisation without
    [--circle_init_radius], one stage of one shape, one iteration, a
    one-pixel black target.  The run seeds [random] and [torch] but not
    NumPy, which draws the radius; two runs that differ only in the state
    of the NumPy generator record different losses. *)
Theorem C9_unseeded_numpy_radius :
  exists a b : R,
    loss_trajectories (demo_args circle false None) [1%Z] unit_target (demo_world 0)
    = Some [[a]] /\
    loss_trajectories (demo_args circle false None) [1%Z] unit_target (demo_world 1)
    = Some [[b]] /\
    a = (2028 / 10000)%R /\ b = (28366875 / 100000000)%R /\ a <> b.
Proof.
  eexists _, _.
  split; [cbv -[Rplus Rmult Rminus Rdiv Rinv Ropp IZR cos sin tan sqrt PI exp
                Rlt_dec Rle_dec]; reflexivity|].
  split; [cbv -[Rplus Rmult Rminus Rdiv Rinv Ropp IZR cos sin tan sqrt PI exp
                Rlt_dec Rle_dec]; reflexivity|].
  rewrite !cos_full_turn. repeat split; lra.
Qed.

(** ** Concrete instances of the further properties *)

Lemma demo_random_laws : RandomLaws demo.
Proof.
  constructor. intros s. cbn [random_random demo demo_backend fst].
  assert (H : (s mod 8 < 8)%nat) by (apply Nat.mod_upper_bound; lia).
  apply lt_INR in H. pose proof (pos_INR (s mod 8)) as H0.
  replace (INR 8) with 8%R in H by (cbn; lra).
  split; [apply Rmult_le_pos; lra | lra].
Qed.

(** [main] on the black 4 x 4 target: two stages of one random shape. *)
Lemma demo_main :
  exists s w,
    @main demo (demo_args random false None) [1%Z; 1%Z] demo_target (demo_world 0)
    = Ok (s, w).
Proof.
  destruct (@main_total demo (demo_laws false) (demo_args random false None)
              [1%Z; 1%Z] demo_target (demo_world 0)) as (s & w & E & _).
  - cbn. lia.
  - discriminate.
  - repeat constructor; lia.
  - cbn [num_iter demo_args]. lia.
  - cbn [num_segments demo_args]. lia.
  - cbn [pool_size demo_args]. lia.
  - cbn [tail pool_size demo_args]. repeat constructor; lia.
  - reflexivity.
  - reflexivity.
  - exists s, w. exact E.
Qed.


Lemma X2_witness :
  exists pts,
    @get_bezier_circle demo 1 2 (Some (0%R, 0%R)) (demo_world 0) = Ok (pts, demo_world 0) /\
    pts !! 0%nat = Some ((1 + fst (0%R, 0%R))%R, snd (0%R, 0%R)).
Proof.
  apply (@X2_bezier_circle_closes demo 1 2 (0%R, 0%R) (demo_world 0)). lia.
Defined.

Lemma X3_witness :
  Forall (fun c => (0 < fst c < 1)%R /\ (0 < snd c < 1)%R)
         (@norm_postion demo (demo_args random false None) 1 demo_grid).
Proof.
  apply (@X3_norm_postion_inside_unit_square demo (demo_laws false)
           (demo_args random false None) 1 demo_grid).
  cbn [pool_size demo_args]. lia.
Defined.



Lemma X10_witness :
  exists s w,
    @main demo (demo_args random false None) [1%Z; 1%Z] demo_target (demo_world 0)
    = Ok (s, w) /\
    length (loss_matrix s) = length [1%Z; 1%Z] /\
    Forall (fun ll => Z.of_nat (length ll) = num_iter (demo_args random false None))
           (loss_matrix s) /\
    length (old_shape_groups s) = length (old_shapes s) /\
    (Forall (fun k => (0 <= k)%Z) [1%Z; 1%Z] ->
     Z.of_nat (length (old_shapes s)) = Zsum [1%Z; 1%Z]).
Proof.
  destruct demo_main as (s & w & E). exists s, w. split; [exact E|].
  apply (@X10_run_accounting demo (demo_args random false None) [1%Z; 1%Z]
           demo_target (demo_world 0) s w); [reflexivity | reflexivity | exact E].
Defined.

Lemma X7_witness :
  exists s w,
    @main demo (demo_args random false None) [1%Z; 1%Z] demo_target (demo_world 0)
    = Ok (s, w) /\
    Forall (Forall (fun l => (0 <= l)%R)) (loss_matrix s).
Proof.
  destruct demo_main as (s & w & E). exists s, w. split; [exact E|].
  apply (@X7_recorded_losses_nonnegative demo (demo_args random false None) [1%Z; 1%Z]
           demo_target (demo_world 0) s w);
    [reflexivity | reflexivity | cbn [pool_size demo_args]; lia | exact E].
Defined.


Lemma X12_witness :
  exists s w,
    @main demo (demo_args random false None) [1%Z; 1%Z] demo_target (demo_world 0)
    = Ok (s, w) /\
    [1%Z; 1%Z] <> [] /\ (1 <= num_iter (demo_args random false None))%Z /\
    (0 < cols demo_target * rows demo_target)%nat /\
    (1 <= hd 1%Z [1%Z; 1%Z])%Z /\
    (free (demo_args random false None) = false ->
     Forall (fun k => (1 <= k)%Z) [1%Z; 1%Z]).
Proof.
  destruct demo_main as (s & w & E). exists s, w. split; [exact E|].
  apply (@X12_when_main_returns demo (demo_args random false None) [1%Z; 1%Z]
           demo_target (demo_world 0) s w); [reflexivity | reflexivity | exact E].
Defined.

Lemma X13_witness :
  exists s w,
    @main demo (demo_args random false None) [1%Z; 1%Z] demo_target (demo_world 0)
    = Ok (s, w) /\
    store_dense (old_shapes s) (old_shape_groups s) w /\
    NoDup (map points (old_shapes s)) /\
    NoDup (map fill_color (old_shape_groups s)).
Proof.
  destruct demo_main as (s & w & E). exists s, w. split; [exact E|].
  apply (@X13_parameters_are_not_shared demo (demo_args random false None) [1%Z; 1%Z]
           demo_target (demo_world 0) s w); [reflexivity | reflexivity | exact E].
Defined.

Lemma X5_witness :
  (forall i j, (i < 2)%nat -> (j < 2)%nat ->
     at_ (data (region_loss_of (demo_args random false None)
                  (Var (Tensor2 4 4 (fun y x => INR (y + x))) false))) i j
     = (Rsum (map (fun r => Rsum (map (fun c => INR (r + c)) (seq (j * 2) 2)))
                  (seq (i * 2) 2)) / INR (2 * 2))%R) /\
  (sum_all (data (region_loss_of (demo_args random false None)
                    (Var (Tensor2 4 4 (fun y x => INR (y + x))) false)))
   * INR (2 * 2)
   = sum_all (Tensor2 4 4 (fun y x => INR (y + x))))%R.
Proof.
  apply (X5_pooling_on_divisible_canvas (demo_args random false None)
           (Var (Tensor2 4 4 (fun y x => INR (y + x))) false) 2 2);
    cbn; lia.
Defined.

Lemma X6_witness :
  at_ (data (loss_weight_of (2 * 2) (2 * 2) (Var demo_grid false))) 1 2
  = (nth ((1 / 2) * 2 + 2 / 2)%nat (softmax (flatten (data (Var demo_grid false)))) 0
     / INR (2 * 2))%R.
Proof.
  apply (X6_weight_map_on_divisible_canvas (Var demo_grid false) 2 2 2);
    solve [lia | reflexivity].
Defined.

Section UtilsInstances.

Import String.StringSyntax.
Local Open Scope string_scope.


Lemma X16_witness : Utils.format_time 0 = "0ms".
Proof. apply (X16_format_time_below_a_millisecond 0). lra. Defined.

Lemma X17_witness :
  exists c' rest,
    Utils.progress_bar 3 10 None (Utils.mkConsole 0 0 (fun n => INR n) 0 "") = Ok c' /\
    (Z.to_nat (65 * 3 / 10) <= 64)%nat /\
    Utils.stdout c'
    = String.append ""
        (String.append " ["
           (String.append (Utils.repeat_string (Z.to_nat (65 * 3 / 10)) "=")
              (String.append ">"
                 (String.append
                    (Utils.repeat_string (64 - Z.to_nat (65 * 3 / 10)) ".")
                    (String.append "]" rest))))) /\
    String.length
      (String.append (Utils.repeat_string (Z.to_nat (65 * 3 / 10)) "=")
         (String.append ">" (Utils.repeat_string (64 - Z.to_nat (65 * 3 / 10)) ".")))
    = 65%nat.
Proof.
  apply (X17_progress_bar_width 3 10 None (Utils.mkConsole 0 0 (fun n => INR n) 0 "")).
  lia.
Defined.


End UtilsInstances.

(** Two epochs on one training batch and one test batch; the network is
    a counter of optimiser steps and the test loss falls with it. *)
Lemma X20_witness :
  exists v,
    FashionMnist.epoch_loop (fun (n : nat) (b : R) => (S n, b))
      (fun (n : nat) (b : R) => (b / INR n)%R) (fun x => x)
      [1%R] [1%R] 0 2 0%nat FashionMnist.Inf = Ok v /\
    map FashionMnist.ck_epoch (FashionMnist.saved v) = FashionMnist.range_from 0 2 /\
    FashionMnist.best_test_loss v
    = FashionMnist.best_before FashionMnist.Inf (FashionMnist.saved v)
        (length (FashionMnist.saved v)) /\
    forall i ck, FashionMnist.saved v !! i = Some ck ->
      let prev := FashionMnist.best_before FashionMnist.Inf (FashionMnist.saved v) i in
      FashionMnist.ck_is_best ck = FashionMnist.below (FashionMnist.ck_test_loss ck) prev /\
      FashionMnist.ck_best_test_loss ck
      = (if FashionMnist.ck_is_best ck then FashionMnist.Fin (FashionMnist.ck_test_loss ck)
         else prev) /\
      FashionMnist.bound_le (FashionMnist.ck_best_test_loss ck) FashionMnist.Inf /\
      forall j cj, (j <= i)%nat -> FashionMnist.saved v !! j = Some cj ->
        FashionMnist.at_most (FashionMnist.ck_best_test_loss ck)
                             (FashionMnist.ck_test_loss cj).
Proof.
  destruct (epochs_return (fun (n : nat) (b : R) => (S n, b))
              (fun (n : nat) (b : R) => (b / INR n)%R) (fun x => x)
              [1%R] [1%R] (FashionMnist.range_from 0 2)
              (FashionMnist.mkEpochVars 0%nat FashionMnist.Inf []))
    as (v & E); [discriminate | discriminate |].
  exists v. split; [exact E|].
  apply (X20_best_test_loss_is_running_minimum (fun (n : nat) (b : R) => (S n, b))
           (fun (n : nat) (b : R) => (b / INR n)%R) (fun x => x)
           [1%R] [1%R] 0 2 0%nat FashionMnist.Inf v).
  exact E.
Defined.

Lemma X21_witness :
  exists t t',
    Images.load_image (Images.Colour 1 1 4 (fun _ _ _ => 255%Z)) = Ok t /\
    MyOpt.load_img (Images.Colour 1 1 4 (fun _ _ _ => 255%Z)) = Ok t' /\
    Images.channels t = (if (4 =? 4)%nat then 3%nat else 4%nat) /\
    Images.channels t' = Images.channels t /\
    Images.height t = 1%nat /\ Images.height t' = 1%nat /\
    Images.width t = 1%nat /\ Images.width t' = 1%nat /\
    forall ch y x,
      Images.value t ch y x = (IZR 255 / 255)%R /\
      Images.value t' ch y x = Images.value t ch y x /\
      (0 <= Images.value t ch y x <= 1)%R.
Proof.
  apply (X21_loaders_agree 1 1 4 (fun _ _ _ => 255%Z)). intros y x ch. lia.
Defined.

Lemma X22_witness :
  exists shapes groups,
    MyOpt.get_shapes_groups 3 true 2 2 2 = Ok (shapes, groups) /\
    length shapes = Z.to_nat 2 /\ length groups = Z.to_nat 2 /\
    forall i, (i < Z.to_nat 2)%nat ->
      exists p g,
        shapes !! i = Some p /\ groups !! i = Some g /\
        points p = i /\ is_closed p = true /\
        num_control_points p = repeat 2%Z (Z.to_nat 3) /\
        shape_ids g = [i] /\ fill_color g = i.
Proof.
  apply (X22_get_shapes_groups_ids 3 true 2 2 2); [lia | cbn; lia | cbn; lia].
Defined.

Lemma X23_witness :
  loss_of demo_target demo_target
          (Uniform (1 / INR (cols demo_target * rows demo_target)))
  = (3 * MyOpt.mse_loss demo_target demo_target)%R.
Proof.
  apply (X23_first_stage_loss_is_three_times_mse demo_target demo_target);
    [reflexivity | reflexivity | cbn; lia].
Defined.
